(** * Connected components of a polygon mesh and their excision

    A shallow embedding of
    [Polygon_mesh_processing/connected_components.h] (CGAL): the traversal
    that collects one connected component, the labelling of all components,
    the selection of components by rank or by size, and the in-place removal
    of the components that are not kept.

    The halfedge mesh itself is not part of that header; it is modelled in
    [Module Mesh] below as an arena of vertices, edges (two halfedges each)
    and faces addressed by stable integer descriptors. *)

From stdpp Require Import base decidable option numbers list sets gmap
  fin_maps relations sorting.
From Stdlib Require Import Sorting.Sorted Sorting.Permutation.

Set Default Proof Using "Type".
Set Warnings "-clear-no-such-hyp".

(** ** The mesh interface *)

Abbreviation vertex_descriptor := nat (only parsing).
Abbreviation face_descriptor := nat (only parsing).
Abbreviation edge_descriptor := nat (only parsing).
(** A halfedge is one of the two sides of an edge. *)
Abbreviation halfedge_descriptor := (nat * bool)%type (only parsing).

(** The connectivity stored with a halfedge. [he_face = None] is the
    [null_face()] sentinel, it marks a border halfedge. *)
Record Halfedge := mkHalfedge {
  he_next : halfedge_descriptor;
  he_prev : halfedge_descriptor;
  he_target : vertex_descriptor;
  he_face : option face_descriptor
}.

Global Instance Halfedge_eq_dec : EqDecision Halfedge.
Proof. solve_decision. Defined.

(** Modelled from the spec: the Mesh Interface (storage of the polygon
    mesh), which the header only consumes. Vertices carry an optional
    reference halfedge (an isolated vertex has none), faces carry a
    reference halfedge, and the two halfedges of an edge are stored
    together, so that erasing an edge erases both of them. *)
Record PolygonMesh := mkMesh {
  vconn : gmap nat (option halfedge_descriptor);
  econn : gmap nat (Halfedge * Halfedge);
  fconn : gmap nat halfedge_descriptor
}.

Module Mesh.

(** Modelled from the spec: traversal operators of the Mesh Interface. *)
Definition opposite (h : halfedge_descriptor) : halfedge_descriptor :=
  (h.1, negb h.2).

Definition edge (h : halfedge_descriptor) : edge_descriptor := h.1.

(** [halfedge(e, pmesh)] *)
Definition halfedge_e (e : edge_descriptor) : halfedge_descriptor :=
  (e, false).

Definition side (h : halfedge_descriptor) (p : Halfedge * Halfedge) : Halfedge :=
  if h.2 then p.2 else p.1.

Definition conn (m : PolygonMesh) (h : halfedge_descriptor) : option Halfedge :=
  side h <$> econn m !! h.1.

(** A descriptor is alive while its entity has not been erased. Reading
    through an erased descriptor has no defined result in the source; the
    accessors below then return a fixed value, and every statement about
    them is made for alive descriptors. *)
Definition alive (m : PolygonMesh) (h : halfedge_descriptor) : Prop :=
  is_Some (econn m !! h.1).

Definition next (m : PolygonMesh) (h : halfedge_descriptor) : halfedge_descriptor :=
  from_option he_next h (conn m h).

Definition prev (m : PolygonMesh) (h : halfedge_descriptor) : halfedge_descriptor :=
  from_option he_prev h (conn m h).

Definition target (m : PolygonMesh) (h : halfedge_descriptor) : vertex_descriptor :=
  from_option he_target 0 (conn m h).

Definition source (m : PolygonMesh) (h : halfedge_descriptor) : vertex_descriptor :=
  target m (opposite h).

(** [face(h, pmesh)]; [None] is [null_face()]. *)
Definition face (m : PolygonMesh) (h : halfedge_descriptor) : option face_descriptor :=
  conn m h ≫= he_face.

Definition is_border (m : PolygonMesh) (h : halfedge_descriptor) : bool :=
  bool_decide (face m h = None).

(** [is_border(e, pmesh)]: one of the two sides is a border halfedge. *)
Definition is_border_edge (m : PolygonMesh) (e : edge_descriptor) : bool :=
  is_border m (halfedge_e e) || is_border m (opposite (halfedge_e e)).

(** [halfedge(v, pmesh)] and [halfedge(f, pmesh)] *)
Definition halfedge_v (m : PolygonMesh) (v : vertex_descriptor) : option halfedge_descriptor :=
  vconn m !! v ≫= id.

Definition halfedge_f (m : PolygonMesh) (f : face_descriptor) : option halfedge_descriptor :=
  fconn m !! f.

(** Modelled from the spec: entity enumeration, in the native order of
    the store. *)
Definition vertices (m : PolygonMesh) : list vertex_descriptor :=
  (map_to_list (vconn m)).*1.

Definition edges (m : PolygonMesh) : list edge_descriptor :=
  (map_to_list (econn m)).*1.

Definition faces (m : PolygonMesh) : list face_descriptor :=
  (map_to_list (fconn m)).*1.

Definition halfedges (m : PolygonMesh) : list halfedge_descriptor :=
  e ← edges m; [(e, false); (e, true)].

Definition num_halfedges (m : PolygonMesh) : nat := length (halfedges m).

(** Modelled from the spec: [halfedges_around_face(h, pmesh)] walks
    [h, next(h), next(next(h)), ...] until it is back at [h]. A walk that
    is not back after as many steps as the mesh has halfedges never
    closes; the model then has no result. *)
Fixpoint walk_face (m : PolygonMesh) (fuel : nat)
    (start cur : halfedge_descriptor) : option (list halfedge_descriptor) :=
  match fuel with
  | 0 => None
  | S fuel =>
      if decide (next m cur = start) then Some [cur]
      else (cur ::.) <$> walk_face m fuel start (next m cur)
  end.

Definition halfedges_around_face (m : PolygonMesh) (h : halfedge_descriptor)
    : option (list halfedge_descriptor) :=
  walk_face m (num_halfedges m) h h.

(** [halfedges_around_face(halfedge(f, pmesh), pmesh)] *)
Definition face_halfedges (m : PolygonMesh) (f : face_descriptor)
    : option (list halfedge_descriptor) :=
  halfedge_f m f ≫= halfedges_around_face m.

(** Modelled from the spec: mutators of the Mesh Interface. Writing
    through an erased descriptor changes nothing. *)
Definition upd_side (g : Halfedge → Halfedge) (h : halfedge_descriptor)
    (p : Halfedge * Halfedge) : Halfedge * Halfedge :=
  if h.2 then (p.1, g p.2) else (g p.1, p.2).

Definition upd_conn (g : Halfedge → Halfedge) (h : halfedge_descriptor)
    (m : PolygonMesh) : PolygonMesh :=
  mkMesh (vconn m) (alter (upd_side g h) h.1 (econn m)) (fconn m).

Definition with_next (n : halfedge_descriptor) (c : Halfedge) : Halfedge :=
  mkHalfedge n (he_prev c) (he_target c) (he_face c).

Definition with_prev (p : halfedge_descriptor) (c : Halfedge) : Halfedge :=
  mkHalfedge (he_next c) p (he_target c) (he_face c).

Definition with_face (f : option face_descriptor) (c : Halfedge) : Halfedge :=
  mkHalfedge (he_next c) (he_prev c) (he_target c) f.

(** [set_next(h1, h2, pmesh)]: [h2] becomes the successor of [h1] and
    [h1] the predecessor of [h2]. *)
Definition set_next (m : PolygonMesh) (h1 h2 : halfedge_descriptor) : PolygonMesh :=
  upd_conn (with_prev h1) h2 (upd_conn (with_next h2) h1 m).

Definition set_face (m : PolygonMesh) (h : halfedge_descriptor)
    (f : option face_descriptor) : PolygonMesh :=
  upd_conn (with_face f) h m.

(** [set_halfedge(v, h, pmesh)] *)
Definition set_halfedge (m : PolygonMesh) (v : vertex_descriptor)
    (h : halfedge_descriptor) : PolygonMesh :=
  mkMesh (alter (λ _, Some h) v (vconn m)) (econn m) (fconn m).

Definition remove_edge (m : PolygonMesh) (e : edge_descriptor) : PolygonMesh :=
  mkMesh (vconn m) (delete e (econn m)) (fconn m).

Definition remove_face (m : PolygonMesh) (f : face_descriptor) : PolygonMesh :=
  mkMesh (vconn m) (econn m) (delete f (fconn m)).

Definition remove_vertex (m : PolygonMesh) (v : vertex_descriptor) : PolygonMesh :=
  mkMesh (delete v (vconn m)) (econn m) (fconn m).

(** [CGAL::clear(pmesh)] *)
Definition clear (m : PolygonMesh) : PolygonMesh := mkMesh ∅ ∅ ∅.

End Mesh.

Import Mesh.

(** ** Property maps *)

(** A [boost::vector_property_map<std::size_t, FaceIndexMap>]: entries that
    were never written read as the default value [0]. *)
Definition get_fcm (fcm : gmap nat nat) (f : face_descriptor) : nat :=
  default 0 (fcm !! f).

(** A [boost::vector_property_map<bool, VertexIndexMap>]. *)
Definition get_kv (keep_vertex : gmap nat bool) (v : vertex_descriptor) : bool :=
  default false (keep_vertex !! v).

(** ** [namespace internal] *)

(** [MoreSecond::operator()]: [a.second > b.second]. *)
Definition MoreSecond (a b : nat * nat) : bool := b.2 <? a.2.

(** [get(No_constraint<G>, e)] *)
Definition No_constraint (e : edge_descriptor) : bool := false.

(** [No_border::operator()] *)
Definition No_border (g : PolygonMesh) (ecm : edge_descriptor → bool)
    (e : edge_descriptor) : bool :=
  if negb (is_border_edge g e) then negb (ecm e) else false.

(** ** [connected_component] *)

Section Traversal.
(** [succs f] is the sequence of faces that the inner [for] loop pushes
    while [f] is being processed, in the order of the pushes. *)
Context (succs : face_descriptor → option (list face_descriptor)).

(** The [while (!stack.empty())] loop. The head of [stack] is the back of
    the [std::vector]; [out] collects what is written to the output
    iterator. One unit of fuel is spent for each evaluation of the loop
    condition. *)
Fixpoint traverse (fuel : nat) (stack : list face_descriptor)
    (already_processed : gset nat) (out : list face_descriptor)
    : option (gset nat * list face_descriptor) :=
  match fuel with
  | 0 => None
  | S fuel =>
      match stack with
      | [] => Some (already_processed, out)
      | seed_face :: stack =>
          if decide (seed_face ∈ already_processed)
          then traverse fuel stack already_processed out
          else
            ns ← succs seed_face;
            traverse fuel (reverse ns ++ stack)
              ({[seed_face]} ∪ already_processed) (out ++ [seed_face])
      end
  end.
End Traversal.

(** The body of [for (hd : halfedges_around_face(halfedge(seed_face)))]. *)
Definition pushed_neighbors (pmesh : PolygonMesh) (ecmap : edge_descriptor → bool)
    (seed_face : face_descriptor) : option (list face_descriptor) :=
  omap (M:=list) (λ hd : halfedge_descriptor,
          if ecmap (edge hd) then None else face pmesh (opposite hd))
    <$> face_halfedges pmesh seed_face.

(** The loop pops at most one face more than it pushes, and pushes the
    neighbours of each face of the mesh at most once. *)
Definition traverse_fuel (pmesh : PolygonMesh) : nat :=
  2 + num_halfedges pmesh * length (faces pmesh).

Definition connected_component (seed_face : face_descriptor)
    (pmesh : PolygonMesh) (ecmap : edge_descriptor → bool)
    : option (list face_descriptor) :=
  snd <$> traverse (pushed_neighbors pmesh ecmap) (traverse_fuel pmesh)
            [seed_face] ∅ [].

(** ** [connected_components] *)

(** Modelled from the spec: the out-edges of a face in the dual graph
    ([Dual<PolygonMesh>], one node per face, an edge to the face across
    each halfedge around it), filtered by [No_border] as
    [boost::filtered_graph] does. Neither [Dual.h] nor Boost is part of the
    header. *)
Definition dual_out_edges (pmesh : PolygonMesh) (ecmap : edge_descriptor → bool)
    (f : face_descriptor) : option (list face_descriptor) :=
  omap (M:=list) (λ hd : halfedge_descriptor,
          if No_border pmesh ecmap (edge hd)
          then face pmesh (opposite hd) else None)
    <$> face_halfedges pmesh f.

Definition label_component (c : nat) (fcm : gmap nat nat)
    (comp : list face_descriptor) : gmap nat nat :=
  foldl (λ fcm g, <[g:=c]> fcm) fcm comp.

(** Modelled from the spec: [boost::connected_components]. It scans the
    nodes in enumeration order; a node that has no id yet starts a new
    component, and the depth-first walk from it gives the current count as
    id to every node it discovers. [adj] gives the out-edges of a node. *)
Fixpoint label_all (adj : face_descriptor → option (list face_descriptor))
    (fuel : nat) (fs : list face_descriptor) (fcm : gmap nat nat)
    (seen : gset nat) (count : nat) : option (gmap nat nat * nat) :=
  match fs with
  | [] => Some (fcm, count)
  | f :: fs =>
      if decide (f ∈ seen) then label_all adj fuel fs fcm seen count
      else
        '(seen', comp) ← traverse adj fuel [f] seen [];
        label_all adj fuel fs (label_component count fcm comp) seen' (S count)
  end.

Definition boost_connected_components
    (adj : face_descriptor → option (list face_descriptor)) (fuel : nat)
    (nodes : list face_descriptor) (fcm : gmap nat nat)
    : option (gmap nat nat * nat) :=
  label_all adj fuel nodes fcm ∅ 0.

(** Returns the face-component map after the call and the number of
    components. *)
Definition connected_components (pmesh : PolygonMesh) (fcm : gmap nat nat)
    (ecmap : edge_descriptor → bool) : option (gmap nat nat * nat) :=
  boost_connected_components (dual_out_edges pmesh ecmap)
    (traverse_fuel pmesh) (faces pmesh) fcm.

(** ** [keep_or_remove_connected_components] *)

(** A [std::size_t] read in a condition. Ids and sizes are [std::size_t]
    in the source; they count faces and components of the mesh and are
    modelled as [nat]. The two subtractions of the source are done where the
    subtrahend is at most the count of components. *)
Definition truthy (n : nat) : bool := negb (n =? 0).

(** [get(fcm, fh)] for [fh = face(h)]. The source only evaluates it where
    [h] is not a border halfedge. *)
Definition get_fcm_face (fcm : gmap nat nat) (fh : option face_descriptor) : bool :=
  from_option (λ f, truthy (get_fcm fcm f)) false fh.

(** First loop over the faces: every face is tagged [1] (kept) or [0]. *)
Definition classify_faces (cc_to_keep : gset nat) (keep : bool)
    (fs : list face_descriptor) (fcm : gmap nat nat) : gmap nat nat :=
  foldl (λ fcm f,
           if decide (get_fcm fcm f ∈ cc_to_keep)
           then <[f := if keep then 1 else 0]> fcm
           else <[f := if keep then 0 else 1]> fcm) fcm fs.

(** Second loop over the faces: the vertices of the kept faces are marked. *)
Definition mark_face (pmesh : PolygonMesh) (hs : list halfedge_descriptor)
    (keep_vertex : gmap nat bool) : gmap nat bool :=
  foldl (λ kv h, <[target pmesh h := true]> kv) keep_vertex hs.

Fixpoint mark_vertices (pmesh : PolygonMesh) (fcm : gmap nat nat)
    (fs : list face_descriptor) (keep_vertex : gmap nat bool)
    : option (gmap nat bool) :=
  match fs with
  | [] => Some keep_vertex
  | f :: fs =>
      if decide (get_fcm fcm f = 1) then
        hs ← face_halfedges pmesh f;
        mark_vertices pmesh fcm fs (mark_face pmesh hs keep_vertex)
      else mark_vertices pmesh fcm fs keep_vertex
  end.

(** The part of the edge loop that relinks around the source of [h] before
    the edge of [h] is erased. *)
Definition relink_source (pmesh : PolygonMesh) (v : vertex_descriptor)
    (h oh : halfedge_descriptor) : PolygonMesh :=
  let pmesh :=
    if decide (halfedge_v pmesh v = Some oh)
    then set_halfedge pmesh v (prev pmesh h) else pmesh in
  set_next pmesh (prev pmesh h) (next pmesh oh).

(** The body of the loop over the edges. *)
Definition process_edge (fcm : gmap nat nat) (keep_vertex : gmap nat bool)
    (pmesh : PolygonMesh) (e : edge_descriptor) : PolygonMesh :=
  let h := halfedge_e e in
  let oh := opposite h in
  let v := source pmesh h in
  let w := target pmesh h in
  if negb (get_kv keep_vertex v) && negb (get_kv keep_vertex w) then
    remove_edge pmesh e
  else if get_kv keep_vertex v && get_kv keep_vertex w then
    let fh := face pmesh h in
    let ofh := face pmesh oh in
    if is_border pmesh h && is_border pmesh oh then pmesh
    else if (is_border pmesh oh && get_fcm_face fcm fh)
            || (is_border pmesh h && get_fcm_face fcm ofh)
            || (negb (is_border pmesh oh) && negb (is_border pmesh h)
                && get_fcm_face fcm fh && get_fcm_face fcm ofh)
    then pmesh
    else if negb (is_border pmesh h) && get_fcm_face fcm fh
            && negb (is_border pmesh oh) && negb (get_fcm_face fcm ofh)
    then set_face pmesh oh None
    else if negb (is_border pmesh h) && negb (get_fcm_face fcm fh)
            && negb (is_border pmesh oh) && get_fcm_face fcm ofh
    then set_face pmesh h None
    else
      let pmesh :=
        if decide (halfedge_v pmesh v = Some oh)
        then set_halfedge pmesh v (prev pmesh h) else pmesh in
      let pmesh :=
        if decide (halfedge_v pmesh w = Some h)
        then set_halfedge pmesh w (prev pmesh oh) else pmesh in
      let pmesh := set_next pmesh (prev pmesh h) (next pmesh oh) in
      let pmesh := set_next pmesh (prev pmesh oh) (next pmesh h) in
      remove_edge pmesh e
  else if get_kv keep_vertex v then
    remove_edge (relink_source pmesh v h oh) e
  else
    remove_edge (relink_source pmesh w oh h) e.

(** The loops that erase the faces and the vertices that are not kept. *)
Definition erase_faces (fcm : gmap nat nat) (fs : list face_descriptor)
    (pmesh : PolygonMesh) : PolygonMesh :=
  foldl (λ m f, if decide (get_fcm fcm f = 1) then m else remove_face m f) pmesh fs.

Definition erase_vertices (keep_vertex : gmap nat bool)
    (vs : list vertex_descriptor) (pmesh : PolygonMesh) : PolygonMesh :=
  foldl (λ m v, if get_kv keep_vertex v then m else remove_vertex m v) pmesh vs.

(** Returns the mesh and the face-component map as they are after the
    call. The edge loop runs over the edges of the mesh as they are before
    the loop: each iteration advances the iterator before it erases. *)
Definition keep_or_remove_connected_components (pmesh : PolygonMesh)
    (components_to_keep : list nat) (fcm : gmap nat nat) (keep : bool)
    : option (PolygonMesh * gmap nat nat) :=
  let cc_to_keep : gset nat := list_to_set components_to_keep in
  let keep_vertex := foldl (λ kv v, <[v:=false]> kv) ∅ (vertices pmesh) in
  let fcm := classify_faces cc_to_keep keep (faces pmesh) fcm in
  keep_vertex ← mark_vertices pmesh fcm (faces pmesh) keep_vertex;
  let pmesh := foldl (process_edge fcm keep_vertex) pmesh (edges pmesh) in
  let pmesh := erase_faces fcm (faces pmesh) pmesh in
  let pmesh := erase_vertices keep_vertex (vertices pmesh) pmesh in
  Some (pmesh, fcm).

Definition keep_connected_components (pmesh : PolygonMesh)
    (components_to_keep : list nat) (fcm : gmap nat nat)
    : option (PolygonMesh * gmap nat nat) :=
  keep_or_remove_connected_components pmesh components_to_keep fcm true.

Definition remove_connected_components (pmesh : PolygonMesh)
    (components_to_remove : list nat) (fcm : gmap nat nat)
    : option (PolygonMesh * gmap nat nat) :=
  if decide (components_to_remove = []) then Some (pmesh, fcm)
  else keep_or_remove_connected_components pmesh components_to_remove fcm false.

(** ** [keep_largest_connected_components], [keep_large_connected_components] *)

(** [component_size[i] = std::make_pair(i, 0)] for [i < num]. *)
Definition init_component_size (num : nat) : list (nat * nat) :=
  (λ i, (i, 0)) <$> seq 0 num.

(** [++component_size[face_cc[f]].second] for every face. An index outside
    the vector has no defined effect in the source and none here. *)
Definition count_faces (face_cc : gmap nat nat) (fs : list face_descriptor)
    (component_size : list (nat * nat)) : list (nat * nat) :=
  foldl (λ cs f, alter (λ p, (p.1, S p.2)) (get_fcm face_cc f) cs)
        component_size fs.

(** What [std::sort(first, last, comp)] guarantees: the elements are
    rearranged, and no element is ordered by [comp] before one that precedes
    it. The order among elements that [comp] does not separate is left
    open. *)
Definition std_sort_spec {A} (comp : A → A → bool) (sort : list A → list A) : Prop :=
  ∀ l, sort l ≡ₚ l ∧ StronglySorted (λ a b, comp b a = false) (sort l).

Section Ranker.
Context (sort : list (nat * nat) → list (nat * nat)).

Definition keep_largest_connected_components (pmesh : PolygonMesh)
    (nb_components_to_keep : nat) (ecmap : edge_descriptor → bool)
    : option (PolygonMesh * nat) :=
  '(face_cc, num) ← connected_components pmesh ∅ ecmap;
  if decide (nb_components_to_keep = 0) then Some (clear pmesh, num)
  else if decide (num = 1 ∨ num < nb_components_to_keep) then Some (pmesh, 0)
  else
    let component_size :=
      count_faces face_cc (faces pmesh) (init_component_size num) in
    let component_size := sort component_size in
    let cc_to_keep := (take nb_components_to_keep component_size).*1 in
    '(pmesh', _) ← keep_connected_components pmesh cc_to_keep face_cc;
    Some (pmesh', num - nb_components_to_keep).
End Ranker.

Definition keep_large_connected_components (pmesh : PolygonMesh)
    (threshold_components_to_keep : nat) (ecmap : edge_descriptor → bool)
    : option (PolygonMesh * nat) :=
  '(face_cc, num) ← connected_components pmesh ∅ ecmap;
  let component_size :=
    count_faces face_cc (faces pmesh) (init_component_size num) in
  let cc_to_keep :=
    (filter (λ p, threshold_components_to_keep ≤ p.2) component_size).*1 in
  '(pmesh', _) ← keep_connected_components pmesh cc_to_keep face_cc;
  Some (pmesh', num - length cc_to_keep).

(** ** The overloads that take representative faces *)

(** [remove_connected_components(pmesh, components_to_remove, np)] for a
    range of faces: the faces are translated to the ids of their
    components. *)
Definition remove_connected_components_face_range (pmesh : PolygonMesh)
    (components_to_remove : list face_descriptor)
    (ecmap : edge_descriptor → bool) : option PolygonMesh :=
  if decide (components_to_remove = []) then Some pmesh
  else
    '(face_cc, _) ← connected_components pmesh ∅ ecmap;
    let cc_to_remove := (λ f, get_fcm face_cc f) <$> components_to_remove in
    fst <$> remove_connected_components pmesh cc_to_remove face_cc.

(** [keep_connected_components(pmesh, components_to_keep, np)] for a range
    of faces. *)
Definition keep_connected_components_face_range (pmesh : PolygonMesh)
    (components_to_keep : list face_descriptor)
    (ecmap : edge_descriptor → bool) : option PolygonMesh :=
  '(face_cc, _) ← connected_components pmesh ∅ ecmap;
  let cc_to_keep := (λ f, get_fcm face_cc f) <$> components_to_keep in
  fst <$> keep_connected_components pmesh cc_to_keep face_cc.

(** ** [split_connected_components_impl]: the index maps *)

(** The loop [id = 0; for (x : range) put(map, x, id++)]. *)
Definition init_index_map `{Countable K} (range : list K) (map : gmap K nat)
    : gmap K nat :=
  (foldl (λ st x, (<[x := st.2]> st.1, S st.2)) (map, 0) range).1.

(** The three conditional initialisations at the head of
    [split_connected_components_impl]; each map comes with the flag
    [need_init]. *)
Definition init_index_maps (tm : PolygonMesh)
    (fim : gmap nat nat * bool) (him : gmap (nat * bool) nat * bool)
    (vim : gmap nat nat * bool)
    : gmap nat nat * gmap (nat * bool) nat * gmap nat nat :=
  (if fim.2 then init_index_map (faces tm) fim.1 else fim.1,
   if him.2 then init_index_map (halfedges tm) him.1 else him.1,
   if vim.2 then init_index_map (vertices tm) vim.1 else vim.1).

(** ** Well-formed meshes *)

(** The invariants of the data model, for one halfedge: [next] and [prev]
    are inverse to each other and stay inside the mesh and inside the face,
    consecutive halfedges meet in a vertex, an edge joins two different
    vertices, and the vertex and the face referred to exist. *)
Definition wf_halfedge (m : PolygonMesh) (h : halfedge_descriptor) : Prop :=
  alive m (next m h) ∧ alive m (prev m h)
  ∧ prev m (next m h) = h ∧ next m (prev m h) = h
  ∧ source m (next m h) = target m h
  ∧ target m h ≠ source m h
  ∧ face m (next m h) = face m h ∧ face m (prev m h) = face m h
  ∧ is_Some (vconn m !! target m h)
  ∧ from_option (λ f, is_Some (fconn m !! f)) True (face m h).

(** The walk around the reference halfedge of a face closes, and it meets
    exactly the halfedges whose incident face is that face. *)
Definition wf_face (m : PolygonMesh) (f : face_descriptor) : Prop :=
  from_option
    (λ hs, Forall (λ h, alive m h ∧ face m h = Some f) hs
           ∧ Forall (λ h, face m h = Some f → h ∈ hs) (halfedges m))
    False (face_halfedges m f).

(** The reference halfedge of a vertex, if it has one, points to it. *)
Definition wf_vertex (m : PolygonMesh) (v : vertex_descriptor) : Prop :=
  from_option (λ h, alive m h ∧ target m h = v) True (halfedge_v m v).

Definition wf_mesh (m : PolygonMesh) : Prop :=
  Forall (wf_halfedge m) (halfedges m)
  ∧ Forall (wf_face m) (faces m)
  ∧ Forall (wf_vertex m) (vertices m).

Global Instance wf_halfedge_dec m h : Decision (wf_halfedge m h).
Proof. unfold wf_halfedge, alive. destruct (face m h); simpl; apply _. Defined.

Global Instance wf_face_dec m f : Decision (wf_face m f).
Proof. unfold wf_face, alive. destruct (face_halfedges m f); simpl; apply _. Defined.

Global Instance wf_vertex_dec m v : Decision (wf_vertex m v).
Proof. unfold wf_vertex, alive. destruct (halfedge_v m v); simpl; apply _. Defined.

Global Instance wf_mesh_dec m : Decision (wf_mesh m).
Proof. unfold wf_mesh. apply _. Defined.

(** ** Sample meshes *)

Module Samples.

Definition he (n p : halfedge_descriptor) (t : vertex_descriptor)
    (f : option face_descriptor) : Halfedge := mkHalfedge n p t f.

(** The edges of a lone triangle [f] on the vertices [b, b+1, b+2] and the
    edges [b, b+1, b+2]; the inner halfedges are the [false] sides. *)
Definition triangle_edges (b f : nat) : list (nat * (Halfedge * Halfedge)) :=
  [ (b,     (he (b + 1, false) (b + 2, false) (b + 1) (Some f),
             he (b + 2, true)  (b + 1, true)  b       None));
    (b + 1, (he (b + 2, false) (b, false)     (b + 2) (Some f),
             he (b, true)      (b + 2, true)  (b + 1) None));
    (b + 2, (he (b, false)     (b + 1, false) b       (Some f),
             he (b + 1, true)  (b, true)      (b + 2) None)) ].

Definition triangle_vertices (b : nat) : list (nat * option halfedge_descriptor) :=
  [ (b, Some (b + 2, false)); (b + 1, Some (b, false));
    (b + 2, Some (b + 1, false)) ].

(** Two triangles without a common vertex, and one isolated vertex. *)
Definition two_triangles : PolygonMesh :=
  mkMesh
    (list_to_map (triangle_vertices 0 ++ triangle_vertices 3 ++ [(6, None)]))
    (list_to_map (triangle_edges 0 0 ++ triangle_edges 3 1))
    (list_to_map [(0, (0, false)); (1, (3, false))]).

(** A quadrilateral [0 1 2 3] cut in two triangles [0 1 2] and [0 2 3]
    along the edge [2]. *)
Definition quad : PolygonMesh :=
  mkMesh
    (list_to_map [ (0, Some (2, false)); (1, Some (0, false));
                   (2, Some (1, false)); (3, Some (3, false)) ])
    (list_to_map
       [ (0, (he (1, false) (2, false) 1 (Some 0),
              he (4, true)  (1, true)  0 None));
         (1, (he (2, false) (0, false) 2 (Some 0),
              he (0, true)  (3, true)  1 None));
         (2, (he (0, false) (1, false) 0 (Some 0),
              he (3, false) (4, false) 2 (Some 1)));
         (3, (he (4, false) (2, true)  3 (Some 1),
              he (1, true)  (4, true)  2 None));
         (4, (he (2, true)  (3, false) 0 (Some 1),
              he (3, true)  (0, true)  3 None)) ])
    (list_to_map [(0, (0, false)); (1, (2, true))]).

(** The quadrilateral with one more vertex that no edge uses. *)
Definition quad_with_isolated_vertex : PolygonMesh :=
  mkMesh (<[4 := None]> (vconn quad)) (econn quad) (fconn quad).

(** The edge-constraint map that marks the diagonal of the quadrilateral. *)
Definition diagonal_constrained (e : edge_descriptor) : bool :=
  bool_decide (e = 2).

(** Two triangles [0 1 2] and [0 3 4] that meet in the vertex [0] only.
    The border halfedges into [0] lead back along the same triangle, so
    the halfedges into [0] form two rings. *)
Definition bowtie : PolygonMesh :=
  mkMesh
    (list_to_map [ (0, Some (5, false)); (1, Some (0, false));
                   (2, Some (1, false)); (3, Some (3, false));
                   (4, Some (4, false)) ])
    (list_to_map
       [ (0, (he (1, false) (2, false) 1 (Some 0),
              he (2, true)  (1, true)  0 None));
         (1, (he (2, false) (0, false) 2 (Some 0),
              he (0, true)  (2, true)  1 None));
         (2, (he (0, false) (1, false) 0 (Some 0),
              he (1, true)  (0, true)  2 None));
         (3, (he (4, false) (5, false) 3 (Some 1),
              he (5, true)  (4, true)  0 None));
         (4, (he (5, false) (3, false) 4 (Some 1),
              he (3, true)  (5, true)  3 None));
         (5, (he (3, false) (4, false) 0 (Some 1),
              he (4, true)  (3, true)  4 None)) ])
    (list_to_map [(0, (0, false)); (1, (3, false))]).

End Samples.

(** ** Relations and invariants used in the statements *)

(** The neighbours that the halfedges around a face contribute, for a
    choice [sel] of what a halfedge contributes: both [pushed_neighbors] and
    [dual_out_edges] have this shape. *)
Definition face_succs (m : PolygonMesh) (sel : nat * bool → option nat)
    (f : nat) : option (list nat) :=
  omap (M:=list) sel <$> face_halfedges m f.

(** [g] is pushed while [f] is processed. *)
Definition pushes (succs : nat → option (list nat)) (f g : nat) : Prop :=
  ∃ ns, succs f = Some ns ∧ g ∈ ns.

(** [g] lies across an edge of [f] that is neither a border edge nor
    constrained. *)
Definition adjacent (m : PolygonMesh) (ecm : nat → bool) (f g : nat) : Prop :=
  ∃ hs hd, face_halfedges m f = Some hs ∧ hd ∈ hs
           ∧ is_border_edge m (edge hd) = false ∧ ecm (edge hd) = false
           ∧ face m (opposite hd) = Some g.

(** Two faces are connected when a chain of adjacent faces joins them. *)
Definition connected (m : PolygonMesh) (ecm : nat → bool) : relation nat :=
  rtc (adjacent m ecm).

(** What the scan of [label_all] maintains: the faces seen so far are a
    union of whole components of faces of the mesh, they carry the ids below
    [count], each of these ids is used, and two of them carry the same id
    exactly when they are connected. *)
Record labelling_inv (m : PolygonMesh) (ecm : nat → bool)
    (fcm : gmap nat nat) (seen : gset nat) (count : nat) : Prop := {
  li_closed : ∀ f g, f ∈ seen → adjacent m ecm f g → g ∈ seen;
  li_faces : ∀ f, f ∈ seen → f ∈ faces m;
  li_range : ∀ f, f ∈ seen → ∃ i, fcm !! f = Some i ∧ i < count;
  li_used : ∀ i, i < count → ∃ f, f ∈ seen ∧ fcm !! f = Some i;
  li_same : ∀ f g, f ∈ seen → g ∈ seen →
            fcm !! f = fcm !! g ↔ connected m ecm f g
}.

(** What the loop over the edges maintains, for the mesh [m0] before the
    loop and the mesh [m] between two iterations: around a kept vertex the
    [next] and [prev] links of the remaining halfedges are consistent and
    lead to remaining halfedges; targets do not change; a face reference is
    only ever replaced by [null_face()]; and the halfedges of the kept faces
    remain, with their face. *)
Record edge_loop_inv (fcm : gmap nat nat) (kv : gmap nat bool)
    (m0 m : PolygonMesh) : Prop := {
  eli_next : ∀ h, alive m h → get_kv kv (target m h) = true →
    alive m (next m h) ∧ prev m (next m h) = h
    ∧ source m (next m h) = target m h;
  eli_prev : ∀ h, alive m h → get_kv kv (source m h) = true →
    alive m (prev m h) ∧ next m (prev m h) = h
    ∧ target m (prev m h) = source m h;
  eli_no_loop : ∀ h, alive m h → target m h ≠ source m h;
  eli_alive : ∀ h, alive m h → alive m0 h;
  eli_target : ∀ h, alive m h → target m h = target m0 h;
  eli_face : ∀ h f, alive m h → face m h = Some f → face m0 h = Some f;
  eli_kept : ∀ h f, alive m0 h → face m0 h = Some f → get_fcm fcm f = 1 →
    alive m h ∧ face m h = Some f
}.

(** The two ends of a halfedge of a kept face are marked. *)
Definition kept_faces_marked (fcm : gmap nat nat) (kv : gmap nat bool)
    (m0 : PolygonMesh) : Prop :=
  ∀ h f, alive m0 h → face m0 h = Some f → get_fcm fcm f = 1 →
    get_kv kv (target m0 h) = true ∧ get_kv kv (source m0 h) = true.

(** What remains after the excision refers to nothing that was erased:
    every vertex is the target of a halfedge of a face of the mesh; the
    opposite, the successor, the predecessor, the target and the face (if
    any) of a halfedge are in the mesh; and the reference halfedge of a face
    is in the mesh and bounds that face. *)
Definition no_dangling (m : PolygonMesh) : Prop :=
  (∀ v, v ∈ vertices m →
     ∃ h f, alive m h ∧ target m h = v ∧ face m h = Some f ∧ f ∈ faces m)
  ∧ (∀ h, alive m h →
       alive m (opposite h) ∧ alive m (next m h) ∧ alive m (prev m h)
       ∧ target m h ∈ vertices m
       ∧ ∀ f, face m h = Some f → f ∈ faces m)
  ∧ (∀ f h, halfedge_f m f = Some h → alive m h ∧ face m h = Some f).

(** Every vertex is on a face: it is the target of a halfedge that has a
    face. This asks more than that no vertex is isolated: the ends of an
    edge that has no face on either side are not on a face. *)
Definition every_vertex_on_face (m : PolygonMesh) : Prop :=
  ∀ v, v ∈ vertices m → ∃ h f, alive m h ∧ target m h = v ∧ face m h = Some f.

(** The number of faces that carry the id [i]. *)
Definition component_size (face_cc : gmap nat nat) (m : PolygonMesh) (i : nat) : nat :=
  length (filter (λ f, get_fcm face_cc f = i) (faces m)).

(** [n] is the number of connected components: there are [n] faces, no two
    of them connected, such that every face is connected to one of them. *)
Definition component_count (m : PolygonMesh) (ecm : nat → bool) (n : nat) : Prop :=
  ∃ reps : list nat,
    length reps = n
    ∧ (∀ r, r ∈ reps → r ∈ faces m)
    ∧ (∀ f, f ∈ faces m → ∃ r, r ∈ reps ∧ connected m ecm r f)
    ∧ (∀ i j r r', reps !! i = Some r → reps !! j = Some r' →
         connected m ecm r r' → i = j).

(** A sort that meets [std_sort_spec] for [MoreSecond]: merge sort with the
    order "[b] is not sorted before [a]". *)
Definition not_after (a b : nat * nat) : Prop := MoreSecond b a = false.

Global Instance not_after_dec : RelDecision not_after.
Proof. intros a b. unfold not_after. apply _. Defined.

Definition sort_by_size : list (nat * nat) → list (nat * nat) :=
  merge_sort not_after.

(** ** What the excision leaves *)

(** The edge of [h] passes the loop over the edges: both ends are marked,
    and either no side has a face, or a side has a face with a true tag. *)
Definition edge_stays (fcm : gmap nat nat) (kv : gmap nat bool)
    (m : PolygonMesh) (h : halfedge_descriptor) : bool :=
  get_kv kv (source m h) && get_kv kv (target m h)
  && ((is_border m h && is_border m (opposite h))
      || get_fcm_face fcm (face m h)
      || get_fcm_face fcm (face m (opposite h))).

(** [v] is on a kept face: it is the target of a halfedge whose face is
    tagged [1]. *)
Definition on_kept_face (m : PolygonMesh) (fcm : gmap nat nat)
    (v : vertex_descriptor) : Prop :=
  ∃ h f, alive m h ∧ target m h = v ∧ face m h = Some f ∧ get_fcm fcm f = 1.

(** The edge of [h] is kept: a side of it has a face tagged [1], or no
    side has a face and both ends are on kept faces. *)
Definition edge_kept (m : PolygonMesh) (fcm : gmap nat nat)
    (h : halfedge_descriptor) : Prop :=
  (∃ f, (face m h = Some f ∨ face m (opposite h) = Some f) ∧ get_fcm fcm f = 1)
  ∨ (face m h = None ∧ face m (opposite h) = None
     ∧ on_kept_face m fcm (source m h) ∧ on_kept_face m fcm (target m h)).

(** What the excision leaves of the mesh [m], entity by entity; [fcm] holds
    the tags, [m'] is the mesh after the call. *)
Record excised (m : PolygonMesh) (fcm : gmap nat nat) (m' : PolygonMesh)
    : Prop := {
  ex_fconn : ∀ f, fconn m' !! f
                  = if decide (get_fcm fcm f = 1) then fconn m !! f else None;
  ex_vertices : ∀ v, v ∈ vertices m' ↔ on_kept_face m fcm v;
  ex_alive : ∀ h, alive m' h ↔ alive m h ∧ edge_kept m fcm h;
  ex_halfedge : ∀ h, alive m' h →
    target m' h = target m h
    ∧ (∀ f, face m' h = Some f ↔ face m h = Some f ∧ get_fcm fcm f = 1)
    ∧ alive m' (next m' h) ∧ alive m' (prev m' h)
    ∧ prev m' (next m' h) = h ∧ next m' (prev m' h) = h
    ∧ source m' (next m' h) = target m' h
    ∧ target m' (prev m' h) = source m' h
    ∧ target m' h ≠ source m' h;
  ex_links : ∀ h f, alive m h → face m h = Some f → get_fcm fcm f = 1 →
    next m' h = next m h ∧ prev m' h = prev m h
}.

(** The faces selected by a range of representatives: those connected to
    one of them. *)
Definition selected_by (m : PolygonMesh) (ecm : edge_descriptor → bool)
    (range : list face_descriptor) (f : face_descriptor) : Prop :=
  ∃ r, r ∈ range ∧ connected m ecm r f.

(** ** Manifold vertices *)

(** The rotation around the target of a halfedge: [opposite(next(h))] is
    the next halfedge with that target. *)
Definition next_around_target (m : PolygonMesh) (h : halfedge_descriptor)
    : halfedge_descriptor := opposite (next m h).

Definition around (m : PolygonMesh) : relation halfedge_descriptor :=
  λ h g, g = next_around_target m h.

(** Every vertex is manifold: the halfedges into it form one ring, so the
    rotation around the vertex leads from each of them to each other. *)
Definition manifold_vertices (m : PolygonMesh) : Prop :=
  ∀ h g, alive m h → alive m g → target m h = target m g →
    rtc (around m) h g.

(** The halfedges that the rotation meets in [fuel] steps from [h]. *)
Fixpoint ring_from (m : PolygonMesh) (fuel : nat) (h : halfedge_descriptor)
    : list halfedge_descriptor :=
  match fuel with
  | 0 => []
  | S fuel => h :: ring_from m fuel (next_around_target m h)
  end.

(** A check of [manifold_vertices] that can be run. *)
Definition rings_close (m : PolygonMesh) : Prop :=
  Forall (λ h, Forall (λ g, target m h = target m g →
                            g ∈ ring_from m (num_halfedges m) h)
                 (halfedges m)) (halfedges m).

(** The reference halfedge of every vertex that has one is in the mesh and
    points to the vertex. *)
Definition vertex_refs_valid (m : PolygonMesh) : Prop :=
  ∀ v h, halfedge_v m v = Some h → alive m h ∧ target m h = v.

(** What the loop over the edges maintains at the kept vertices: the
    reference halfedge is valid, and the halfedges into the vertex form one
    ring. *)
Record vertex_inv (kv : gmap nat bool) (m : PolygonMesh) : Prop := {
  vi_ref : ∀ v h, get_kv kv v = true → halfedge_v m v = Some h →
    alive m h ∧ target m h = v;
  vi_ring : ∀ h g, alive m h → alive m g → target m h = target m g →
    get_kv kv (target m h) = true → rtc (around m) h g
}.

(** * Facts and theorems *)

Import Samples.

(** ** The traversal *)

Section TraversalFacts.
Context (succs : nat → option (list nat)).

Lemma traverse_post fuel : ∀ stack seen out seen' out',
  traverse succs fuel stack seen out = Some (seen', out') →
  seen ⊆ seen'
  ∧ (∀ s, s ∈ stack → s ∈ seen')
  ∧ (∃ new, out' = out ++ new ∧ NoDup new
            ∧ ∀ g, g ∈ new ↔ g ∈ seen' ∧ g ∉ seen)
  ∧ (∀ g, g ∈ seen' → g ∉ seen → ∃ s, s ∈ stack ∧ rtc (pushes succs) s g)
  ∧ (∀ f g, f ∈ seen' → f ∉ seen → pushes succs f g → g ∈ seen').
Proof.
  induction fuel as [|fuel IH]; intros stack seen out seen' out' Hrun;
    [done|].
  destruct stack as [|f stack]; simpl in Hrun.
  { simplify_eq. split_and!; [done|by intros ? ?%elem_of_nil| |done|done].
    exists []. rewrite app_nil_r. split_and!; [done|constructor|].
    intros g. rewrite elem_of_nil. tauto. }
  destruct (decide (f ∈ seen)) as [Hf|Hf].
  - destruct (IH _ _ _ _ _ Hrun) as (Hsub & Hst & Hnew & Hreach & Hclosed).
    split_and!; [done| |done| |done].
    + intros s [->|?]%elem_of_cons; [set_solver|auto].
    + intros g Hg Hg'. destruct (Hreach g Hg Hg') as (s & ? & ?).
      exists s. split; [by right|done].
  - destruct (succs f) as [ns|] eqn:Hns; [|done]. simpl in Hrun.
    destruct (IH _ _ _ _ _ Hrun) as (Hsub & Hst & Hnew & Hreach & Hclosed).
    assert (f ∈ seen') as Hf' by set_solver.
    split_and!.
    + set_solver.
    + intros s [->|?]%elem_of_cons; [done|]. apply Hst. set_solver.
    + destruct Hnew as (new & -> & Hnd & Hnew).
      exists (f :: new). split_and!.
      * by rewrite <-app_assoc.
      * constructor; [|done]. rewrite Hnew. set_solver.
      * intros g. rewrite elem_of_cons, Hnew. 
        destruct (decide (g = f)) as [->|]; set_solver.
    + intros g Hg Hg'. destruct (decide (g = f)) as [->|Hne].
      { exists f. split; [by left|done]. }
      destruct (Hreach g Hg) as (s & Hs & Hsg); [set_solver|].
      apply elem_of_app in Hs as [Hs|Hs].
      * exists f. split; [by left|]. eapply rtc_l; [|done].
        exists ns. split; [done|]. by apply elem_of_reverse.
      * exists s. split; [by right|done].
    + intros f' g Hf'' Hnf' Hpush. destruct (decide (f' = f)) as [->|Hne].
      * destruct Hpush as (ns' & ? & Hg). simplify_eq. apply Hst.
        apply elem_of_app. left. by apply elem_of_reverse.
      * eapply Hclosed; [done| |done]. set_solver.
Qed.

(** Termination: the faces on the stack and their successors stay in a
    finite set [U], and no face of [U] pushes more than [H] faces. *)
Context (U : gset nat) (H : nat).
Context (succs_U : ∀ f, f ∈ U →
           ∃ ns, succs f = Some ns ∧ length ns ≤ H ∧ ∀ n, n ∈ ns → n ∈ U).

Lemma traverse_terminates fuel : ∀ stack seen out,
  (∀ s, s ∈ stack → s ∈ U) →
  length stack + H * size (U ∖ seen) < fuel →
  is_Some (traverse succs fuel stack seen out).
Proof using succs_U.
  induction fuel as [|fuel IH]; intros stack seen out HU Hfuel; [lia|].
  destruct stack as [|f stack]; simpl; [done|].
  destruct (decide (f ∈ seen)) as [Hf|Hf].
  - apply IH; [intros; apply HU; by right|simpl in Hfuel; lia]. 
  - destruct (succs_U f) as (ns & -> & Hlen & Hns); [apply HU; by left|].
    simpl. apply IH.
    + intros s [Hs|Hs]%elem_of_app; [apply Hns; by apply elem_of_reverse|].
      apply HU. by right.
    + assert (size (U ∖ seen) = S (size (U ∖ ({[f]} ∪ seen)))) as Hsz.
      { assert (U ∖ seen = {[f]} ∪ U ∖ ({[f]} ∪ seen)) as ->.
        { apply set_eq. intros x. specialize (HU f (list_elem_of_here _ _)). 
          destruct (decide (x = f)); set_solver. }
        rewrite size_union, size_singleton; [done|set_solver]. }
      rewrite length_app, length_reverse. simpl in Hfuel. nia.
Qed.
End TraversalFacts.

(** ** Facts about the mesh interface *)

Lemma elem_of_keys {A} (m : gmap nat A) (k : nat) :
  k ∈ (map_to_list m).*1 ↔ is_Some (m !! k).
Proof.
  rewrite list_elem_of_fmap. split.
  - intros ([k' x] & -> & Hx). apply elem_of_map_to_list in Hx. by exists x.
  - intros [x Hx]. exists (k, x). split; [done|]. by apply elem_of_map_to_list.
Qed.

Lemma elem_of_faces m f : f ∈ faces m ↔ is_Some (fconn m !! f).
Proof. apply elem_of_keys. Qed.

Lemma elem_of_edges m e : e ∈ edges m ↔ is_Some (econn m !! e).
Proof. apply elem_of_keys. Qed.

Lemma elem_of_vertices m v : v ∈ vertices m ↔ is_Some (vconn m !! v).
Proof. apply elem_of_keys. Qed.

Lemma elem_of_halfedges m h : h ∈ halfedges m ↔ alive m h.
Proof.
  unfold halfedges, alive. rewrite list_elem_of_bind. split.
  - intros (e & Hh & He). apply elem_of_edges in He.
    by apply elem_of_cons in Hh as [->| ->%list_elem_of_singleton].
  - intros He. exists h.1. split; [|by apply elem_of_edges].
    destruct h as [e []]; simpl; set_solver.
Qed.

Lemma alive_opposite m h : alive m (opposite h) ↔ alive m h.
Proof. done. Qed.

Lemma opposite_involutive h : opposite (opposite h) = h.
Proof. destruct h as [e []]; done. Qed.

Lemma opposite_ne h : opposite h ≠ h.
Proof. destruct h as [e []]; unfold opposite; simpl; congruence. Qed.

Lemma edge_opposite h : edge (opposite h) = edge h.
Proof. done. Qed.

Lemma is_border_edge_sides m h :
  is_border_edge m (edge h) = is_border m h || is_border m (opposite h).
Proof.
  destruct h as [e []]; unfold is_border_edge, halfedge_e, opposite, edge;
    simpl; [apply orb_comm|done].
Qed.

Lemma is_border_false m h : is_border m h = false ↔ is_Some (face m h).
Proof.
  unfold is_border. rewrite bool_decide_eq_false, <-not_eq_None_Some. done.
Qed.

Lemma walk_face_length m fuel : ∀ start cur hs,
  walk_face m fuel start cur = Some hs → length hs ≤ fuel.
Proof.
  induction fuel as [|fuel IH]; intros start cur hs Hw; [done|].
  simpl in Hw. case_decide; simplify_eq/=; [lia|].
  destruct (walk_face m fuel start (next m cur)) eqn:Hw'; simplify_eq/=.
  apply IH in Hw'. lia.
Qed.

Lemma face_halfedges_length m f hs :
  face_halfedges m f = Some hs → length hs ≤ num_halfedges m.
Proof.
  unfold face_halfedges, halfedges_around_face.
  destruct (halfedge_f m f); simpl; [apply walk_face_length|done].
Qed.

Lemma face_halfedges_Some m f hs :
  face_halfedges m f = Some hs → f ∈ faces m.
Proof.
  unfold face_halfedges, halfedge_f. rewrite elem_of_faces.
  destruct (fconn m !! f); [by eexists|done].
Qed.

(** ** Consequences of well-formedness *)

Lemma wf_mesh_halfedge m h : wf_mesh m → alive m h → wf_halfedge m h.
Proof.
  intros (Hh & _ & _) Ha. rewrite Forall_forall in Hh.
  by apply Hh, elem_of_halfedges.
Qed.

Lemma wf_mesh_face m f :
  wf_mesh m → f ∈ faces m →
  ∃ hs, face_halfedges m f = Some hs
        ∧ ∀ h, h ∈ hs ↔ alive m h ∧ face m h = Some f.
Proof.
  intros (_ & Hf & _) Hin. rewrite Forall_forall in Hf.
  specialize (Hf f Hin). unfold wf_face in Hf.
  destruct (face_halfedges m f) as [hs|]; [|done]. simpl in Hf.
  destruct Hf as [Hin1 Hin2]. rewrite Forall_forall in Hin1, Hin2.
  exists hs. split; [done|]. intros h. split; [by apply Hin1|].
  intros [Ha Hface]. by apply Hin2; [apply elem_of_halfedges|].
Qed.

Lemma wf_mesh_face_exists m h f :
  wf_mesh m → alive m h → face m h = Some f → f ∈ faces m.
Proof.
  intros Hwf Ha Hf. apply (wf_mesh_halfedge _ _ Hwf) in Ha.
  destruct Ha as (_ & _ & _ & _ & _ & _ & _ & _ & _ & Hex).
  rewrite Hf in Hex. by apply elem_of_faces.
Qed.

Lemma walk_face_start m fuel : ∀ start cur hs,
  walk_face m fuel start cur = Some hs → cur ∈ hs.
Proof.
  destruct fuel as [|fuel]; intros start cur hs Hw; [done|].
  simpl in Hw. case_decide; simplify_eq/=; [by left|].
  destruct (walk_face m fuel start (next m cur)); simplify_eq/=. by left.
Qed.

Lemma wf_mesh_face_halfedge m f h0 :
  wf_mesh m → fconn m !! f = Some h0 → alive m h0 ∧ face m h0 = Some f.
Proof.
  intros Hwf Hf.
  destruct (wf_mesh_face m f Hwf) as (hs & Hhs & Hchar);
    [apply elem_of_faces; by eexists|].
  apply Hchar. unfold face_halfedges, halfedge_f in Hhs. rewrite Hf in Hhs.
  simpl in Hhs. by eapply walk_face_start.
Qed.

(** ** Adjacency of faces *)

Lemma pushes_dual_adjacent m ecm f g :
  pushes (dual_out_edges m ecm) f g ↔ adjacent m ecm f g.
Proof.
  unfold pushes, dual_out_edges, adjacent, No_border. split.
  - intros (ns & Hns & Hg).
    destruct (face_halfedges m f) as [hs|]; simplify_eq/=.
    apply list_elem_of_omap in Hg as (hd & Hhd & Hg). exists hs, hd.
    destruct (is_border_edge m (edge hd)); simpl in Hg; [done|].
    destruct (ecm (edge hd)); simpl in Hg; done.
  - intros (hs & hd & -> & Hhd & Hb & Hc & Hg). eexists. split; [done|].
    apply list_elem_of_omap. exists hd. by rewrite Hb, Hc.
Qed.

Lemma pushes_neighbors_adjacent m ecm f g :
  wf_mesh m → pushes (pushed_neighbors m ecm) f g ↔ adjacent m ecm f g.
Proof.
  intros Hwf. unfold pushes, pushed_neighbors, adjacent. split.
  - intros (ns & Hns & Hg).
    destruct (face_halfedges m f) as [hs|] eqn:Hhs; simplify_eq/=.
    apply list_elem_of_omap in Hg as (hd & Hhd & Hg). exists hs, hd.
    destruct (ecm (edge hd)) eqn:Hc; [done|]. split_and!; try done.
    destruct (wf_mesh_face m f Hwf) as (hs' & Hhs' & Hchar);
      [by eapply face_halfedges_Some|]. simplify_eq.
    apply Hchar in Hhd as [_ Hf]. rewrite is_border_edge_sides.
    apply orb_false_iff. rewrite !is_border_false, Hf, Hg. eauto.
  - intros (hs & hd & -> & Hhd & Hb & Hc & Hg). eexists. split; [done|].
    apply list_elem_of_omap. exists hd. by rewrite Hc.
Qed.

Lemma adjacent_sym m ecm f g :
  wf_mesh m → adjacent m ecm f g → adjacent m ecm g f.
Proof.
  intros Hwf (hs & hd & Hhs & Hhd & Hb & Hc & Hg).
  destruct (wf_mesh_face m f Hwf) as (hs' & Hhs' & Hchar);
    [by eapply face_halfedges_Some|]. simplify_eq.
  apply Hchar in Hhd as [Ha Hf].
  assert (g ∈ faces m) as Hgin
    by (apply (wf_mesh_face_exists m (opposite hd)); [done|exact Ha|done]).
  destruct (wf_mesh_face m g Hwf Hgin) as (hs' & Hhs' & Hchar').
  exists hs', (opposite hd). split_and!; try done.
  - by apply Hchar'.
  - by rewrite opposite_involutive.
Qed.

Lemma adjacent_faces m ecm f g :
  wf_mesh m → adjacent m ecm f g → f ∈ faces m ∧ g ∈ faces m.
Proof.
  intros Hwf (hs & hd & Hhs & Hhd & Hb & Hc & Hg).
  destruct (wf_mesh_face m f Hwf) as (hs' & Hhs' & Hchar);
    [by eapply face_halfedges_Some|]. simplify_eq.
  apply Hchar in Hhd as [Ha Hf]. split; [by eapply face_halfedges_Some|].
  apply (wf_mesh_face_exists m (opposite hd)); [done|exact Ha|done].
Qed.

Lemma connected_sym m ecm f g :
  wf_mesh m → connected m ecm f g → connected m ecm g f.
Proof.
  intros Hwf. induction 1 as [|f f' g Hadj _ IH]; [done|].
  eapply rtc_r; [done|]. by apply adjacent_sym.
Qed.

Lemma connected_faces m ecm f g :
  wf_mesh m → f ∈ faces m → connected m ecm f g → g ∈ faces m.
Proof.
  intros Hwf Hf. induction 1 as [|f f' g Hadj _ IH]; [done|].
  apply IH. by eapply adjacent_faces.
Qed.

(** ** The traversal on a well-formed mesh *)

Section MeshTraversal.
Context (m : PolygonMesh) (Hwf : wf_mesh m).
Context (sel : nat * bool → option nat).
Context (sel_face : ∀ hd n, sel hd = Some n → face m (opposite hd) = Some n).

Lemma length_omap_le {A B} (g : A → option B) (l : list A) :
  length (omap g l) ≤ length l.
Proof. induction l as [|x l IH]; csimpl; [done|]. destruct (g x); simpl; lia. Qed.

Lemma mesh_succs_bounded f :
  f ∈ dom (fconn m) →
  ∃ ns, face_succs m sel f = Some ns ∧ length ns ≤ num_halfedges m
        ∧ ∀ n, n ∈ ns → n ∈ dom (fconn m).
Proof using Hwf sel_face.
  intros Hf. apply elem_of_dom, elem_of_faces in Hf.
  destruct (wf_mesh_face m f Hwf Hf) as (hs & Hhs & Hchar).
  exists (omap sel hs). unfold face_succs. rewrite Hhs. split_and!; [done| |].
  - pose proof (length_omap_le sel hs).
    pose proof (face_halfedges_length m f hs Hhs). lia.
  - intros n (hd & Hhd & Hsel)%list_elem_of_omap.
    apply elem_of_dom, elem_of_faces.
    apply Hchar in Hhd as [Ha _].
    apply (wf_mesh_face_exists m (opposite hd)); [done|exact Ha|by apply sel_face].
Qed.

Lemma mesh_traverse_terminates f seen out :
  f ∈ faces m →
  is_Some (traverse (face_succs m sel) (traverse_fuel m) [f] seen out).
Proof using Hwf sel_face.
  intros Hf.
  apply (traverse_terminates (face_succs m sel) (dom (fconn m)) (num_halfedges m)
           mesh_succs_bounded).
  - intros s ->%list_elem_of_singleton. by apply elem_of_dom, elem_of_faces.
  - unfold traverse_fuel, faces. rewrite length_fmap, length_map_to_list.
    rewrite <-(size_dom (D:=gset nat) (fconn m)).
    assert (size (dom (fconn m) ∖ seen) ≤ size (dom (fconn m)))
      by (apply subseteq_size; set_solver).
    simpl. nia.
Qed.
End MeshTraversal.

(** [C1]: on a well-formed mesh, [connected_component] started on a face
    [f] of the mesh produces a result; what it writes to the output are,
    each once, the faces that a chain of edges that are neither border
    edges nor constrained joins to [f], and these only. The seed is among
    them. *)
Theorem connected_component_reachable m ecmap seed_face :
  wf_mesh m → seed_face ∈ faces m →
  ∃ out, connected_component seed_face m ecmap = Some out
         ∧ NoDup out
         ∧ seed_face ∈ out
         ∧ ∀ g, g ∈ out ↔ connected m ecmap seed_face g.
Proof.
  intros Hwf Hseed. unfold connected_component.
  set (sel := λ hd : nat * bool,
                if ecmap (edge hd) then None else face m (opposite hd)).
  assert (∀ hd n, sel hd = Some n → face m (opposite hd) = Some n) as Hsel.
  { intros hd n. unfold sel. by destruct (ecmap (edge hd)). }
  destruct (mesh_traverse_terminates m Hwf sel Hsel seed_face ∅ [] Hseed)
    as [[seen' out] Hrun].
  change (traverse (pushed_neighbors m ecmap) (traverse_fuel m) [seed_face] ∅ []
          = Some (seen', out)) in Hrun.
  rewrite Hrun. exists out. split; [done|].
  apply traverse_post in Hrun as (_ & Hst & (new & -> & Hnd & Hnew) & Hreach & Hcl).
  simpl. assert (seed_face ∈ seen') as Hin by (apply Hst; by left).
  split_and!; [done|apply Hnew; set_solver|]. intros g. rewrite Hnew. split.
  - intros [Hg _]. destruct (Hreach g Hg) as (s & ->%list_elem_of_singleton & Hsg);
      [set_solver|].
    eapply rtc_subrel; [|done]. intros ???. by apply pushes_neighbors_adjacent.
  - intros Hconn. split; [|set_solver].
    assert (∀ a b, connected m ecmap a b → a ∈ seen' → b ∈ seen') as Hclosed.
    { clear -Hcl Hwf. induction 1 as [|a a' b Hadj _ IH]; [done|].
      intros Ha. apply IH, (Hcl a a'); [done|set_solver|].
      by apply pushes_neighbors_adjacent. }
    by apply (Hclosed seed_face).
Qed.

Lemma connected_component_reachable_witness :
  wf_mesh Samples.quad ∧ 0 ∈ faces Samples.quad
  ∧ ∃ out, connected_component 0 Samples.quad Samples.diagonal_constrained
           = Some out
         ∧ NoDup out
         ∧ 0 ∈ out
         ∧ ∀ g, g ∈ out ↔ connected Samples.quad Samples.diagonal_constrained 0 g.
Proof.
  split; [compute_done|]. split; [compute_done|].
  apply (connected_component_reachable Samples.quad
           Samples.diagonal_constrained 0); compute_done.
Defined.

(** ** The labelling of all components *)

Lemma label_component_lookup c comp : ∀ fcm g,
  label_component c fcm comp !! g
  = if decide (g ∈ comp) then Some c else fcm !! g.
Proof.
  unfold label_component.
  induction comp as [|x comp IH]; intros fcm g; simpl; [done|].
  rewrite IH. destruct (decide (g = x)) as [->|Hne].
  - rewrite lookup_insert_eq. repeat case_decide; set_solver.
  - rewrite lookup_insert_ne by done. repeat case_decide; set_solver.
Qed.

Lemma closed_connected m ecm (S : gset nat) :
  (∀ f g, f ∈ S → adjacent m ecm f g → g ∈ S) →
  ∀ f g, connected m ecm f g → f ∈ S → g ∈ S.
Proof. intros Hcl f g. induction 1; eauto. Qed.

Lemma label_all_post m ecm : wf_mesh m → ∀ fs fcm seen count,
  labelling_inv m ecm fcm seen count →
  (∀ f, f ∈ fs → f ∈ faces m) →
  ∃ fcm' seen' count',
    label_all (dual_out_edges m ecm) (traverse_fuel m) fs fcm seen count = Some (fcm', count')
    ∧ labelling_inv m ecm fcm' seen' count'
    ∧ seen ⊆ seen' ∧ (∀ f, f ∈ fs → f ∈ seen')
    ∧ (∀ f, f ∉ faces m → fcm' !! f = fcm !! f).
Proof.
  intros Hwf. induction fs as [|f fs IH]; intros fcm seen count Hinv Hfs;
    cbn [label_all].
  { exists fcm, seen, count. split_and!; try done. by intros ? ?%elem_of_nil. }
  destruct (decide (f ∈ seen)) as [Hf|Hf].
  { destruct (IH fcm seen count Hinv) as (fcm' & seen' & count' & ? & ? & ? & ? & ?);
      [intros; apply Hfs; by right|].
    exists fcm', seen', count'. split_and!; try done.
    intros g [->|?]%elem_of_cons; [set_solver|auto]. }
  set (sel := λ hd : nat * bool,
                if No_border m ecm (edge hd) then face m (opposite hd) else None).
  assert (∀ hd n, sel hd = Some n → face m (opposite hd) = Some n) as Hsel.
  { intros hd n. unfold sel. by destruct (No_border m ecm (edge hd)). }
  assert (f ∈ faces m) as Hfin by (apply Hfs; by left).
  destruct (mesh_traverse_terminates m Hwf sel Hsel f seen [] Hfin)
    as [[seen1 comp] Hrun].
  change (traverse (dual_out_edges m ecm) (traverse_fuel m) [f] seen []
          = Some (seen1, comp)) in Hrun.
  rewrite Hrun. simpl.
  apply traverse_post in Hrun
    as (Hsub & Hst & (new & -> & Hnd & Hnew) & Hreach & Hcl).
  simpl in *. assert (f ∈ seen1) as Hf1 by (apply Hst; by left).
  assert (∀ g, g ∈ seen1 → g ∉ seen → connected m ecm f g) as Hreach'.
  { intros g Hg Hg'. destruct (Hreach g Hg Hg') as (s & ->%list_elem_of_singleton & Hsg).
    eapply rtc_subrel; [|done]. intros ???. by apply pushes_dual_adjacent. }
  destruct Hinv as [Hclosed Hfaces Hrange Hused Hsame].
  assert (∀ a b, connected m ecm a b → a ∈ seen → b ∈ seen) as Hseen_conn
    by by apply closed_connected.
  destruct (IH (label_component count fcm new) seen1 (S count))
    as (fcm' & seen' & count' & Hlab & Hinv' & Hsub' & Hall & Hframe).
  { split.
    - intros a b Ha Hab. destruct (decide (a ∈ seen)) as [Has|Has].
      + apply Hsub. by eapply Hclosed.
      + apply (Hcl a b); [done|done|]. by apply pushes_dual_adjacent.
    - intros a Ha. destruct (decide (a ∈ seen)) as [Has|Has]; [auto|].
      eapply connected_faces; [done|exact Hfin|auto].
    - intros a Ha. rewrite label_component_lookup.
      case_decide as Hnw; [exists count; split; [done|lia]|].
      destruct (Hrange a) as (i & ? & ?); [rewrite Hnew in Hnw; set_solver|].
      exists i. split; [done|lia].
    - intros i Hi. destruct (decide (i = count)) as [->|Hne].
      + exists f. split; [done|]. rewrite label_component_lookup.
        rewrite decide_True; [done|]. apply Hnew. done.
      + destruct (Hused i) as (a & Ha & Hia); [lia|]. exists a.
        split; [set_solver|]. rewrite label_component_lookup.
        rewrite decide_False; [done|]. rewrite Hnew. set_solver.
    - intros a b Ha Hb. rewrite !label_component_lookup.
      destruct (decide (a ∈ seen)) as [Has|Has];
        destruct (decide (b ∈ seen)) as [Hbs|Hbs].
      + rewrite !decide_False by (rewrite Hnew; set_solver). by apply Hsame.
      + rewrite decide_False by (rewrite Hnew; set_solver).
        rewrite decide_True by (rewrite Hnew; set_solver).
        destruct (Hrange a Has) as (i & -> & Hi). split.
        * intros ?; simplify_eq; lia.
        * intros Hab. destruct Hbs. by eapply Hseen_conn.
      + rewrite decide_True by (rewrite Hnew; set_solver).
        rewrite decide_False by (rewrite Hnew; set_solver).
        destruct (Hrange b Hbs) as (i & -> & Hi). split.
        * intros ?; simplify_eq; lia.
        * intros Hab. destruct Has. eapply Hseen_conn; [|done].
          by apply connected_sym.
      + rewrite !decide_True by (rewrite Hnew; set_solver).
        split; [intros _|done].
        etrans; [apply connected_sym; [done|]|]; by apply Hreach'. }
  { intros; apply Hfs; by right. }
  exists fcm', seen', count'. split_and!; try done.
  - set_solver.
  - intros g [->|?]%elem_of_cons; [set_solver|auto].
  - intros g Hg. rewrite Hframe by done. rewrite label_component_lookup.
    rewrite decide_False; [done|]. rewrite Hnew. intros [Hg1 Hg2].
    apply Hg. eapply connected_faces; [done|exact Hfin|auto].
Qed.

Lemma connected_components_labels m fcm ecmap :
  wf_mesh m →
  ∃ fcm' count,
    connected_components m fcm ecmap = Some (fcm', count)
    ∧ (∀ f, f ∈ faces m → ∃ i, fcm' !! f = Some i ∧ i < count)
    ∧ (∀ i, i < count → ∃ f, f ∈ faces m ∧ fcm' !! f = Some i)
    ∧ (∀ f g, f ∈ faces m → g ∈ faces m →
         get_fcm fcm' f = get_fcm fcm' g ↔ connected m ecmap f g).
Proof.
  intros Hwf. unfold connected_components, boost_connected_components.
  destruct (label_all_post m ecmap Hwf (faces m) fcm ∅ 0)
    as (fcm' & seen' & count' & Hlab & [Hcl Hfs Hrange Hused Hsame] & _ & Hall & _);
    [split; intros; first [set_solver|lia]|done|].
  exists fcm', count'. split_and!; [done|auto| |].
  - intros i Hi. destruct (Hused i Hi) as (f & ? & ?). eauto.
  - intros f g Hf Hg. rewrite <-Hsame by auto. unfold get_fcm.
    destruct (Hrange f (Hall f Hf)) as (i & -> & _).
    destruct (Hrange g (Hall g Hg)) as (j & -> & _). simpl.
    split; congruence.
Qed.

(** [C7]: on a well-formed mesh, [connected_components] gives one id to
    every face; the ids form the range from [0] to the returned count,
    without a gap; and two faces have the same id exactly when a chain of
    edges that are neither border edges nor constrained joins them. *)
Theorem connected_components_partition m fcm ecmap :
  wf_mesh m →
  ∃ fcm' count,
    connected_components m fcm ecmap = Some (fcm', count)
    ∧ (∀ f, f ∈ faces m → ∃ i, fcm' !! f = Some i ∧ i < count)
    ∧ (∀ i, i < count → ∃ f, f ∈ faces m ∧ fcm' !! f = Some i)
    ∧ (∀ f g, f ∈ faces m → g ∈ faces m →
         get_fcm fcm' f = get_fcm fcm' g ↔ connected m ecmap f g).
Proof. apply connected_components_labels. Qed.

Lemma connected_components_partition_witness :
  wf_mesh Samples.quad
  ∧ ∃ fcm' count,
      connected_components Samples.quad ∅ Samples.diagonal_constrained
      = Some (fcm', count)
      ∧ (∀ f, f ∈ faces Samples.quad → ∃ i, fcm' !! f = Some i ∧ i < count)
      ∧ (∀ i, i < count → ∃ f, f ∈ faces Samples.quad ∧ fcm' !! f = Some i)
      ∧ (∀ f g, f ∈ faces Samples.quad → g ∈ faces Samples.quad →
           get_fcm fcm' f = get_fcm fcm' g
           ↔ connected Samples.quad Samples.diagonal_constrained f g).
Proof.
  split; [compute_done|].
  apply (connected_components_partition Samples.quad ∅
           Samples.diagonal_constrained); compute_done.
Defined.

(** ** The effect of the mutators on the accessors *)

Lemma conn_upd_conn g a m h :
  conn (upd_conn g a m) h = if decide (h = a) then g <$> conn m h else conn m h.
Proof.
  unfold conn, upd_conn, upd_side, side; simpl. rewrite lookup_alter.
  destruct h as [e b], a as [e' b']; simpl.
  destruct (decide (e' = e)) as [->|Hne].
  - destruct (econn m !! e) as [[c1 c2]|]; simpl;
      destruct b, b'; simpl; case_decide; simplify_eq; done.
  - rewrite decide_False; [done|congruence].
Qed.

Lemma alive_conn m h : alive m h ↔ is_Some (conn m h).
Proof. unfold alive, conn. by rewrite fmap_is_Some. Qed.

Lemma alive_upd_conn g a m h : alive (upd_conn g a m) h ↔ alive m h.
Proof.
  rewrite !alive_conn, conn_upd_conn. case_decide; [|done].
  by rewrite fmap_is_Some.
Qed.

Lemma alive_set_next m a b h : alive (set_next m a b) h ↔ alive m h.
Proof. unfold set_next. by rewrite !alive_upd_conn. Qed.

Lemma next_set_next m a b h :
  alive m a →
  next (set_next m a b) h = if decide (h = a) then b else next m h.
Proof.
  intros [c Hc]%alive_conn. unfold next, set_next. rewrite !conn_upd_conn.
  repeat case_decide; simplify_eq; rewrite ?Hc; simpl; try done;
    by destruct (conn m b).
Qed.

Lemma prev_set_next m a b h :
  alive m b →
  prev (set_next m a b) h = if decide (h = b) then a else prev m h.
Proof.
  intros [c Hc]%alive_conn. unfold prev, set_next. rewrite !conn_upd_conn.
  repeat case_decide; simplify_eq; rewrite ?Hc; simpl; try done;
    by destruct (conn m a).
Qed.

Lemma target_set_next m a b h : target (set_next m a b) h = target m h.
Proof.
  unfold target, set_next. rewrite !conn_upd_conn.
  repeat case_decide; by destruct (conn m _).
Qed.

Lemma face_set_next m a b h : face (set_next m a b) h = face m h.
Proof.
  unfold face, set_next. rewrite !conn_upd_conn.
  repeat case_decide; by destruct (conn m _).
Qed.

Lemma alive_set_face m a f h : alive (set_face m a f) h ↔ alive m h.
Proof. apply alive_upd_conn. Qed.

Lemma next_set_face m a f h : next (set_face m a f) h = next m h.
Proof.
  unfold next, set_face. rewrite conn_upd_conn.
  case_decide; by destruct (conn m _).
Qed.

Lemma prev_set_face m a f h : prev (set_face m a f) h = prev m h.
Proof.
  unfold prev, set_face. rewrite conn_upd_conn.
  case_decide; by destruct (conn m _).
Qed.

Lemma target_set_face m a f h : target (set_face m a f) h = target m h.
Proof.
  unfold target, set_face. rewrite conn_upd_conn.
  case_decide; by destruct (conn m _).
Qed.

Lemma face_set_face m a f h :
  alive m a →
  face (set_face m a f) h = if decide (h = a) then f else face m h.
Proof.
  intros [c Hc]%alive_conn. unfold face, set_face. rewrite conn_upd_conn.
  destruct (decide (h = a)) as [->|]; [by rewrite Hc|done].
Qed.

Lemma alive_remove_edge m e h : alive (remove_edge m e) h ↔ alive m h ∧ h.1 ≠ e.
Proof.
  unfold alive, remove_edge; simpl. rewrite lookup_delete_is_Some. naive_solver.
Qed.

Lemma conn_remove_edge m e h : h.1 ≠ e → conn (remove_edge m e) h = conn m h.
Proof. intros. unfold conn, remove_edge; simpl. by rewrite lookup_delete_ne. Qed.

Lemma next_remove_edge m e h : h.1 ≠ e → next (remove_edge m e) h = next m h.
Proof. intros. unfold next. by rewrite conn_remove_edge. Qed.

Lemma prev_remove_edge m e h : h.1 ≠ e → prev (remove_edge m e) h = prev m h.
Proof. intros. unfold prev. by rewrite conn_remove_edge. Qed.

Lemma target_remove_edge m e h : h.1 ≠ e → target (remove_edge m e) h = target m h.
Proof. intros. unfold target. by rewrite conn_remove_edge. Qed.

Lemma face_remove_edge m e h : h.1 ≠ e → face (remove_edge m e) h = face m h.
Proof. intros. unfold face. by rewrite conn_remove_edge. Qed.

Lemma same_edge h e : h.1 = e ↔ h = halfedge_e e ∨ h = opposite (halfedge_e e).
Proof.
  unfold halfedge_e, opposite. destruct h as [e' []]; simpl; naive_solver.
Qed.

Lemma same_edge_sides (h a : nat * bool) : h.1 = a.1 ↔ h = a ∨ h = opposite a.
Proof.
  unfold opposite. destruct h as [e []], a as [e' []]; simpl; naive_solver.
Qed.

(** ** The invariant of the loop over the edges *)

Section EdgeLoop.
Context (fcm : gmap nat nat) (kv : gmap nat bool) (m0 : PolygonMesh).
Context (Hmarked : kept_faces_marked fcm kv m0).

Local Abbreviation K v := (get_kv kv v = true).
Local Abbreviation Inv := (edge_loop_inv fcm kv m0).

Lemma inv_kept_ends m h f :
  Inv m → alive m h → face m h = Some f → get_fcm fcm f = 1 →
  K (target m h) ∧ K (source m h).
Proof using Hmarked.
  intros HI Ha Hf Hk. unfold source.
  rewrite (eli_target _ _ _ _ HI h Ha).
  rewrite (eli_target _ _ _ _ HI (opposite h)) by done.
  apply (Hmarked h f); [by eapply eli_alive|by eapply eli_face|done].
Qed.

Lemma inv_set_face m a f' :
  Inv m → alive m a → face m a = Some f' → get_fcm fcm f' ≠ 1 →
  Inv (set_face m a None).
Proof.
  intros HI Ha Hf Hk. split.
  - intros h. rewrite !alive_set_face, !next_set_face, target_set_face.
    unfold source. rewrite !prev_set_face, target_set_face.
    apply (eli_next _ _ _ _ HI).
  - intros h. rewrite !alive_set_face, !prev_set_face, target_set_face.
    unfold source. rewrite !next_set_face, target_set_face.
    apply (eli_prev _ _ _ _ HI).
  - intros h. rewrite alive_set_face. unfold source.
    rewrite !target_set_face. apply (eli_no_loop _ _ _ _ HI).
  - intros h. rewrite alive_set_face. apply (eli_alive _ _ _ _ HI).
  - intros h. rewrite alive_set_face, target_set_face.
    apply (eli_target _ _ _ _ HI).
  - intros h f. rewrite alive_set_face, face_set_face by done.
    case_decide; [done|]. apply (eli_face _ _ _ _ HI).
  - intros h f Hh Hhf Hfk. rewrite alive_set_face, face_set_face by done.
    destruct (eli_kept _ _ _ _ HI h f Hh Hhf Hfk) as [? ?].
    case_decide; [|done]. simplify_eq.
Qed.

(** The accessors after [set_next(p, x)] followed by [remove_edge(e)]. *)
Lemma relink_one_fields m p x e h :
  alive m p → alive m x →
  let m' := remove_edge (set_next m p x) e in
  (alive m' h ↔ alive m h ∧ h.1 ≠ e)
  ∧ (h.1 ≠ e →
     next m' h = (if decide (h = p) then x else next m h)
     ∧ prev m' h = (if decide (h = x) then p else prev m h)
     ∧ target m' h = target m h ∧ face m' h = face m h).
Proof.
  intros Hp Hx m'. unfold m'. split.
  - by rewrite alive_remove_edge, alive_set_next.
  - intros He. rewrite next_remove_edge, prev_remove_edge,
      target_remove_edge, face_remove_edge by done.
    by rewrite next_set_next, prev_set_next, target_set_next, face_set_next.
Qed.

Lemma inv_relink_one m a :
  Inv m → alive m a → K (source m a) → get_kv kv (target m a) = false →
  Inv (remove_edge (set_next m (prev m a) (next m (opposite a))) a.1).
Proof using Hmarked.
  intros HI Ha HKs HKt.
  set (o := opposite a). set (p := prev m a). set (x := next m o).
  assert (alive m o) as Ho by done.
  destruct (eli_prev _ _ _ _ HI a Ha HKs) as (Hp1 & Hp2 & Hp3).
  destruct (eli_next _ _ _ _ HI o Ho HKs) as (Hx1 & Hx2 & Hx3).
  fold p in Hp1, Hp2, Hp3. fold x in Hx1, Hx2, Hx3.
  assert (opposite o = a) as Hoo by apply opposite_involutive.
  assert (source m o = target m a) as Hso by (unfold source; by rewrite Hoo).
  assert (target m o = source m a) as Hto by done.
  pose proof (eli_no_loop _ _ _ _ HI a Ha) as Hnl.
  assert (∀ h, h.1 ≠ a.1 → h ≠ a ∧ h ≠ o) as Hoff.
  { intros h Hh. split; intros ->; by apply Hh. }
  assert (∀ h, h.1 = a.1 → h = a ∨ h = o) as Hon
    by (intros h; apply same_edge_sides).
  assert (x.1 ≠ a.1 ∨ p = o) as Hxoff.
  { destruct (decide (x.1 = a.1)) as [Hx|]; [|by left]. right.
    apply Hon in Hx as [Hx|Hx].
    - rewrite Hx in Hx2. done.
    - rewrite Hx in Hx3. congruence. }
  assert (p.1 ≠ a.1 ∨ x = a) as Hpoff.
  { destruct (decide (p.1 = a.1)) as [Hp|]; [|by left]. right.
    apply Hon in Hp as [Hp|Hp].
    - rewrite Hp in Hp3. congruence.
    - rewrite Hp in Hp2. done. }
  pose proof (λ h, relink_one_fields m p x a.1 h Hp1 Hx1) as Hfld.
  cbv zeta in Hfld.
  set (m' := remove_edge (set_next m p x) a.1) in *.
  assert (∀ h, h.1 ≠ a.1 → source m' h = source m h) as Hsrc.
  { intros h Hh. unfold source. by apply (Hfld (opposite h)). }
  split.
  - intros h [Hh He]%Hfld. destruct (Hfld h) as [_ (-> & _ & -> & _)]; [done|].
    intros HK. destruct (eli_next _ _ _ _ HI h Hh HK) as (Hn1 & Hn2 & Hn3).
    case_decide as Hhp.
    + subst h. destruct Hxoff as [Hxoff|Hxoff]; [|by rewrite Hxoff in He].
      rewrite Hsrc by done. destruct (Hfld x) as [-> (_ & -> & _)]; [done|].
      rewrite decide_True by done. split_and!; [done|done|done|congruence].
    + assert ((next m h).1 ≠ a.1) as Hnoff.
      { intros [Hn|Hn]%Hon.
        - rewrite Hn in Hn2. by apply Hhp.
        - rewrite Hn in Hn3. congruence. }
      rewrite Hsrc by done.
      destruct (Hfld (next m h)) as [-> (_ & -> & _)]; [done|].
      rewrite decide_False; [done|]. intros Hnx. rewrite Hnx in Hn2.
      apply (Hoff h He). congruence.
  - intros h [Hh He]%Hfld. rewrite Hsrc by done.
    destruct (Hfld h) as [_ (_ & -> & _ & _)]; [done|].
    intros HK. destruct (eli_prev _ _ _ _ HI h Hh HK) as (Hq1 & Hq2 & Hq3).
    case_decide as Hhx.
    + subst h. destruct Hpoff as [Hpoff|Hpoff]; [|by rewrite Hpoff in He].
      destruct (Hfld p) as [-> (-> & _ & -> & _)]; [done|].
      rewrite decide_True by done. split_and!; [done|done|done|congruence].
    + assert ((prev m h).1 ≠ a.1) as Hqoff.
      { intros [Hq|Hq]%Hon.
        - rewrite Hq in Hq3. congruence.
        - rewrite Hq in Hq2. by apply Hhx. }
      destruct (Hfld (prev m h)) as [-> (-> & _ & -> & _)]; [done|].
      rewrite decide_False; [done|]. intros Hqp. rewrite Hqp in Hq2.
      apply (Hoff h He). congruence.
  - intros h [Hh He]%Hfld. rewrite Hsrc by done.
    destruct (Hfld h) as [_ (_ & _ & -> & _)]; [done|].
    by apply (eli_no_loop _ _ _ _ HI).
  - intros h [Hh He]%Hfld. by apply (eli_alive _ _ _ _ HI).
  - intros h [Hh He]%Hfld. destruct (Hfld h) as [_ (_ & _ & -> & _)]; [done|].
    by apply (eli_target _ _ _ _ HI).
  - intros h f [Hh He]%Hfld. destruct (Hfld h) as [_ (_ & _ & _ & ->)]; [done|].
    by apply (eli_face _ _ _ _ HI).
  - intros h f Hh Hhf Hfk.
    destruct (eli_kept _ _ _ _ HI h f Hh Hhf Hfk) as [Hal Hfa].
    destruct (inv_kept_ends m h f HI Hal Hfa Hfk) as [HKt' HKs'].
    assert (h.1 ≠ a.1) as He.
    { intros [->| ->]%Hon; congruence. }
    destruct (Hfld h) as [-> (_ & _ & _ & ->)]; done.
Qed.

(** The accessors after the two calls of [set_next] and [remove_edge(e)]. *)
Lemma relink_two_fields m p x q y e h :
  alive m p → alive m x → alive m q → alive m y →
  let m' := remove_edge (set_next (set_next m p x) q y) e in
  (alive m' h ↔ alive m h ∧ h.1 ≠ e)
  ∧ (h.1 ≠ e →
     next m' h = (if decide (h = q) then y
                  else if decide (h = p) then x else next m h)
     ∧ prev m' h = (if decide (h = y) then q
                    else if decide (h = x) then p else prev m h)
     ∧ target m' h = target m h ∧ face m' h = face m h).
Proof.
  intros Hp Hx Hq Hy m'. unfold m'. split.
  - by rewrite alive_remove_edge, !alive_set_next.
  - intros He. rewrite next_remove_edge, prev_remove_edge,
      target_remove_edge, face_remove_edge by done.
    rewrite !next_set_next, !prev_set_next, !target_set_next, !face_set_next;
      by rewrite ?alive_set_next.
Qed.

Lemma inv_relink_two m a :
  Inv m → alive m a → K (source m a) → K (target m a) →
  (∀ g f, g.1 = a.1 → face m g = Some f → get_fcm fcm f ≠ 1) →
  let m1 := set_next m (prev m a) (next m (opposite a)) in
  Inv (remove_edge (set_next m1 (prev m1 (opposite a)) (next m1 a)) a.1).
Proof using Hmarked.
  intros HI Ha HKs HKt Hnokept.
  set (o := opposite a). set (p := prev m a). set (x := next m o).
  set (q := prev m o). set (y := next m a).
  assert (alive m o) as Ho by done.
  assert (opposite o = a) as Hoo by apply opposite_involutive.
  assert (source m o = target m a) as Hso by (unfold source; by rewrite Hoo).
  assert (target m o = source m a) as Hto by done.
  destruct (eli_prev _ _ _ _ HI a Ha HKs) as (Hp1 & Hp2 & Hp3).
  destruct (eli_next _ _ _ _ HI o Ho HKs) as (Hx1 & Hx2 & Hx3).
  destruct (eli_prev _ _ _ _ HI o Ho) as (Hq1 & Hq2 & Hq3); [by rewrite Hso|].
  destruct (eli_next _ _ _ _ HI a Ha HKt) as (Hy1 & Hy2 & Hy3).
  fold p in Hp1, Hp2, Hp3. fold x in Hx1, Hx2, Hx3.
  fold q in Hq1, Hq2, Hq3. fold y in Hy1, Hy2, Hy3.
  pose proof (eli_no_loop _ _ _ _ HI a Ha) as Hnl.
  assert (a ≠ o) as Hao by (symmetry; apply opposite_ne).
  assert (p ≠ a) as Hpa by (intros Hp; rewrite Hp in Hp3; congruence).
  assert (x ≠ o) as Hxo by (intros Hx; rewrite Hx in Hx3; congruence).
  assert (q ≠ o) as Hqo by (intros Hq; rewrite Hq in Hq3; congruence).
  assert (y ≠ a) as Hya by (intros Hy; rewrite Hy in Hy3; congruence).
  intros m1.
  assert (prev m1 o = q) as ->.
  { unfold m1. fold o p x. rewrite prev_set_next by done.
    by rewrite decide_False. }
  assert (next m1 a = y) as ->.
  { unfold m1. fold o p x. rewrite next_set_next by done.
    by rewrite decide_False. }
  unfold m1. fold o p x. clear m1.
  assert (∀ h, h.1 ≠ a.1 → h ≠ a ∧ h ≠ o) as Hoff.
  { intros h Hh. split; intros ->; by apply Hh. }
  assert (∀ h, h.1 = a.1 → h = a ∨ h = o) as Hon
    by (intros h; apply same_edge_sides).
  assert (p.1 ≠ a.1 → x.1 ≠ a.1) as Hpx.
  { intros Hp [Hx|Hx]%Hon; [|done]. apply Hp.
    rewrite Hx in Hx2. fold p in Hx2. by rewrite Hx2. }
  assert (x.1 ≠ a.1 → p.1 ≠ a.1) as Hxp.
  { intros Hx [Hp|Hp]%Hon; [done|]. apply Hx.
    rewrite Hp in Hp2. fold x in Hp2. by rewrite Hp2. }
  assert (q.1 ≠ a.1 → y.1 ≠ a.1) as Hqy.
  { intros Hq [Hy|Hy]%Hon; [done|]. apply Hq.
    rewrite Hy in Hy2. fold q in Hy2. by rewrite Hy2. }
  assert (y.1 ≠ a.1 → q.1 ≠ a.1) as Hyq.
  { intros Hy [Hq|Hq]%Hon; [|done]. apply Hy.
    rewrite Hq in Hq2. fold y in Hq2. by rewrite Hq2. }
  assert (x ≠ y) as Hxy by (intros Hxy; rewrite Hxy in Hx2; congruence).
  assert (p ≠ q) as Hpq by (intros Hpq; rewrite Hpq in Hp2; congruence).
  pose proof (λ h, relink_two_fields m p x q y a.1 h Hp1 Hx1 Hq1 Hy1) as Hfld.
  cbv zeta in Hfld.
  set (m' := remove_edge (set_next (set_next m p x) q y) a.1) in *.
  assert (∀ h, h.1 ≠ a.1 → source m' h = source m h) as Hsrc.
  { intros h Hh. unfold source. by apply (Hfld (opposite h)). }
  split.
  - intros h [Hh He]%Hfld. destruct (Hfld h) as [_ (-> & _ & -> & _)]; [done|].
    intros HK. destruct (eli_next _ _ _ _ HI h Hh HK) as (Hn1 & Hn2 & Hn3).
    destruct (decide (h = q)) as [->|Hhq]; [|destruct (decide (h = p)) as [->|Hhp]].
    + rewrite Hsrc by auto. destruct (Hfld y) as [-> (_ & -> & _)]; [auto|].
      rewrite decide_True by done. split_and!; [done|auto|done|congruence].
    + rewrite Hsrc by auto. destruct (Hfld x) as [-> (_ & -> & _)]; [auto|].
      rewrite decide_False, decide_True by done.
      split_and!; [done|auto|done|congruence].
    + assert ((next m h).1 ≠ a.1) as Hnoff.
      { intros [Hn|Hn]%Hon; rewrite Hn in Hn2; fold p q in Hn2; congruence. }
      rewrite Hsrc by done.
      destruct (Hfld (next m h)) as [-> (_ & -> & _)]; [done|].
      rewrite !decide_False; [done| |].
      * intros Hnx. rewrite Hnx in Hn2. apply (Hoff h He). congruence.
      * intros Hny. rewrite Hny in Hn2. apply (Hoff h He). congruence.
  - intros h [Hh He]%Hfld. rewrite Hsrc by done.
    destruct (Hfld h) as [_ (_ & -> & _ & _)]; [done|].
    intros HK. destruct (eli_prev _ _ _ _ HI h Hh HK) as (Hr1 & Hr2 & Hr3).
    destruct (decide (h = y)) as [->|Hhy]; [|destruct (decide (h = x)) as [->|Hhx]].
    + destruct (Hfld q) as [-> (-> & _ & -> & _)]; [auto|].
      rewrite decide_True by done. split_and!; [done|auto|done|congruence].
    + destruct (Hfld p) as [-> (-> & _ & -> & _)]; [auto|].
      rewrite decide_False, decide_True by done.
      split_and!; [done|auto|done|congruence].
    + assert ((prev m h).1 ≠ a.1) as Hroff.
      { intros [Hr|Hr]%Hon; rewrite Hr in Hr2; fold x y in Hr2; congruence. }
      destruct (Hfld (prev m h)) as [-> (-> & _ & -> & _)]; [done|].
      rewrite !decide_False; [done| |].
      * intros Hrp. rewrite Hrp in Hr2. apply (Hoff h He). congruence.
      * intros Hrq. rewrite Hrq in Hr2. apply (Hoff h He). congruence.
  - intros h [Hh He]%Hfld. rewrite Hsrc by done.
    destruct (Hfld h) as [_ (_ & _ & -> & _)]; [done|].
    by apply (eli_no_loop _ _ _ _ HI).
  - intros h [Hh He]%Hfld. by apply (eli_alive _ _ _ _ HI).
  - intros h [Hh He]%Hfld. destruct (Hfld h) as [_ (_ & _ & -> & _)]; [done|].
    by apply (eli_target _ _ _ _ HI).
  - intros h f [Hh He]%Hfld. destruct (Hfld h) as [_ (_ & _ & _ & ->)]; [done|].
    by apply (eli_face _ _ _ _ HI).
  - intros h f Hh Hhf Hfk.
    destruct (eli_kept _ _ _ _ HI h f Hh Hhf Hfk) as [Hal Hfa].
    assert (h.1 ≠ a.1) as He.
    { intros He. by apply (Hnokept h f He Hfa). }
    destruct (Hfld h) as [-> (_ & _ & _ & ->)]; done.
Qed.

Lemma inv_remove_unkept m e :
  Inv m → alive m (halfedge_e e) →
  get_kv kv (source m (halfedge_e e)) = false →
  get_kv kv (target m (halfedge_e e)) = false →
  Inv (remove_edge m e).
Proof using Hmarked.
  intros HI Ha HKs HKt. set (a := halfedge_e e). set (o := opposite a).
  assert (∀ h, h.1 = e → h = a ∨ h = o) as Hon
    by (intros h; apply same_edge).
  assert (source m o = target m a) as Hso by done.
  assert (target m o = source m a) as Hto by done.
  assert (∀ h, alive (remove_edge m e) h → alive m h ∧ h.1 ≠ e) as Hal
    by (intros h; by rewrite alive_remove_edge).
  assert (∀ h, h.1 ≠ e → source (remove_edge m e) h = source m h) as Hsrc.
  { intros h Hh. unfold source. by rewrite target_remove_edge. }
  split.
  - intros h [Hh He]%Hal.
    rewrite next_remove_edge, target_remove_edge by done. intros HK.
    destruct (eli_next _ _ _ _ HI h Hh HK) as (Hn1 & Hn2 & Hn3).
    assert ((next m h).1 ≠ e) as Hnoff.
    { intros [Hn|Hn]%Hon; rewrite Hn in Hn3; fold a in HKs, HKt; congruence. }
    rewrite alive_remove_edge, prev_remove_edge, Hsrc by done. done.
  - intros h [Hh He]%Hal.
    rewrite prev_remove_edge, Hsrc by done. intros HK.
    destruct (eli_prev _ _ _ _ HI h Hh HK) as (Hr1 & Hr2 & Hr3).
    assert ((prev m h).1 ≠ e) as Hroff.
    { intros [Hr|Hr]%Hon; rewrite Hr in Hr3; fold a in HKs, HKt; congruence. }
    rewrite alive_remove_edge, next_remove_edge, target_remove_edge by done.
    done.
  - intros h [Hh He]%Hal. rewrite Hsrc, target_remove_edge by done.
    by apply (eli_no_loop _ _ _ _ HI).
  - intros h [Hh He]%Hal. by apply (eli_alive _ _ _ _ HI).
  - intros h [Hh He]%Hal. rewrite target_remove_edge by done.
    by apply (eli_target _ _ _ _ HI).
  - intros h f [Hh He]%Hal. rewrite face_remove_edge by done.
    by apply (eli_face _ _ _ _ HI).
  - intros h f Hh Hhf Hfk.
    destruct (eli_kept _ _ _ _ HI h f Hh Hhf Hfk) as [Hal' Hfa].
    destruct (inv_kept_ends m h f HI Hal' Hfa Hfk) as [HKt' HKs'].
    assert (h.1 ≠ e) as He.
    { intros [->| ->]%Hon; fold a in HKs, HKt; congruence. }
    rewrite alive_remove_edge, face_remove_edge by done. done.
Qed.

(** The invariant only reads the halfedge store. *)
Lemma inv_econn m1 m2 : econn m1 = econn m2 → Inv m1 → Inv m2.
Proof.
  destruct m1 as [v1 E1 f1], m2 as [v2 E2 f2]; simpl. intros -> HI.
  destruct HI; by split.
Qed.

Lemma alive_econn m1 m2 h : econn m1 = econn m2 → alive m1 h ↔ alive m2 h.
Proof. unfold alive. by intros ->. Qed.

Lemma econn_remove_edge m1 m2 e :
  econn m1 = econn m2 → econn (remove_edge m1 e) = econn (remove_edge m2 e).
Proof. unfold remove_edge; simpl. by intros ->. Qed.

Lemma econn_relink_source m v h oh :
  econn (relink_source m v h oh)
  = econn (set_next m (prev m h) (next m oh)).
Proof. unfold relink_source. by case_decide. Qed.

Lemma truthy_false_ne_1 n : truthy n = false → n ≠ 1.
Proof. by destruct n. Qed.

Lemma truthy_1 n : n = 1 → truthy n = true.
Proof. by intros ->. Qed.

Lemma process_edge_inv m e :
  Inv m → alive m (halfedge_e e) →
  Inv (process_edge fcm kv m e)
  ∧ (∀ h, alive (process_edge fcm kv m e) h → alive m h)
  ∧ (∀ h, alive m h → h.1 ≠ e → alive (process_edge fcm kv m e) h)
  ∧ (∀ h, alive (process_edge fcm kv m e) h → h.1 = e →
       K (target m (halfedge_e e)) ∧ K (source m (halfedge_e e))).
Proof using Hmarked.
  intros HI Ha. unfold process_edge.
  set (a := halfedge_e e) in *. set (o := opposite a).
  assert (alive m o) as Ho by done.
  destruct (get_kv kv (source m a)) eqn:HKs;
    destruct (get_kv kv (target m a)) eqn:HKt; simpl.
  - (* both ends are kept *)
    assert (Inv m ∧ (∀ h, alive m h → alive m h)
              ∧ (∀ h, alive m h → h.1 ≠ e → alive m h)
              ∧ (∀ h, alive m h → h.1 = e → true = true ∧ true = true))
      as Hsame by done.
    assert ((∀ g f, g.1 = e → face m g = Some f → truthy (get_fcm fcm f) = false) →
      let m1 := set_next m (prev m a) (next m o) in
      let m' := remove_edge (set_next m1 (prev m1 o) (next m1 a)) e in
      ∀ m'', econn m'' = econn m' →
        Inv m'' ∧ (∀ h, alive m'' h → alive m h)
        ∧ (∀ h, alive m h → h.1 ≠ e → alive m'' h)
        ∧ (∀ h, alive m'' h → h.1 = e → true = true ∧ true = true)) as Hrelink.
    { intros Hno m1 m' m'' Heq.
      assert (∀ h, alive m'' h ↔ alive m h ∧ h.1 ≠ e) as Hal.
      { intros h. rewrite (alive_econn m'' m') by done. unfold m', m1.
        by rewrite alive_remove_edge, !alive_set_next. }
      split_and!.
      - apply (inv_econn m'); [done|].
        apply (inv_relink_two m a); [done..|].
        intros g f Hg Hf. by apply truthy_false_ne_1, (Hno g f).
      - intros h. rewrite Hal. tauto.
      - intros h. rewrite Hal. tauto.
      - intros h. rewrite Hal. tauto. }
    unfold is_border, get_fcm_face.
    destruct (face m a) as [fa|] eqn:Hfa; destruct (face m o) as [fo|] eqn:Hfo;
      simpl; [| | |exact Hsame].
    + destruct (truthy (get_fcm fcm fa)) eqn:Hka;
        destruct (truthy (get_fcm fcm fo)) eqn:Hko; simpl.
      * exact Hsame.
      * split_and!.
        -- apply (inv_set_face m o fo); [done..|by apply truthy_false_ne_1].
        -- intros h. by rewrite alive_set_face.
        -- intros h. by rewrite alive_set_face.
        -- done.
      * split_and!.
        -- apply (inv_set_face m a fa); [done..|by apply truthy_false_ne_1].
        -- intros h. by rewrite alive_set_face.
        -- intros h. by rewrite alive_set_face.
        -- done.
      * apply Hrelink; [|by repeat case_decide].
        intros g f [->| ->]%same_edge; fold a o; congruence.
    + destruct (truthy (get_fcm fcm fa)) eqn:Hka; simpl; [exact Hsame|].
      apply Hrelink; [|by repeat case_decide].
      intros g f [->| ->]%same_edge; fold a o; congruence.
    + destruct (truthy (get_fcm fcm fo)) eqn:Hko; simpl; [exact Hsame|].
      apply Hrelink; [|by repeat case_decide].
      intros g f [->| ->]%same_edge; fold a o; congruence.
  - (* only the source is kept *)
    pose proof (econn_relink_source m (source m a) a o) as Heq.
    assert (∀ h, alive (remove_edge (relink_source m (source m a) a o) e) h
                 ↔ alive m h ∧ h.1 ≠ e) as Hal.
    { intros h. rewrite alive_remove_edge.
      rewrite (alive_econn _ _ h Heq), alive_set_next. done. }
    split_and!.
    + apply (inv_econn (remove_edge (set_next m (prev m a) (next m o)) e));
        [by apply econn_remove_edge|].
      by apply (inv_relink_one m a).
    + intros h. rewrite Hal. tauto.
    + intros h. rewrite Hal. tauto.
    + intros h. rewrite Hal. tauto.
  - (* only the target is kept *)
    pose proof (econn_relink_source m (target m a) o a) as Heq.
    assert (∀ h, alive (remove_edge (relink_source m (target m a) o a) e) h
                 ↔ alive m h ∧ h.1 ≠ e) as Hal.
    { intros h. rewrite alive_remove_edge.
      rewrite (alive_econn _ _ h Heq), alive_set_next. done. }
    split_and!.
    + apply (inv_econn (remove_edge (set_next m (prev m o) (next m a)) e));
        [by apply econn_remove_edge|].
      by apply (inv_relink_one m o).
    + intros h. rewrite Hal. tauto.
    + intros h. rewrite Hal. tauto.
    + intros h. rewrite Hal. tauto.
  - (* no end is kept *)
    split_and!.
    + by apply inv_remove_unkept.
    + intros h. rewrite alive_remove_edge. tauto.
    + intros h. rewrite alive_remove_edge. tauto.
    + intros h. rewrite alive_remove_edge. tauto.
Qed.
End EdgeLoop.

Section EdgeLoopFold.
Context (fcm : gmap nat nat) (kv : gmap nat bool) (m0 : PolygonMesh).
Context (Hmarked : kept_faces_marked fcm kv m0).

Local Abbreviation K v := (get_kv kv v = true).
Local Abbreviation Inv := (edge_loop_inv fcm kv m0).

Lemma edge_loop_post es : ∀ m,
  NoDup es → (∀ e, e ∈ es → alive m (halfedge_e e)) → Inv m →
  (∀ h, alive m h → h.1 ∉ es → K (target m h) ∧ K (source m h)) →
  Inv (foldl (process_edge fcm kv) m es)
  ∧ ∀ h, alive (foldl (process_edge fcm kv) m es) h →
       K (target (foldl (process_edge fcm kv) m es) h)
       ∧ K (source (foldl (process_edge fcm kv) m es) h).
Proof using Hmarked.
  induction es as [|e es IH]; intros m Hnd Hal HI Hdone; simpl.
  { split; [done|]. intros h Hh. apply Hdone; [done|]. by intros ?%elem_of_nil. }
  apply NoDup_cons in Hnd as [He Hnd].
  destruct (process_edge_inv fcm kv m0 Hmarked m e HI) as (HI' & Hsub & Hkeep & Hproc);
    [apply Hal; by left|].
  apply IH; [done| |done|].
  - intros e' He'. apply Hkeep; [apply Hal; by right|].
    simpl. by intros ->.
  - intros h Hh Hhes.
    assert (∀ g, alive (process_edge fcm kv m e) g →
              target (process_edge fcm kv m e) g = target m g) as Htgt.
    { intros g Hg. rewrite (eli_target _ _ _ _ HI' g Hg).
      symmetry. apply (eli_target _ _ _ _ HI). by apply Hsub. }
    unfold source. rewrite !Htgt by done.
    destruct (decide (h.1 = e)) as [Heq|Hne].
    + destruct (Hproc h Hh Heq) as [HKt HKs].
      apply same_edge in Heq as [->| ->]; [done|].
      rewrite opposite_involutive. done.
    + apply Hdone; [by apply Hsub|]. by intros [?|?]%elem_of_cons.
Qed.
End EdgeLoopFold.

Lemma conn_econn m1 m2 h : econn m1 = econn m2 → conn m1 h = conn m2 h.
Proof. unfold conn. by intros ->. Qed.

(** What one iteration of the loop over the edges leaves as it is, and the
    faces it leaves on the edge it processes. *)
Lemma process_edge_frame fcm kv m e :
  alive m (halfedge_e e) →
  (∀ h, alive (process_edge fcm kv m e) h → alive m h)
  ∧ (∀ h, alive m h → h.1 ≠ e → alive (process_edge fcm kv m e) h)
  ∧ (∀ h, h.1 ≠ e → face (process_edge fcm kv m e) h = face m h)
  ∧ (∀ h f, alive (process_edge fcm kv m e) h → h.1 = e →
       face (process_edge fcm kv m e) h = Some f →
       truthy (get_fcm fcm f) = true).
Proof.
  intros Ha. set (a := halfedge_e e) in *. set (o := opposite a).
  assert (alive m o) as Ho by done.
  assert (∀ m1 m2 h, econn m1 = econn m2 → face m1 h = face m2 h) as Hface_econn.
  { intros m1 m2 h Heq. unfold face. by rewrite (conn_econn m1 m2). }
  assert (∀ m1 m', econn m' = econn (remove_edge m1 e) →
    (∀ h, alive m1 h ↔ alive m h) → (∀ h, face m1 h = face m h) →
    (∀ h, alive m' h → alive m h)
    ∧ (∀ h, alive m h → h.1 ≠ e → alive m' h)
    ∧ (∀ h, h.1 ≠ e → face m' h = face m h)
    ∧ (∀ h f, alive m' h → h.1 = e → face m' h = Some f →
         truthy (get_fcm fcm f) = true)) as Hremoved.
  { intros m1 m' Heq Hal Hfc.
    assert (∀ h, alive m' h ↔ alive m h ∧ h.1 ≠ e) as Hal'.
    { intros h. rewrite (alive_econn m' (remove_edge m1 e)) by done.
      by rewrite alive_remove_edge, Hal. }
    split_and!.
    - intros h. rewrite Hal'. tauto.
    - intros h. rewrite Hal'. tauto.
    - intros h Hh. rewrite (Hface_econn m' (remove_edge m1 e)) by done.
      by rewrite face_remove_edge, Hfc.
    - intros h f. rewrite Hal'. tauto. }
  unfold process_edge. fold a o.
  destruct (get_kv kv (source m a)) eqn:HKs;
    destruct (get_kv kv (target m a)) eqn:HKt; simpl.
  - unfold is_border, get_fcm_face.
    assert (∀ m', econn m' = econn m →
      (∀ h f, h.1 = e → face m h = Some f → truthy (get_fcm fcm f) = true) →
      (∀ h, alive m' h → alive m h)
      ∧ (∀ h, alive m h → h.1 ≠ e → alive m' h)
      ∧ (∀ h, h.1 ≠ e → face m' h = face m h)
      ∧ (∀ h f, alive m' h → h.1 = e → face m' h = Some f →
           truthy (get_fcm fcm f) = true)) as Hkeep.
    { intros m' Heq Hf. split_and!.
      - intros h. by rewrite (alive_econn m' m).
      - intros h. by rewrite (alive_econn m' m).
      - intros h _. by apply Hface_econn.
      - intros h f _ He. rewrite (Hface_econn m' m) by done. by apply Hf. }
    assert (∀ x f', (x = a ∨ x = o) → face m x = Some f' →
      (∀ f, face m (opposite x) = Some f → truthy (get_fcm fcm f) = true) →
      (∀ h, alive (set_face m x None) h → alive m h)
      ∧ (∀ h, alive m h → h.1 ≠ e → alive (set_face m x None) h)
      ∧ (∀ h, h.1 ≠ e → face (set_face m x None) h = face m h)
      ∧ (∀ h f, alive (set_face m x None) h → h.1 = e →
           face (set_face m x None) h = Some f →
           truthy (get_fcm fcm f) = true)) as Hcut.
    { intros x f' Hx Hfx Hother.
      assert (alive m x) as Hax by (by destruct Hx as [-> | ->]).
      assert (x.1 = e) as Hxe by (by destruct Hx as [-> | ->]).
      split_and!.
      - intros h. by rewrite alive_set_face.
      - intros h. by rewrite alive_set_face.
      - intros h Hh. rewrite face_set_face by done.
        rewrite decide_False; [done|]. intros ->. done.
      - intros h f _ Hh. rewrite face_set_face by done.
        case_decide as Hc; [done|]. intros Hf. apply Hother.
        rewrite <-Hxe in Hh. apply same_edge_sides in Hh as [->| ->]; done. }
    assert (∀ m', econn m' = econn (remove_edge
               (set_next (set_next m (prev m a) (next m o))
                  (prev (set_next m (prev m a) (next m o)) o)
                  (next (set_next m (prev m a) (next m o)) a)) e) →
      (∀ h, alive m' h → alive m h)
      ∧ (∀ h, alive m h → h.1 ≠ e → alive m' h)
      ∧ (∀ h, h.1 ≠ e → face m' h = face m h)
      ∧ (∀ h f, alive m' h → h.1 = e → face m' h = Some f →
           truthy (get_fcm fcm f) = true)) as Hrelink.
    { intros m' Heq. eapply Hremoved; [exact Heq|..].
      - intros h. by rewrite !alive_set_next.
      - intros h. by rewrite !face_set_next. }
    destruct (face m a) as [fa|] eqn:Hfa; destruct (face m o) as [fo|] eqn:Hfo;
      simpl.
    + destruct (truthy (get_fcm fcm fa)) eqn:Hka;
        destruct (truthy (get_fcm fcm fo)) eqn:Hko; simpl.
      * apply Hkeep; [done|]. intros h f [->| ->]%same_edge; fold a o; congruence.
      * apply (Hcut o fo); [by right|done|].
        intros f Hf. change (opposite o) with a in Hf. congruence.
      * apply (Hcut a fa); [by left|done|].
        intros f Hf. fold o in Hf. congruence.
      * apply Hrelink. by repeat case_decide.
    + destruct (truthy (get_fcm fcm fa)) eqn:Hka; simpl.
      * apply Hkeep; [done|]. intros h f [->| ->]%same_edge; fold a o; congruence.
      * apply Hrelink. by repeat case_decide.
    + destruct (truthy (get_fcm fcm fo)) eqn:Hko; simpl.
      * apply Hkeep; [done|]. intros h f [->| ->]%same_edge; fold a o; congruence.
      * apply Hrelink. by repeat case_decide.
    + apply Hkeep; [done|]. intros h f [->| ->]%same_edge; fold a o; congruence.
  - eapply Hremoved.
    + apply econn_remove_edge, econn_relink_source.
    + intros h. by rewrite alive_set_next.
    + intros h. by rewrite face_set_next.
  - eapply Hremoved.
    + apply econn_remove_edge, econn_relink_source.
    + intros h. by rewrite alive_set_next.
    + intros h. by rewrite face_set_next.
  - by eapply (Hremoved m).
Qed.

Lemma edge_loop_faces fcm kv es : ∀ m,
  NoDup es → (∀ e, e ∈ es → alive m (halfedge_e e)) →
  (∀ h f, alive m h → h.1 ∉ es → face m h = Some f →
     truthy (get_fcm fcm f) = true) →
  ∀ h f, alive (foldl (process_edge fcm kv) m es) h →
    face (foldl (process_edge fcm kv) m es) h = Some f →
    truthy (get_fcm fcm f) = true.
Proof.
  induction es as [|e es IH]; intros m Hnd Hal Hdone; simpl.
  { intros h f Hh. apply Hdone; [done|]. by intros ?%elem_of_nil. }
  apply NoDup_cons in Hnd as [He Hnd].
  destruct (process_edge_frame fcm kv m e) as (Hsub & Hkeep & Hface & Hon);
    [apply Hal; by left|].
  apply IH; [done| |].
  - intros e' He'. apply Hkeep; [apply Hal; by right|]. simpl. by intros ->.
  - intros h f Hh Hhes. destruct (decide (h.1 = e)) as [Heq|Hne].
    + by apply Hon.
    + rewrite Hface by done. apply Hdone; [by apply Hsub|].
      by intros [?|?]%elem_of_cons.
Qed.

(** ** The loops over the faces and the vertices *)

Lemma fconn_process_edge fcm kv m e : fconn (process_edge fcm kv m e) = fconn m.
Proof.
  unfold process_edge, relink_source.
  repeat (case_match; try done); repeat case_decide; done.
Qed.

Lemma dom_vconn_process_edge fcm kv m e :
  dom (vconn (process_edge fcm kv m e)) = dom (vconn m).
Proof.
  unfold process_edge, relink_source.
  repeat (case_match; try done); repeat case_decide; simpl;
    by rewrite ?dom_alter_L.
Qed.

Lemma fconn_edge_loop fcm kv es : ∀ m,
  fconn (foldl (process_edge fcm kv) m es) = fconn m.
Proof.
  induction es as [|e es IH]; intros m; simpl; [done|].
  by rewrite IH, fconn_process_edge.
Qed.

Lemma dom_vconn_edge_loop fcm kv es : ∀ m,
  dom (vconn (foldl (process_edge fcm kv) m es)) = dom (vconn m).
Proof.
  induction es as [|e es IH]; intros m; simpl; [done|].
  by rewrite IH, dom_vconn_process_edge.
Qed.

Lemma erase_faces_spec fcm fs : ∀ m,
  vconn (erase_faces fcm fs m) = vconn m
  ∧ econn (erase_faces fcm fs m) = econn m
  ∧ ∀ f, fconn (erase_faces fcm fs m) !! f
         = if decide (f ∈ fs ∧ get_fcm fcm f ≠ 1) then None else fconn m !! f.
Proof.
  unfold erase_faces. induction fs as [|x fs IH]; intros m; cbn [foldl].
  { split_and!; [done..|]. intros f. rewrite decide_False; [done|].
    by intros [?%elem_of_nil _]. }
  destruct (IH (if decide (get_fcm fcm x = 1) then m else remove_face m x))
    as (-> & -> & Hf).
  split_and!; [by case_decide..|]. intros f. rewrite Hf.
  destruct (decide (get_fcm fcm x = 1)) as [Hx|Hx]; simpl.
  - repeat case_decide; try done; set_solver.
  - destruct (decide (f = x)) as [->|Hne].
    + rewrite lookup_delete_eq. rewrite (decide_True (P:=x ∈ x :: fs ∧ _));
        [by case_decide|]. split; [by left|done].
    + rewrite lookup_delete_ne by done. repeat case_decide; try done; set_solver.
Qed.

Lemma erase_vertices_spec kv vs : ∀ m,
  econn (erase_vertices kv vs m) = econn m
  ∧ fconn (erase_vertices kv vs m) = fconn m
  ∧ ∀ v, vconn (erase_vertices kv vs m) !! v
         = if decide (v ∈ vs ∧ get_kv kv v = false) then None else vconn m !! v.
Proof.
  unfold erase_vertices. induction vs as [|x vs IH]; intros m; cbn [foldl].
  { split_and!; [done..|]. intros v. rewrite decide_False; [done|].
    by intros [?%elem_of_nil _]. }
  destruct (IH (if get_kv kv x then m else remove_vertex m x))
    as (-> & -> & Hv).
  split; [by destruct (get_kv kv x)|]. split; [by destruct (get_kv kv x)|].
  intros v. rewrite Hv.
  destruct (get_kv kv x) eqn:Hx; simpl.
  - repeat case_decide; try done; exfalso; set_unfold; naive_solver congruence.
  - destruct (decide (v = x)) as [->|Hne].
    + rewrite lookup_delete_eq. rewrite (decide_True (P:=x ∈ x :: vs ∧ _));
        [by case_decide|]. split; [by left|done].
    + rewrite lookup_delete_ne by done.
      repeat case_decide; try done; exfalso; set_unfold; naive_solver.
Qed.

Lemma classify_faces_spec cc keep fs : ∀ fcm f,
  NoDup fs →
  get_fcm (classify_faces cc keep fs fcm) f
  = if decide (f ∈ fs)
    then (if decide (get_fcm fcm f ∈ cc)
          then (if keep then 1 else 0) else (if keep then 0 else 1))
    else get_fcm fcm f.
Proof.
  unfold classify_faces. induction fs as [|x fs IH]; intros fcm f Hnd; cbn [foldl].
  { rewrite decide_False; [done|]. by intros ?%elem_of_nil. }
  apply NoDup_cons in Hnd as [Hx Hnd]. rewrite IH by done.
  assert (∀ y g, get_fcm (<[x:=y]> fcm) g = if decide (g = x) then y else get_fcm fcm g)
    as Hget.
  { intros y g. unfold get_fcm. rewrite lookup_insert.
    destruct (decide (x = g)) as [->|]; [by rewrite decide_True|].
    by rewrite decide_False. }
  destruct (decide (f = x)) as [->|Hne].
  - rewrite decide_False by done. rewrite (decide_True (P:=x ∈ x :: fs)) by by left.
    case_decide; by rewrite Hget, decide_True.
  - assert (get_fcm (if decide (get_fcm fcm x ∈ cc)
                     then <[x:=if keep then 1 else 0]> fcm
                     else <[x:=if keep then 0 else 1]> fcm) f = get_fcm fcm f)
      as -> by (case_decide; by rewrite Hget, decide_False).
    destruct (decide (f ∈ fs)) as [Hf|Hf].
    + rewrite (decide_True (P:=f ∈ x :: fs)); [done|by right].
    + rewrite (decide_False (P:=f ∈ x :: fs)); [done|].
      by intros [?|?]%elem_of_cons.
Qed.

Lemma get_kv_insert kv v b w :
  get_kv (<[v:=b]> kv) w = if decide (w = v) then b else get_kv kv w.
Proof.
  unfold get_kv. rewrite lookup_insert.
  destruct (decide (v = w)) as [->|]; [by rewrite decide_True|].
  by rewrite decide_False.
Qed.

Lemma init_keep_vertex vs : ∀ kv v,
  get_kv (foldl (λ kv v, <[v:=false]> kv) kv vs) v = true → get_kv kv v = true.
Proof.
  induction vs as [|x vs IH]; intros kv v; simpl; [done|].
  intros Hv%IH. rewrite get_kv_insert in Hv. by case_decide.
Qed.

Lemma mark_face_spec m hs : ∀ kv v,
  get_kv (mark_face m hs kv) v = true
  ↔ get_kv kv v = true ∨ ∃ h, h ∈ hs ∧ target m h = v.
Proof.
  unfold mark_face. induction hs as [|x hs IH]; intros kv v; simpl.
  { split; [by left|]. intros [?|(h & ?%elem_of_nil & _)]; done. }
  rewrite IH, get_kv_insert. split.
  - intros [Hv|(h & Hh & Hv)].
    + case_decide; [|by left]. right. exists x. split; [by left|done].
    + right. exists h. split; [by right|done].
  - intros [Hv|(h & [->|Hh]%elem_of_cons & Hv)].
    + left. by case_decide.
    + left. by rewrite decide_True.
    + right. eauto.
Qed.

Lemma mark_vertices_spec m fcm fs : ∀ kv0,
  (∀ f, f ∈ fs → get_fcm fcm f = 1 → is_Some (face_halfedges m f)) →
  ∃ kv, mark_vertices m fcm fs kv0 = Some kv
        ∧ ∀ v, get_kv kv v = true
               ↔ get_kv kv0 v = true
                 ∨ ∃ f hs h, f ∈ fs ∧ get_fcm fcm f = 1
                     ∧ face_halfedges m f = Some hs ∧ h ∈ hs ∧ target m h = v.
Proof.
  induction fs as [|x fs IH]; intros kv0 Hfs; simpl.
  { exists kv0. split; [done|]. intros v. split; [by left|].
    intros [?|(f & ? & ? & ?%elem_of_nil & _)]; done. }
  destruct (decide (get_fcm fcm x = 1)) as [Hx|Hx].
  - destruct (Hfs x) as [hs Hhs]; [by left|done|]. rewrite Hhs; simpl.
    destruct (IH (mark_face m hs kv0)) as (kv & -> & Hkv).
    { intros; apply Hfs; [by right|done]. }
    exists kv. split; [done|]. intros v. rewrite Hkv, mark_face_spec. split.
    + intros [[?|(h & ? & ?)]|(f & hs' & h & ? & ?)]; [by left| |].
      * right. exists x, hs, h. split_and!; try done. by left.
      * right. exists f, hs', h. split; [by right|done].
    + intros [?|(f & hs' & h & [->|?]%elem_of_cons & ? & ? & ? & ?)].
      * by left; left.
      * simplify_eq. left; right; eauto.
      * right. exists f, hs', h. done.
  - destruct (IH kv0) as (kv & -> & Hkv).
    { intros; apply Hfs; [by right|done]. }
    exists kv. split; [done|]. intros v. rewrite Hkv. split.
    + intros [?|(f & hs' & h & ? & ?)]; [by left|].
      right. exists f, hs', h. split; [by right|done].
    + intros [?|(f & hs' & h & [->|?]%elem_of_cons & ? & ?)]; [by left|done|].
      right. exists f, hs', h. done.
Qed.

Lemma wf_source_prev m h : wf_mesh m → alive m h → target m (prev m h) = source m h.
Proof.
  intros Hwf Hh.
  destruct (wf_mesh_halfedge m h Hwf Hh) as (_ & Hp & _ & Hnp & _).
  destruct (wf_mesh_halfedge m _ Hwf Hp) as (_ & _ & _ & _ & Hs & _).
  by rewrite Hnp in Hs.
Qed.

Lemma wf_initial_inv fcm kv m : wf_mesh m → edge_loop_inv fcm kv m m.
Proof.
  intros Hwf. split; try done.
  - intros h Hh _. by destruct (wf_mesh_halfedge m h Hwf Hh)
      as (? & ? & ? & ? & ? & _).
  - intros h Hh _. destruct (wf_mesh_halfedge m h Hwf Hh)
      as (_ & Hp & _ & Hnp & _).
    split_and!; [done..|]. by apply wf_source_prev.
  - intros h Hh. by destruct (wf_mesh_halfedge m h Hwf Hh)
      as (_ & _ & _ & _ & _ & ? & _).
Qed.

Lemma classify_faces_tag cc keep fs fcm f :
  NoDup fs → f ∈ fs →
  get_fcm (classify_faces cc keep fs fcm) f = 0
  ∨ get_fcm (classify_faces cc keep fs fcm) f = 1.
Proof.
  intros Hnd Hf. rewrite classify_faces_spec by done.
  rewrite decide_True by done. case_decide; destruct keep; auto.
Qed.

Lemma truthy_tag n : n = 0 ∨ n = 1 → truthy n = true → n = 1.
Proof. by intros [->| ->]. Qed.

Lemma keep_or_remove_spec m comps fcm keep :
  wf_mesh m →
  let fcm' := classify_faces (list_to_set comps) keep (faces m) fcm in
  ∃ m', keep_or_remove_connected_components m comps fcm keep = Some (m', fcm')
        ∧ (∀ f, f ∈ faces m' ↔ f ∈ faces m ∧ get_fcm fcm' f = 1)
        ∧ no_dangling m'.
Proof.
  intros Hwf fcm'. unfold keep_or_remove_connected_components. fold fcm'.
  set (kv0 := foldl (λ kv v, <[v:=false]> kv) ∅ (vertices m)).
  destruct (mark_vertices_spec m fcm' (faces m) kv0) as (kv & -> & Hkv).
  { intros f Hf _. destruct (wf_mesh_face m f Hwf Hf) as (hs & -> & _). done. }
  assert (∀ v, get_kv kv v = true ↔
            ∃ f hs h, f ∈ faces m ∧ get_fcm fcm' f = 1
              ∧ face_halfedges m f = Some hs ∧ h ∈ hs ∧ target m h = v) as Hkv'.
  { intros v. rewrite Hkv. split; [|by right]. intros [Hv|?]; [|done].
    by apply init_keep_vertex in Hv. }
  clear Hkv. simpl.
  assert (kept_faces_marked fcm' kv m) as Hmarked.
  { intros h f Hh Hf Hk.
    assert (f ∈ faces m) as Hfin by by eapply wf_mesh_face_exists.
    destruct (wf_mesh_face m f Hwf Hfin) as (hs & Hhs & Hchar).
    destruct (wf_mesh_halfedge m h Hwf Hh)
      as (_ & Hp & _ & _ & _ & _ & _ & Hpf & _).
    split; apply Hkv'.
    - exists f, hs, h. split_and!; try done. by apply Hchar.
    - exists f, hs, (prev m h). split_and!; try done.
      + apply Hchar. split; [done|congruence].
      + by apply wf_source_prev. }
  set (m1 := foldl (process_edge fcm' kv) m (edges m)).
  destruct (edge_loop_post fcm' kv m Hmarked (edges m) m) as [HI Hends].
  { apply NoDup_fst_map_to_list. }
  { intros e He. by apply elem_of_edges in He. }
  { by apply wf_initial_inv. }
  { intros h Hh Hne. destruct Hne. by apply elem_of_edges. }
  fold m1 in HI, Hends.
  set (m2 := erase_faces fcm' (faces m1) m1).
  set (m3 := erase_vertices kv (vertices m2) m2).
  destruct (erase_faces_spec fcm' (faces m1) m1) as (Hv2 & He2 & Hf2).
  destruct (erase_vertices_spec kv (vertices m2) m2) as (He3 & Hf3 & Hv3).
  fold m2 in Hv2, He2, Hf2. fold m3 in He3, Hf3, Hv3.
  assert (fconn m1 = fconn m) as Hf1 by apply fconn_edge_loop.
  assert (faces m1 = faces m) as Hfs1 by (unfold faces; by rewrite Hf1).
  assert (econn m3 = econn m1) as He31 by congruence.
  assert (∀ h, conn m3 h = conn m1 h) as Hconn
    by (intros h; by apply conn_econn).
  assert (∀ h, alive m3 h ↔ alive m1 h) as Hal
    by (intros h; unfold alive; by rewrite He31).
  assert (∀ f, f ∈ faces m3 ↔ f ∈ faces m ∧ get_fcm fcm' f = 1) as Hfaces.
  { intros f. rewrite !elem_of_faces, Hf3, Hf2, Hfs1, Hf1.
    case_decide as Hc.
    - split; [by intros [? ?]|]. intros [_ ?]. by destruct Hc.
    - split; [|by intros [? _]]. intros Hf. split; [done|].
      apply elem_of_faces in Hf. destruct (decide (get_fcm fcm' f = 1)); [done|].
      by destruct Hc. }
  assert (∀ h f, alive m1 h → face m1 h = Some f → f ∈ faces m3) as Hface3.
  { intros h f Hh Hf. apply Hfaces.
    assert (f ∈ faces m) as Hfin.
    { apply (wf_mesh_face_exists m h); [done| |].
      - by apply (eli_alive _ _ _ _ HI).
      - by apply (eli_face _ _ _ _ HI). }
    split; [done|]. apply truthy_tag.
    - apply classify_faces_tag; [apply NoDup_fst_map_to_list|done].
    - apply (edge_loop_faces fcm' kv (edges m) m) with h; try done.
      + apply NoDup_fst_map_to_list.
      + intros e He. by apply elem_of_edges in He.
      + intros h' f' Hh' Hne. destruct Hne. by apply elem_of_edges. }
  exists m3. split_and!; [done|done|]. split_and!.
  - intros v Hv. apply elem_of_vertices in Hv. rewrite Hv3 in Hv.
    case_decide as Hc; [by destruct Hv|].
    assert (get_kv kv v = true) as HK.
    { destruct (get_kv kv v) eqn:HK; [done|]. destruct Hc. split; [|done].
      by apply elem_of_vertices. }
    apply Hkv' in HK as (f & hs & h & Hf & Hk & Hhs & Hh & Ht).
    destruct (wf_mesh_face m f Hwf Hf) as (hs' & Hhs' & Hchar). simplify_eq.
    apply Hchar in Hh as [Hh Hhf].
    destruct (eli_kept _ _ _ _ HI h f Hh Hhf Hk) as [Hh1 Hhf1].
    exists h, f. unfold target, face. rewrite Hconn. split_and!.
    + by apply Hal.
    + by apply (eli_target _ _ _ _ HI).
    + done.
    + by apply Hfaces.
  - intros h Hh%Hal. destruct (Hends h Hh) as [HKt HKs].
    destruct (eli_next _ _ _ _ HI h Hh HKt) as (Hn & _).
    destruct (eli_prev _ _ _ _ HI h Hh HKs) as (Hp & _).
    assert (next m3 h = next m1 h) as -> by (unfold next; by rewrite Hconn).
    assert (prev m3 h = prev m1 h) as -> by (unfold prev; by rewrite Hconn).
    assert (target m3 h = target m1 h) as -> by (unfold target; by rewrite Hconn).
    assert (face m3 h = face m1 h) as -> by (unfold face; by rewrite Hconn).
    split_and!.
    + by apply Hal.
    + by apply Hal.
    + by apply Hal.
    + apply elem_of_vertices. rewrite Hv3.
      rewrite decide_False by (intros [_ ?]; congruence).
      rewrite Hv2. apply elem_of_dom.
      unfold m1. rewrite dom_vconn_edge_loop. apply elem_of_dom.
      fold m1. rewrite (eli_target _ _ _ _ HI h Hh).
      apply (eli_alive _ _ _ _ HI) in Hh.
      by destruct (wf_mesh_halfedge m h Hwf Hh)
        as (_ & _ & _ & _ & _ & _ & _ & _ & ? & _).
    + intros f. by apply Hface3.
  - intros f h Hfh. unfold halfedge_f in Hfh.
    assert (f ∈ faces m3) as Hin by (apply elem_of_faces; by eexists).
    apply Hfaces in Hin as [Hfin Hk].
    rewrite Hf3, Hf2, decide_False, Hf1 in Hfh by (intros [_ ?]; done).
    destruct (wf_mesh_face_halfedge m f h Hwf Hfh) as [Hh Hhf].
    destruct (eli_kept _ _ _ _ HI h f Hh Hhf Hk) as [Hh1 Hhf1].
    split; [by apply Hal|]. unfold face. by rewrite Hconn.
Qed.

Lemma foldl_fixed {A B} (g : A → B → A) (a : A) (l : list B) :
  (∀ x, x ∈ l → g a x = a) → foldl g a l = a.
Proof.
  induction l as [|x l IH]; intros Hl; simpl; [done|].
  rewrite Hl by by left. apply IH. intros; apply Hl; by right.
Qed.

(** When every face is tagged kept and no vertex is isolated, the excision
    changes nothing. *)
Lemma keep_or_remove_all_kept m comps fcm keep :
  wf_mesh m → every_vertex_on_face m →
  let fcm' := classify_faces (list_to_set comps) keep (faces m) fcm in
  (∀ f, f ∈ faces m → get_fcm fcm' f = 1) →
  keep_or_remove_connected_components m comps fcm keep = Some (m, fcm').
Proof.
  intros Hwf Hon fcm' Hall. unfold keep_or_remove_connected_components.
  fold fcm'.
  set (kv0 := foldl (λ kv v, <[v:=false]> kv) ∅ (vertices m)).
  destruct (mark_vertices_spec m fcm' (faces m) kv0) as (kv & -> & Hkv).
  { intros f Hf _. destruct (wf_mesh_face m f Hwf Hf) as (hs & -> & _). done. }
  simpl.
  assert (∀ v, v ∈ vertices m → get_kv kv v = true) as HK.
  { intros v Hv. apply Hkv. right.
    destruct (Hon v Hv) as (h & f & Hh & Ht & Hf).
    assert (f ∈ faces m) as Hfin by by eapply wf_mesh_face_exists.
    destruct (wf_mesh_face m f Hwf Hfin) as (hs & Hhs & Hchar).
    exists f, hs, h. split_and!; [done|by apply Hall|done|by apply Hchar|done]. }
  assert (∀ h, alive m h → get_kv kv (target m h) = true) as HKt.
  { intros h Hh. apply HK, elem_of_vertices.
    by destruct (wf_mesh_halfedge m h Hwf Hh)
      as (_ & _ & _ & _ & _ & _ & _ & _ & ? & _). }
  assert (∀ h f, alive m h → face m h = Some f → truthy (get_fcm fcm' f) = true)
    as Hkept.
  { intros h f Hh Hf. apply truthy_1, Hall. by eapply wf_mesh_face_exists. }
  assert (foldl (process_edge fcm' kv) m (edges m) = m) as ->.
  { apply foldl_fixed. intros e He%elem_of_edges.
    assert (alive m (halfedge_e e)) as Ha by done.
    assert (alive m (opposite (halfedge_e e))) as Ho by done.
    unfold process_edge, source. rewrite !HKt by done. simpl.
    unfold is_border, get_fcm_face.
    destruct (face m (halfedge_e e)) as [fa|] eqn:Hfa;
      destruct (face m (opposite (halfedge_e e))) as [fo|] eqn:Hfo; simpl;
      rewrite ?(Hkept _ fa Ha Hfa), ?(Hkept _ fo Ho Hfo); done. }
  assert (erase_faces fcm' (faces m) m = m) as ->.
  { apply foldl_fixed. intros f Hf. by rewrite decide_True by by apply Hall. }
  assert (erase_vertices kv (vertices m) m = m) as ->.
  { apply foldl_fixed. intros v Hv. by rewrite HK. }
  done.
Qed.

(** [C8]: in the loop over the edges, let both ends of the edge [e] be kept,
    let the face on the side [x] of [e] be tagged kept, and let the other
    side be a border halfedge or have a face that is tagged removed. Then
    processing [e] leaves the edge in the mesh, and afterwards the other
    side is a border halfedge, while [x] still has its face. *)
Theorem process_edge_carves_border fcm kv m e x f :
  alive m (halfedge_e e) → x.1 = e →
  get_kv kv (source m (halfedge_e e)) = true →
  get_kv kv (target m (halfedge_e e)) = true →
  face m x = Some f → get_fcm fcm f = 1 →
  (face m (opposite x) = None
   ∨ ∃ f', face m (opposite x) = Some f' ∧ get_fcm fcm f' = 0) →
  e ∈ edges (process_edge fcm kv m e)
  ∧ face (process_edge fcm kv m e) (opposite x) = None
  ∧ face (process_edge fcm kv m e) x = Some f.
Proof.
  intros Ha Hx HKs HKt Hf Hk Hother. rewrite elem_of_edges.
  change (is_Some (econn (process_edge fcm kv m e) !! e))
    with (alive (process_edge fcm kv m e) (halfedge_e e)).
  assert (alive m (opposite (halfedge_e e))) as Ho by done.
  assert (process_edge fcm kv m e
          = match face m (opposite x) with
            | Some _ => set_face m (opposite x) None
            | None => m
            end)
    as ->.
  { unfold process_edge. rewrite HKs, HKt. cbn [negb andb].
    unfold is_border, get_fcm_face.
    apply same_edge in Hx as [->| ->]; rewrite ?opposite_involutive in *;
      rewrite Hf; cbn [from_option]; rewrite Hk;
      destruct Hother as [Hn|(f' & Hf' & Hk')]; rewrite ?Hn, ?Hf';
      cbn [from_option]; rewrite ?Hk'; done. }
  assert (alive m (opposite x)) as Hox.
  { apply same_edge in Hx as [->| ->]; done. }
  destruct Hother as [Hn|(f' & Hf' & Hk')]; rewrite ?Hn, ?Hf'; [done|].
  rewrite alive_set_face, !face_set_face by done.
  rewrite decide_True by done.
  rewrite decide_False by (symmetry; apply opposite_ne). done.
Qed.

Lemma process_edge_carves_border_witness :
  let fcm : gmap nat nat := {[0 := 1; 1 := 0]} in
  let kv : gmap nat bool := {[0 := true; 1 := true; 2 := true; 3 := true]} in
  2 ∈ edges (process_edge fcm kv quad 2)
  ∧ face (process_edge fcm kv quad 2) (opposite (2, false)) = None
  ∧ face (process_edge fcm kv quad 2) (2, false) = Some 0.
Proof.
  apply (process_edge_carves_border _ _ quad 2 (2, false) 0);
    try compute_done.
  right. exists 1. split; compute_done.
Defined.

(** [C9]: with an empty range, [remove_connected_components] returns at
    once; the mesh and the face-component map are as they were. *)
Theorem remove_empty_range_noop m fcm :
  remove_connected_components m [] fcm = Some (m, fcm).
Proof. done. Qed.

Lemma mark_vertices_none m fcm fs : ∀ kv,
  (∀ f, f ∈ fs → get_fcm fcm f ≠ 1) → mark_vertices m fcm fs kv = Some kv.
Proof.
  induction fs as [|x fs IH]; intros kv Hfs; simpl; [done|].
  rewrite decide_False by (apply Hfs; by left).
  apply IH. intros; apply Hfs; by right.
Qed.

Lemma process_edge_unkept fcm kv m e :
  (∀ v, get_kv kv v = false) → process_edge fcm kv m e = remove_edge m e.
Proof. intros Hkv. unfold process_edge. by rewrite !Hkv. Qed.

Lemma remove_edges_spec es : ∀ m,
  vconn (foldl remove_edge m es) = vconn m
  ∧ fconn (foldl remove_edge m es) = fconn m
  ∧ ∀ e, econn (foldl remove_edge m es) !! e
         = if decide (e ∈ es) then None else econn m !! e.
Proof.
  induction es as [|x es IH]; intros m; cbn [foldl].
  { split_and!; [done..|]. intros e. rewrite decide_False; [done|].
    by intros ?%elem_of_nil. }
  destruct (IH (remove_edge m x)) as (-> & -> & He).
  split_and!; [done..|]. intros e. rewrite He. simpl.
  destruct (decide (e = x)) as [->|Hne].
  - rewrite lookup_delete_eq, (decide_True (P:=x ∈ x :: es)) by by left.
    by case_decide.
  - rewrite lookup_delete_ne by done. destruct (decide (e ∈ es)).
    + rewrite decide_True; [done|by right].
    + rewrite decide_False; [done|]. by intros [?|?]%elem_of_cons.
Qed.

Lemma keys_empty {A} (m : gmap nat A) : m = ∅ → (map_to_list m).*1 = [].
Proof. intros ->. by rewrite map_to_list_empty. Qed.

(** [C10]: [keep_connected_components] with an empty range is not a no-op.
    No face is tagged kept, so no vertex is marked, and every edge, every
    face and every vertex is erased. *)
Theorem keep_nothing_erases_everything m fcm :
  ∃ m' fcm', keep_connected_components m [] fcm = Some (m', fcm')
             ∧ faces m' = [] ∧ vertices m' = []
             ∧ edges m' = [] ∧ halfedges m' = [].
Proof.
  unfold keep_connected_components, keep_or_remove_connected_components.
  set (fcm' := classify_faces (list_to_set []) true (faces m) fcm).
  set (kv0 := foldl (λ kv v, <[v:=false]> kv) ∅ (vertices m)).
  assert (∀ f, f ∈ faces m → get_fcm fcm' f ≠ 1) as Hnone.
  { intros f Hf. unfold fcm'.
    rewrite classify_faces_spec by apply NoDup_fst_map_to_list.
    rewrite decide_True by done. rewrite decide_False; [done|].
    simpl. apply not_elem_of_empty. }
  assert (∀ v, get_kv kv0 v = false) as Hkv.
  { intros v. destruct (get_kv kv0 v) eqn:Hv; [|done].
    by apply init_keep_vertex in Hv. }
  rewrite mark_vertices_none by done. simpl.
  assert (∀ es m1, foldl (process_edge fcm' kv0) m1 es = foldl remove_edge m1 es)
    as ->.
  { induction es as [|e es IH]; intros m1; simpl; [done|].
    rewrite process_edge_unkept by done. apply IH. }
  set (m1 := foldl remove_edge m (edges m)).
  destruct (remove_edges_spec (edges m) m) as (Hv1 & Hf1 & He1).
  fold m1 in Hv1, Hf1, He1.
  set (m2 := erase_faces fcm' (faces m1) m1).
  set (m3 := erase_vertices kv0 (vertices m2) m2).
  destruct (erase_faces_spec fcm' (faces m1) m1) as (Hv2 & He2 & Hf2).
  destruct (erase_vertices_spec kv0 (vertices m2) m2) as (He3 & Hf3 & Hv3).
  fold m2 in Hv2, He2, Hf2. fold m3 in He3, Hf3, Hv3.
  assert (faces m1 = faces m) as Hfs1 by (unfold faces; by rewrite Hf1).
  assert (fconn m3 = ∅) as Hf.
  { apply map_empty. intros f. rewrite Hf3, Hf2, Hfs1, Hf1.
    case_decide as Hc; [done|]. apply eq_None_not_Some.
    intros Hf%elem_of_faces. apply Hc. split; [done|by apply Hnone]. }
  assert (vconn m3 = ∅) as Hv.
  { apply map_empty. intros v. rewrite Hv3.
    case_decide as Hc; [done|]. apply eq_None_not_Some.
    intros Hv%elem_of_vertices. apply Hc. split; [done|by apply Hkv]. }
  assert (econn m3 = ∅) as He.
  { apply map_empty. intros e. rewrite He3, He2, He1.
    case_decide as Hc; [done|]. apply eq_None_not_Some.
    by intros Hin%elem_of_edges. }
  exists m3, fcm'. split; [done|].
  assert (edges m3 = []) as Hedges by by apply keys_empty.
  split_and!; [by apply keys_empty..|done|].
  unfold halfedges. by rewrite Hedges.
Qed.

(** ** Ranking the components *)

Lemma count_faces_fmap face_cc num fs : ∀ c : nat → nat,
  count_faces face_cc fs ((λ i, (i, c i)) <$> seq 0 num)
  = (λ i, (i, c i + length (filter (λ f, get_fcm face_cc f = i) fs)))
      <$> seq 0 num.
Proof.
  unfold count_faces. induction fs as [|x fs IH]; intros c; cbn [foldl].
  { apply list_fmap_ext. intros _ i _. simpl. by rewrite Nat.add_0_r. }
  set (j := get_fcm face_cc x).
  assert (alter (λ p : nat * nat, (p.1, S p.2)) j ((λ i, (i, c i)) <$> seq 0 num)
          = (λ i, (i, if decide (i = j) then S (c i) else c i)) <$> seq 0 num)
    as ->.
  { apply list_eq. intros i. rewrite list_lookup_alter, !list_lookup_fmap.
    destruct (decide (j = i)) as [->|Hne].
    - destruct (seq 0 num !! i) as [i'|] eqn:Hi; simpl; [|done].
      apply lookup_seq in Hi as [-> _]. simpl. by rewrite decide_True.
    - destruct (seq 0 num !! i) as [i'|] eqn:Hi; simpl; [|done].
      apply lookup_seq in Hi as [-> _]. simpl. by rewrite decide_False. }
  rewrite IH. apply list_fmap_ext. intros _ i _. simpl. f_equal.
  rewrite filter_cons. fold j.
  destruct (decide (i = j)) as [->|Hne].
  - rewrite decide_True by done. simpl. lia.
  - rewrite decide_False by done. done.
Qed.

Lemma count_faces_spec face_cc m num :
  count_faces face_cc (faces m) (init_component_size num)
  = (λ i, (i, component_size face_cc m i)) <$> seq 0 num.
Proof.
  unfold init_component_size. by rewrite (count_faces_fmap _ _ _ (λ _, 0)).
Qed.

Lemma keep_connected_components_faces m ids fcm :
  wf_mesh m →
  ∃ m' fcm', keep_connected_components m ids fcm = Some (m', fcm')
             ∧ (∀ f, f ∈ faces m' ↔ f ∈ faces m ∧ get_fcm fcm f ∈ ids)
             ∧ no_dangling m'.
Proof.
  intros Hwf. destruct (keep_or_remove_spec m ids fcm true Hwf)
    as (m' & Hrun & Hfaces & Hnd).
  eexists m', _. split; [done|]. split; [|done].
  intros f. rewrite Hfaces. split; intros [Hf Hk]; (split; [done|]);
    rewrite classify_faces_spec in * by apply NoDup_fst_map_to_list;
    rewrite decide_True in * by done.
  - case_decide as Hc; [|done]. by apply elem_of_list_to_set in Hc.
  - rewrite decide_True; [done|]. by apply elem_of_list_to_set.
Qed.

Lemma connected_components_count m fcm ecm :
  wf_mesh m →
  ∃ fcm' count,
    connected_components m fcm ecm = Some (fcm', count)
    ∧ component_count m ecm count
    ∧ (∀ f, f ∈ faces m → get_fcm fcm' f < count)
    ∧ (∀ i, i < count → ∃ f, f ∈ faces m ∧ get_fcm fcm' f = i)
    ∧ (∀ f g, f ∈ faces m → g ∈ faces m →
         get_fcm fcm' f = get_fcm fcm' g ↔ connected m ecm f g).
Proof.
  intros Hwf.
  destruct (connected_components_labels m fcm ecm Hwf)
    as (fcm' & count & Hrun & Hrange & Hused & Hsame).
  exists fcm', count.
  assert (∀ f, f ∈ faces m → get_fcm fcm' f < count) as Hrange'.
  { intros f Hf. destruct (Hrange f Hf) as (i & Hi & ?). unfold get_fcm.
    by rewrite Hi. }
  assert (∀ i, i < count → ∃ f, f ∈ faces m ∧ get_fcm fcm' f = i) as Hused'.
  { intros i Hi. destruct (Hused i Hi) as (f & ? & Hf). exists f.
    split; [done|]. unfold get_fcm. by rewrite Hf. }
  split_and!; try done.
  assert (∀ n, n ≤ count → ∃ reps, length reps = n
            ∧ ∀ i, i < n → ∃ r, reps !! i = Some r
                 ∧ r ∈ faces m ∧ get_fcm fcm' r = i) as Hreps.
  { induction n as [|n IH]; intros Hn.
    - exists []. split; [done|]. intros; lia.
    - destruct IH as (reps & Hlen & Hr); [lia|].
      destruct (Hused' n) as (f & Hf & Hfn); [lia|].
      exists (reps ++ [f]). split; [rewrite length_app; simpl; lia|].
      intros i Hi. destruct (decide (i = n)) as [->|Hne].
      + exists f. split; [|done]. rewrite lookup_app_r by lia.
        by rewrite Hlen, Nat.sub_diag.
      + destruct (Hr i) as (r & ? & ?); [lia|]. exists r.
        split; [|done]. rewrite lookup_app_l by lia. done. }
  destruct (Hreps count) as (reps & Hlen & Hr); [done|].
  exists reps. split_and!; [done| | |].
  - intros r (i & Hi)%list_elem_of_lookup.
    destruct (Hr i) as (r' & ? & ? & _); [apply lookup_lt_Some in Hi; lia|].
    by simplify_eq.
  - intros f Hf. destruct (Hr (get_fcm fcm' f)) as (r & Hi & Hrf & Hlab);
      [by apply Hrange'|].
    exists r. split; [by eapply list_elem_of_lookup_2|]. by apply Hsame.
  - intros i j r r' Hi Hj Hconn.
    destruct (Hr i) as (r1 & ? & ? & Hl1); [apply lookup_lt_Some in Hi; lia|].
    destruct (Hr j) as (r2 & ? & ? & Hl2); [apply lookup_lt_Some in Hj; lia|].
    simplify_eq. by apply Hsame.
Qed.

Lemma sort_by_size_spec : std_sort_spec MoreSecond sort_by_size.
Proof.
  assert (Transitive not_after) as Htrans.
  { intros a b c. unfold not_after, MoreSecond. rewrite !Nat.ltb_ge. lia. }
  assert (Total not_after) as Htotal.
  { intros a b. unfold not_after, MoreSecond. rewrite !Nat.ltb_ge. lia. }
  intros l. split.
  - apply merge_sort_Permutation.
  - by apply (StronglySorted_merge_sort not_after).
Qed.

Lemma filter_component_size (P : nat → Prop) `{!∀ n, Decision (P n)}
    (c : nat → nat) (l : list nat) :
  (filter (λ p : nat * nat, P p.2) ((λ i, (i, c i)) <$> l)).*1
  = filter (λ i, P (c i)) l.
Proof.
  induction l as [|x l IH]; [done|]. rewrite fmap_cons, !filter_cons. simpl.
  case_decide; simpl; by rewrite <-IH.
Qed.

Lemma fst_component_size (c : nat → nat) (l : list nat) :
  ((λ i, (i, c i)) <$> l).*1 = l.
Proof. induction l as [|x l IH]; [done|]. rewrite !fmap_cons. by f_equal. Qed.

(** [C6]: when the labelling gives the ids [face_cc] and the count [num],
    [keep_large_connected_components] keeps exactly the faces whose
    component has at least [threshold] faces, and returns [num] minus the
    number of ids whose component has at least [threshold] faces. *)
Theorem keep_large_keeps_large_components m threshold ecmap face_cc num :
  wf_mesh m →
  connected_components m ∅ ecmap = Some (face_cc, num) →
  ∃ m', keep_large_connected_components m threshold ecmap
        = Some (m', num - length (filter
                         (λ i, threshold ≤ component_size face_cc m i)
                         (seq 0 num)))
        ∧ (∀ f, f ∈ faces m' ↔
             f ∈ faces m
             ∧ threshold ≤ component_size face_cc m (get_fcm face_cc f))
        ∧ no_dangling m'.
Proof.
  intros Hwf Hrun.
  destruct (connected_components_count m ∅ ecmap Hwf)
    as (fcm' & count & Hrun' & _ & Hrange & _). simplify_eq.
  unfold keep_large_connected_components. rewrite Hrun. simpl.
  rewrite count_faces_spec.
  rewrite (filter_component_size (λ n, threshold ≤ n)).
  destruct (keep_connected_components_faces m
              (filter (λ i, threshold ≤ component_size face_cc m i) (seq 0 num))
              face_cc Hwf) as (m' & fcm' & -> & Hfaces & Hnd).
  simpl. exists m'. split_and!; [done| |done].
  intros f. rewrite Hfaces, list_elem_of_filter, elem_of_seq.
  split; [tauto|]. intros [Hf Ht]. split_and!; [done..|lia|].
  specialize (Hrange f Hf). simpl. lia.
Qed.

Lemma keep_large_keeps_large_components_witness :
  wf_mesh two_triangles
  ∧ connected_components two_triangles ∅ No_constraint
    = Some ({[1 := 0; 0 := 1]}, 2)
  ∧ ∃ m', keep_large_connected_components two_triangles 1 No_constraint
        = Some (m', 2 - length (filter
                         (λ i, 1 ≤ component_size {[1 := 0; 0 := 1]} two_triangles i)
                         (seq 0 2)))
        ∧ (∀ f, f ∈ faces m' ↔
             f ∈ faces two_triangles
             ∧ 1 ≤ component_size {[1 := 0; 0 := 1]} two_triangles
                    (get_fcm {[1 := 0; 0 := 1]} f))
        ∧ no_dangling m'.
Proof.
  split; [compute_done|]. split; [vm_compute; reflexivity|].
  apply (keep_large_keeps_large_components two_triangles 1 No_constraint);
    [compute_done|vm_compute; reflexivity].
Defined.

(** [C5]: when the labelling gives the ids [face_cc] and the count [num],
    and [0 < k < num], [keep_largest_connected_components] returns
    [num - k] and keeps the faces of exactly [k] ids; each of these has at
    least as many faces as every id that is not kept. Which of several ids
    of equal size are kept is up to the sort. *)
Theorem keep_largest_keeps_k_largest sort m k ecmap face_cc num :
  wf_mesh m → std_sort_spec MoreSecond sort →
  connected_components m ∅ ecmap = Some (face_cc, num) →
  0 < k < num →
  ∃ m' kept,
    keep_largest_connected_components sort m k ecmap = Some (m', num - k)
    ∧ NoDup kept ∧ length kept = k
    ∧ (∀ i, i ∈ kept → i < num ∧ ∃ f, f ∈ faces m' ∧ get_fcm face_cc f = i)
    ∧ (∀ i j, i ∈ kept → j < num → j ∉ kept →
         component_size face_cc m j ≤ component_size face_cc m i)
    ∧ (∀ f, f ∈ faces m' ↔ f ∈ faces m ∧ get_fcm face_cc f ∈ kept)
    ∧ no_dangling m'.
Proof.
  intros Hwf Hsort Hrun Hk.
  destruct (connected_components_count m ∅ ecmap Hwf)
    as (fcm' & count & Hrun' & _ & Hrange & Hused & _). simplify_eq.
  unfold keep_largest_connected_components. rewrite Hrun. simpl.
  rewrite decide_False by lia. rewrite decide_False by lia.
  rewrite count_faces_spec.
  set (cs := (λ i, (i, component_size face_cc m i)) <$> seq 0 num).
  destruct (Hsort cs) as [Hperm Hsorted].
  set (sorted := sort cs) in *.
  set (kept := (take k sorted).*1).
  destruct (keep_connected_components_faces m kept face_cc Hwf)
    as (m' & fcm' & -> & Hfaces & Hnd).
  simpl. exists m', kept.
  assert (sorted.*1 ≡ₚ seq 0 num) as Hids.
  { rewrite Hperm. unfold cs. by rewrite fst_component_size. }
  assert (length sorted = num) as Hlen.
  { rewrite Hperm. unfold cs. by rewrite length_fmap, length_seq. }
  assert (kept ++ (drop k sorted).*1 = sorted.*1) as Hsplit.
  { unfold kept. by rewrite <-fmap_app, take_drop. }
  assert (NoDup (kept ++ (drop k sorted).*1)) as Hnodup.
  { rewrite Hsplit, Hids. apply NoDup_seq. }
  assert (∀ a, a ∈ sorted → a.2 = component_size face_cc m a.1) as Hsize.
  { intros a. rewrite Hperm. unfold cs.
    intros (i & -> & _)%list_elem_of_fmap. done. }
  assert (∀ i, i ∈ kept → i < num) as Hkept_lt.
  { intros i Hi. assert (i ∈ sorted.*1) as Hin
      by (rewrite <-Hsplit; apply elem_of_app; by left).
    rewrite Hids in Hin. apply elem_of_seq in Hin. lia. }
  split_and!; [done|by apply NoDup_app in Hnodup as (? & _)| | | |done|done].
  - unfold kept. rewrite length_fmap, length_take_le; [done|lia].
  - intros i Hi. split; [by apply Hkept_lt|].
    destruct (Hused i) as (f & Hf & Hfi); [by apply Hkept_lt|].
    exists f. split; [|done]. apply Hfaces. by rewrite Hfi.
  - intros i j Hi Hj Hjn.
    assert (j ∈ (drop k sorted).*1) as Hjd.
    { assert (j ∈ kept ++ (drop k sorted).*1) as [?|?]%elem_of_app; [|done..].
      rewrite Hsplit, Hids. apply elem_of_seq. lia. }
    apply list_elem_of_fmap in Hi as (a & -> & Ha).
    apply list_elem_of_fmap in Hjd as (b & -> & Hb).
    rewrite <-(take_drop k sorted) in Hsorted.
    pose proof (StronglySorted_app_1_elem_of _ _ _ a b Hsorted Ha Hb) as Hab.
    simpl in Hab. unfold MoreSecond in Hab. apply Nat.ltb_ge in Hab.
    rewrite <-!Hsize; [done|..].
    + rewrite <-(take_drop k sorted). apply elem_of_app. by left.
    + rewrite <-(take_drop k sorted). apply elem_of_app. by right.
Qed.

Lemma keep_largest_keeps_k_largest_witness :
  wf_mesh two_triangles ∧ std_sort_spec MoreSecond sort_by_size
  ∧ connected_components two_triangles ∅ No_constraint
    = Some ({[1 := 0; 0 := 1]}, 2)
  ∧ 0 < 1 < 2
  ∧ ∃ m' kept,
    keep_largest_connected_components sort_by_size two_triangles 1 No_constraint
    = Some (m', 2 - 1)
    ∧ NoDup kept ∧ length kept = 1
    ∧ (∀ i, i ∈ kept →
         i < 2 ∧ ∃ f, f ∈ faces m' ∧ get_fcm {[1 := 0; 0 := 1]} f = i)
    ∧ (∀ i j, i ∈ kept → j < 2 → j ∉ kept →
         component_size {[1 := 0; 0 := 1]} two_triangles j
         ≤ component_size {[1 := 0; 0 := 1]} two_triangles i)
    ∧ (∀ f, f ∈ faces m' ↔
         f ∈ faces two_triangles ∧ get_fcm {[1 := 0; 0 := 1]} f ∈ kept)
    ∧ no_dangling m'.
Proof.
  split; [compute_done|]. split; [apply sort_by_size_spec|].
  split; [vm_compute; reflexivity|]. split; [lia|].
  apply (keep_largest_keeps_k_largest sort_by_size two_triangles 1 No_constraint);
    [compute_done|apply sort_by_size_spec|vm_compute; reflexivity|lia].
Defined.

(** [C4]: asked to keep no component, [keep_largest_connected_components]
    clears the mesh, which then has no vertex, no halfedge and no face, and
    returns the number of connected components that the mesh had. *)
Theorem keep_largest_zero_clears sort m ecmap :
  wf_mesh m →
  ∃ m' num,
    keep_largest_connected_components sort m 0 ecmap = Some (m', num)
    ∧ component_count m ecmap num
    ∧ vertices m' = [] ∧ halfedges m' = [] ∧ faces m' = [].
Proof.
  intros Hwf.
  destruct (connected_components_count m ∅ ecmap Hwf)
    as (face_cc & num & Hrun & Hcount & _).
  exists (clear m), num. unfold keep_largest_connected_components.
  rewrite Hrun. simpl. done.
Qed.

Lemma keep_largest_zero_clears_witness :
  wf_mesh quad
  ∧ ∃ m' num,
      keep_largest_connected_components sort_by_size quad 0 diagonal_constrained
      = Some (m', num)
      ∧ component_count quad diagonal_constrained num
      ∧ vertices m' = [] ∧ halfedges m' = [] ∧ faces m' = [].
Proof.
  split; [compute_done|].
  apply (keep_largest_zero_clears sort_by_size quad diagonal_constrained).
  compute_done.
Defined.

(** A check of [every_vertex_on_face] that can be run. *)
Lemma every_vertex_on_face_check m :
  Forall (λ v, Exists (λ h, target m h = v ∧ is_Some (face m h)) (halfedges m))
    (vertices m) →
  every_vertex_on_face m.
Proof.
  rewrite Forall_forall. intros Hall v Hv.
  specialize (Hall v Hv). apply Exists_exists in Hall as (h & Hh & Ht & [f Hf]).
  exists h, f. split_and!; [by apply elem_of_halfedges|done..].
Qed.

(** [C3], amended: let the labelling give the count [num], and let
    [0 < k] and [num ≤ k]. Then [keep_largest_connected_components] returns
    [0] and keeps every face. It leaves the mesh as it is exactly if
    [num < k], or [num = 1], or every vertex is the target of a halfedge
    that has a face. (If [k = num] and [num ≠ 1] the excision runs with
    every id kept; it erases the vertices that are on no face, and with
    them the edges that only join such vertices.) *)
Theorem keep_largest_all_keeps_faces sort m k ecmap face_cc num :
  wf_mesh m → std_sort_spec MoreSecond sort →
  connected_components m ∅ ecmap = Some (face_cc, num) →
  0 < k → num ≤ k →
  ∃ m', keep_largest_connected_components sort m k ecmap = Some (m', 0)
        ∧ (∀ f, f ∈ faces m' ↔ f ∈ faces m)
        ∧ (m' = m ↔ num < k ∨ num = 1 ∨ every_vertex_on_face m).
Proof.
  intros Hwf Hsort Hrun Hk Hnum.
  destruct (connected_components_count m ∅ ecmap Hwf)
    as (fcm' & count & Hrun' & _ & Hrange & _). simplify_eq.
  unfold keep_largest_connected_components. rewrite Hrun. simpl.
  rewrite decide_False by lia.
  destruct (decide (num = 1 ∨ num < k)) as [Hc|Hc].
  { exists m. split_and!; [done..|]. split; [|done]. intros _.
    destruct Hc; auto. }
  assert (k = num) as -> by lia.
  rewrite count_faces_spec.
  set (cs := (λ i, (i, component_size face_cc m i)) <$> seq 0 num).
  destruct (Hsort cs) as [Hperm _].
  set (sorted := sort cs) in *.
  set (kept := (take num sorted).*1).
  assert (∀ f, f ∈ faces m → get_fcm face_cc f ∈ kept) as Hall.
  { intros f Hf. unfold kept.
    rewrite take_ge by (rewrite Hperm; unfold cs;
                        by rewrite length_fmap, length_seq).
    rewrite Hperm. unfold cs. rewrite fst_component_size.
    apply elem_of_seq. specialize (Hrange f Hf). lia. }
  destruct (keep_connected_components_faces m kept face_cc Hwf)
    as (m' & fcm' & Hkeep & Hfaces & Hnd).
  rewrite Hkeep. simpl. rewrite Nat.sub_diag. exists m'.
  split_and!; [done| |].
  - intros f. rewrite Hfaces. split; [tauto|]. intros Hf. split; [done|].
    by apply Hall.
  - split.
    + intros ->. right. right. intros v Hv.
      destruct Hnd as (Hvs & _).
      destruct (Hvs v Hv) as (h & f & ? & ? & ? & _). by exists h, f.
    + intros [?|[?|Hon]]; [lia..|].
      unfold keep_connected_components in Hkeep.
      rewrite (keep_or_remove_all_kept m kept face_cc true Hwf Hon) in Hkeep;
        [by simplify_eq|].
      intros f Hf. rewrite classify_faces_spec by apply NoDup_fst_map_to_list.
      rewrite decide_True by done. rewrite decide_True; [done|].
      apply elem_of_list_to_set. by apply Hall.
Qed.

Lemma keep_largest_all_keeps_faces_witness :
  wf_mesh quad ∧ std_sort_spec MoreSecond sort_by_size
  ∧ connected_components quad ∅ diagonal_constrained
    = Some ({[1 := 0; 0 := 1]}, 2)
  ∧ 0 < 2 ∧ 2 ≤ 2
  ∧ every_vertex_on_face quad
  ∧ ∃ m', keep_largest_connected_components sort_by_size quad 2
            diagonal_constrained = Some (m', 0)
        ∧ (∀ f, f ∈ faces m' ↔ f ∈ faces quad)
        ∧ (m' = quad ↔ 2 < 2 ∨ 2 = 1 ∨ every_vertex_on_face quad).
Proof.
  split; [compute_done|]. split; [apply sort_by_size_spec|].
  split; [vm_compute; reflexivity|]. split; [lia|]. split; [lia|].
  split; [apply every_vertex_on_face_check; compute_done|].
  apply (keep_largest_all_keeps_faces sort_by_size quad 2 diagonal_constrained
           {[1 := 0; 0 := 1]} 2);
    [compute_done|apply sort_by_size_spec|vm_compute; reflexivity|lia|lia].
Defined.

(** [C3] as stated fails: the mesh [two_triangles] has two components, and
    asked to keep two, [keep_largest_connected_components] erases the
    isolated vertex [6]. *)
Lemma keep_all_erases_isolated_vertex :
  wf_mesh two_triangles
  ∧ ∃ face_cc m',
      connected_components two_triangles ∅ No_constraint = Some (face_cc, 2)
      ∧ keep_largest_connected_components sort_by_size two_triangles 2
          No_constraint = Some (m', 0)
      ∧ 6 ∈ vertices two_triangles ∧ 6 ∉ vertices m'.
Proof.
  split; [compute_done|]. exists {[1 := 0; 0 := 1]}.
  assert (match keep_largest_connected_components sort_by_size two_triangles 2
                  No_constraint with
          | Some (m', r) => r = 0 ∧ 6 ∉ vertices m'
          | None => False
          end) as Hrun by compute_done.
  destruct (keep_largest_connected_components sort_by_size two_triangles 2
              No_constraint) as [[m' r]|]; [|done].
  destruct Hrun as [-> Hv]. exists m'.
  split_and!; [vm_compute; reflexivity|done|compute_done|done].
Qed.

(** * Further properties of the code *)

(** ** The comparator and the labelling *)

(** [X1]: [MoreSecond] is a strict weak ordering, as [std::sort] requires of
    its comparator: it is irreflexive and transitive, and so is
    incomparability. *)
Theorem MoreSecond_strict_weak_order :
  (∀ a, MoreSecond a a = false)
  ∧ (∀ a b c, MoreSecond a b = true → MoreSecond b c = true →
       MoreSecond a c = true)
  ∧ (∀ a b c, MoreSecond a b = false → MoreSecond b a = false →
       MoreSecond b c = false → MoreSecond c b = false →
       MoreSecond a c = false ∧ MoreSecond c a = false)
  ∧ (∀ a b, MoreSecond a b = false ∧ MoreSecond b a = false ↔ a.2 = b.2).
Proof.
  unfold MoreSecond. split_and!.
  - intros a. apply Nat.ltb_irrefl.
  - intros a b c. rewrite !Nat.ltb_lt. lia.
  - intros a b c. rewrite !Nat.ltb_ge. lia.
  - intros a b. rewrite !Nat.ltb_ge. lia.
Qed.

(** *** The labelling does not read the map it writes *)

Lemma label_component_union c comp : ∀ fcm,
  label_component c fcm comp = label_component c ∅ comp ∪ fcm.
Proof.
  intros fcm. apply map_eq. intros g.
  rewrite lookup_union, !label_component_lookup.
  case_decide; [by destruct (fcm !! g)|].
  rewrite lookup_empty. by destruct (fcm !! g).
Qed.

Lemma label_all_union adj fuel fs : ∀ fcm seen count,
  label_all adj fuel fs fcm seen count
  = (λ r, (r.1 ∪ fcm, r.2)) <$> label_all adj fuel fs ∅ seen count.
Proof.
  induction fs as [|f fs IH]; intros fcm seen count; cbn [label_all].
  { simpl. by rewrite (left_id_L ∅ (∪)). }
  case_decide; [apply IH|].
  destruct (traverse adj fuel [f] seen []) as [[seen' comp]|]; [|done].
  cbn [mbind option_bind]. 
  rewrite (IH (label_component count fcm comp)).
  rewrite (IH (label_component count ∅ comp)).
  rewrite (label_component_union count comp fcm).
  destruct (label_all adj fuel fs ∅ seen' (S count)) as [[d c]|]; [|done].
  simpl. by rewrite (assoc_L (∪)).
Qed.

(** [X2]: The labelling never reads the map it is given: started on a map
    [fcm] it returns the same count as on the empty map, and the map it
    returns is [fcm] with the entries of the faces of the mesh, and only
    these, overwritten by their ids. *)
Theorem connected_components_overwrites m fcm ecmap :
  wf_mesh m →
  ∃ ids count,
    connected_components m ∅ ecmap = Some (ids, count)
    ∧ connected_components m fcm ecmap = Some (ids ∪ fcm, count)
    ∧ ∀ f, is_Some (ids !! f) ↔ f ∈ faces m.
Proof.
  intros Hwf. unfold connected_components, boost_connected_components.
  destruct (label_all_post m ecmap Hwf (faces m) ∅ ∅ 0)
    as (ids & seen' & count & Hlab & [_ _ Hrange _ _] & _ & Hall & Hframe);
    [split; intros; first [set_solver|lia]|done|].
  exists ids, count. split_and!; [done| |].
  - rewrite label_all_union, Hlab. done.
  - intros f. split.
    + intros Hf. destruct (decide (f ∈ faces m)) as [|Hn]; [done|].
      rewrite (Hframe f Hn), lookup_empty in Hf. by destruct Hf.
    + intros Hf. destruct (Hrange f (Hall f Hf)) as (i & -> & _). by eexists.
Qed.

Lemma connected_components_overwrites_witness :
  wf_mesh quad
  ∧ ∃ ids count,
      connected_components quad ∅ diagonal_constrained = Some (ids, count)
      ∧ connected_components quad {[7 := 5]} diagonal_constrained
        = Some (ids ∪ {[7 := 5]}, count)
      ∧ ∀ f, is_Some (ids !! f) ↔ f ∈ faces quad.
Proof.
  split; [compute_done|].
  apply (connected_components_overwrites quad {[7 := 5]} diagonal_constrained).
  compute_done.
Defined.

(** *** [connected_component] and [connected_components] *)

Lemma connected_component_spec m ecmap seed_face :
  wf_mesh m → seed_face ∈ faces m →
  ∃ out, connected_component seed_face m ecmap = Some out
         ∧ NoDup out
         ∧ ∀ g, g ∈ out ↔ connected m ecmap seed_face g.
Proof.
  intros Hwf Hseed. unfold connected_component.
  set (sel := λ hd : nat * bool,
                if ecmap (edge hd) then None else face m (opposite hd)).
  assert (∀ hd n, sel hd = Some n → face m (opposite hd) = Some n) as Hsel.
  { intros hd n. unfold sel. by destruct (ecmap (edge hd)). }
  destruct (mesh_traverse_terminates m Hwf sel Hsel seed_face ∅ [] Hseed)
    as [[seen' out] Hrun].
  change (traverse (pushed_neighbors m ecmap) (traverse_fuel m) [seed_face] ∅ []
          = Some (seen', out)) in Hrun.
  rewrite Hrun. exists out. split; [done|].
  apply traverse_post in Hrun as (_ & Hst & (new & -> & Hnd & Hnew) & Hreach & Hcl).
  simpl. assert (seed_face ∈ seen') as Hin by (apply Hst; by left).
  split; [done|]. intros g. rewrite Hnew. split.
  - intros [Hg _]. destruct (Hreach g Hg) as (s & ->%list_elem_of_singleton & Hsg);
      [set_solver|].
    eapply rtc_subrel; [|done]. intros ???. by apply pushes_neighbors_adjacent.
  - intros Hconn. split; [|set_solver].
    apply (closed_connected m ecmap seen') with seed_face; [|done..].
    intros a b Ha Hab. apply (Hcl a b); [done|set_solver|].
    by apply pushes_neighbors_adjacent.
Qed.

(** [X3]: The two labelling functions agree: what [connected_component]
    outputs for a seed are the faces to which [connected_components], with
    the same constraint map, gives the id of the seed. *)
Theorem connected_component_same_id m fcm ecmap seed_face :
  wf_mesh m → seed_face ∈ faces m →
  ∃ fcm' count out,
    connected_components m fcm ecmap = Some (fcm', count)
    ∧ connected_component seed_face m ecmap = Some out
    ∧ ∀ g, g ∈ out ↔ g ∈ faces m ∧ get_fcm fcm' g = get_fcm fcm' seed_face.
Proof.
  intros Hwf Hseed.
  destruct (connected_components_labels m fcm ecmap Hwf)
    as (fcm' & count & Hlab & _ & _ & Hsame).
  destruct (connected_component_spec m ecmap seed_face Hwf Hseed)
    as (out & Hout & _ & Hreach).
  exists fcm', count, out. split_and!; [done..|]. intros g.
  rewrite Hreach. split.
  - intros Hconn. assert (g ∈ faces m) by by eapply connected_faces.
    split; [done|]. symmetry. by apply Hsame.
  - intros [Hg Heq]. by apply Hsame.
Qed.

Lemma connected_component_same_id_witness :
  wf_mesh quad ∧ 0 ∈ faces quad
  ∧ ∃ fcm' count out,
      connected_components quad ∅ diagonal_constrained = Some (fcm', count)
      ∧ connected_component 0 quad diagonal_constrained = Some out
      ∧ ∀ g, g ∈ out ↔ g ∈ faces quad ∧ get_fcm fcm' g = get_fcm fcm' 0.
Proof.
  split; [compute_done|]. split; [compute_done|].
  apply (connected_component_same_id quad ∅ diagonal_constrained 0);
    compute_done.
Defined.

(** [X4]: The outputs of [connected_component] for the faces of a mesh
    partition them: the outputs for two seeds have the same elements if one
    seed is in the output of the other, and no element in common
    otherwise. *)
Theorem connected_component_partition m ecmap f g :
  wf_mesh m → f ∈ faces m → g ∈ faces m →
  ∃ out_f out_g,
    connected_component f m ecmap = Some out_f
    ∧ connected_component g m ecmap = Some out_g
    ∧ (g ∈ out_f ↔ f ∈ out_g)
    ∧ (g ∈ out_f → ∀ x, x ∈ out_f ↔ x ∈ out_g)
    ∧ (g ∉ out_f → ∀ x, x ∈ out_f → x ∉ out_g).
Proof.
  intros Hwf Hf Hg.
  destruct (connected_component_spec m ecmap f Hwf Hf) as (o1 & ? & _ & Hrf).
  destruct (connected_component_spec m ecmap g Hwf Hg) as (o2 & ? & _ & Hrg).
  exists o1, o2.
  assert (∀ a b, connected m ecmap a b → connected m ecmap b a) as Hsym
    by (intros a b; by apply connected_sym).
  split_and!; [done..| | |].
  - rewrite Hrf, Hrg. split; apply Hsym.
  - intros Hfg%Hrf x. rewrite Hrf, Hrg. split; intros Hx.
    + etrans; [apply Hsym, Hfg|done].
    + by etrans.
  - intros Hfg x Hx%Hrf Hx'%Hrg. apply Hfg, Hrf.
    etrans; [done|by apply Hsym].
Qed.

Lemma connected_component_partition_witness :
  wf_mesh quad ∧ 0 ∈ faces quad ∧ 1 ∈ faces quad
  ∧ ∃ out_f out_g,
      connected_component 0 quad diagonal_constrained = Some out_f
      ∧ connected_component 1 quad diagonal_constrained = Some out_g
      ∧ (1 ∈ out_f ↔ 0 ∈ out_g)
      ∧ (1 ∈ out_f → ∀ x, x ∈ out_f ↔ x ∈ out_g)
      ∧ (1 ∉ out_f → ∀ x, x ∈ out_f → x ∉ out_g).
Proof.
  split; [compute_done|]. split; [compute_done|]. split; [compute_done|].
  apply (connected_component_partition quad diagonal_constrained 0 1);
    compute_done.
Defined.

(** *** The sizes of the components *)

Lemma sum_list_bump (a : nat → nat) (j n : nat) :
  j < n →
  sum_list ((λ i, (if decide (i = j) then 1 else 0) + a i) <$> seq 0 n)
  = S (sum_list (a <$> seq 0 n)).
Proof.
  induction n as [|n IH]; intros Hj; [lia|].
  rewrite seq_S, !fmap_app, !sum_list_with_app. simpl.
  destruct (decide (n = j)) as [->|Hne].
  - assert (sum_list ((λ i, (if decide (i = j) then 1 else 0) + a i) <$> seq 0 j)
            = sum_list (a <$> seq 0 j)) as ->; [|lia].
    f_equal. apply list_fmap_ext. intros k i Hi.
    apply lookup_seq in Hi as [-> ?]. rewrite decide_False by lia. done.
  - rewrite IH by lia. lia.
Qed.

Lemma sum_filter_classes (g : nat → nat) (l : list nat) (n : nat) :
  (∀ f, f ∈ l → g f < n) →
  sum_list ((λ i, length (filter (λ f, g f = i) l)) <$> seq 0 n) = length l.
Proof.
  induction l as [|x l IH]; intros Hl.
  { induction (seq 0 n) as [|? ? IH']; [done|]. by rewrite fmap_cons. }
  assert ((λ i, length (filter (λ f, g f = i) (x :: l))) <$> seq 0 n
          = (λ i, (if decide (i = g x) then 1 else 0)
                  + length (filter (λ f, g f = i) l)) <$> seq 0 n) as ->.
  { apply list_fmap_ext. intros _ i _. rewrite filter_cons.
    destruct (decide (i = g x)) as [->|Hne].
    - by rewrite decide_True.
    - rewrite decide_False; [done|congruence]. }
  rewrite sum_list_bump by (apply Hl; by left).
  rewrite IH; [done|]. intros; apply Hl; by right.
Qed.

(** [X5]: After the counting loop of [keep_largest_connected_components]
    and [keep_large_connected_components], the vector [component_size]
    holds the ids [0 .. num-1] in order, each with the number of faces that
    carry it; every size is positive, and the sizes add up to the number of
    faces of the mesh. *)
Theorem component_size_vector m ecmap face_cc num :
  wf_mesh m →
  connected_components m ∅ ecmap = Some (face_cc, num) →
  count_faces face_cc (faces m) (init_component_size num)
  = (λ i, (i, component_size face_cc m i)) <$> seq 0 num
  ∧ (∀ i, i < num → 0 < component_size face_cc m i)
  ∧ sum_list (count_faces face_cc (faces m) (init_component_size num)).*2
    = length (faces m).
Proof.
  intros Hwf Hrun.
  destruct (connected_components_count m ∅ ecmap Hwf)
    as (fcm' & count & Hrun' & _ & Hrange & Hused & _). simplify_eq.
  rewrite count_faces_spec. split_and!; [done| |].
  - intros i Hi. destruct (Hused i Hi) as (f & Hf & Hfi).
    unfold component_size.
    assert (f ∈ filter (λ f, get_fcm face_cc f = i) (faces m)) as Hin
      by by apply list_elem_of_filter.
    destruct (filter _ (faces m)); [by apply elem_of_nil in Hin|simpl; lia].
  - rewrite <-list_fmap_compose.
    apply (sum_filter_classes (get_fcm face_cc) (faces m) num Hrange).
Qed.

Lemma component_size_vector_witness :
  wf_mesh two_triangles
  ∧ connected_components two_triangles ∅ No_constraint
    = Some ({[1 := 0; 0 := 1]}, 2)
  ∧ count_faces {[1 := 0; 0 := 1]} (faces two_triangles) (init_component_size 2)
    = (λ i, (i, component_size {[1 := 0; 0 := 1]} two_triangles i)) <$> seq 0 2
  ∧ (∀ i, i < 2 → 0 < component_size {[1 := 0; 0 := 1]} two_triangles i)
  ∧ sum_list (count_faces {[1 := 0; 0 := 1]} (faces two_triangles)
                (init_component_size 2)).*2
    = length (faces two_triangles).
Proof.
  split; [compute_done|]. split; [vm_compute; reflexivity|].
  apply (component_size_vector two_triangles No_constraint);
    [compute_done|vm_compute; reflexivity].
Defined.

(** *** Counting components *)

Lemma sum_list_positive (l : list nat) :
  (∀ x, x ∈ l → 0 < x) → length l ≤ sum_list l.
Proof.
  induction l as [|x l IH]; intros Hl; simpl; [lia|].
  assert (0 < x) by (apply Hl; by left).
  assert (length l ≤ sum_list l) by (apply IH; intros; apply Hl; by right).
  lia.
Qed.

(** A choice of one witness for each index below [n]. *)
Lemma choose_below {A} (P : nat → A → Prop) (n : nat) :
  (∀ i, i < n → ∃ a, P i a) →
  ∃ l, length l = n ∧ ∀ i, i < n → ∃ a, l !! i = Some a ∧ P i a.
Proof.
  induction n as [|n IH]; intros Hn.
  { exists []. split; [done|]. intros; lia. }
  destruct IH as (l & Hlen & Hl); [intros; apply Hn; lia|].
  destruct (Hn n) as [a Ha]; [lia|].
  exists (l ++ [a]). split; [rewrite length_app; simpl; lia|].
  intros i Hi. destruct (decide (i = n)) as [->|Hne].
  - exists a. split; [|done]. rewrite lookup_app_r by lia.
    by rewrite Hlen, Nat.sub_diag.
  - destruct (Hl i) as (b & Hb & HP); [lia|]. exists b. split; [|done].
    by rewrite lookup_app_l by lia.
Qed.

Lemma surjection_le (n1 n2 : nat) (l : list nat) :
  length l = n2 → (∀ j, j < n1 → j ∈ l) → n1 ≤ n2.
Proof.
  intros <- Hsurj. trans (length (seq 0 n1)); [by rewrite length_seq|].
  apply submseteq_length, NoDup_submseteq; [apply NoDup_seq|].
  intros j Hj%elem_of_seq. apply Hsurj. lia.
Qed.

(** [X6]: on a well-formed mesh, the count that [connected_components]
    returns is at most the number of faces, and it is [0] exactly if the
    mesh has no face. *)
Theorem connected_components_count_bounds m fcm ecmap :
  wf_mesh m →
  ∃ fcm' count,
    connected_components m fcm ecmap = Some (fcm', count)
    ∧ count ≤ length (faces m)
    ∧ (count = 0 ↔ faces m = []).
Proof.
  intros Hwf.
  destruct (connected_components_count m fcm ecmap Hwf)
    as (fcm' & count & Hrun & _ & Hrange & Hused & _).
  exists fcm', count. split; [done|].
  assert (count ≤ length (faces m)) as Hle.
  { rewrite <-(sum_filter_classes (get_fcm fcm') (faces m) count Hrange).
    etrans; [|apply sum_list_positive].
    - by rewrite length_fmap, length_seq.
    - intros x (i & -> & Hi%elem_of_seq)%list_elem_of_fmap.
      destruct (Hused i) as (f & Hf & Hfi); [lia|].
      assert (f ∈ filter (λ f, get_fcm fcm' f = i) (faces m)) as Hin
        by by apply list_elem_of_filter.
      destruct (filter _ (faces m)); [by apply elem_of_nil in Hin|simpl; lia]. }
  split; [done|]. split.
  - intros ->. destruct (faces m) as [|f fs] eqn:Hfs; [done|].
    assert (get_fcm fcm' f < 0) by (apply Hrange; by left). lia.
  - intros Hnil. rewrite Hnil in Hle. simpl in Hle. lia.
Qed.

Lemma connected_components_count_bounds_witness :
  wf_mesh two_triangles
  ∧ ∃ fcm' count,
      connected_components two_triangles ∅ No_constraint = Some (fcm', count)
      ∧ count ≤ length (faces two_triangles)
      ∧ (count = 0 ↔ faces two_triangles = []).
Proof.
  split; [compute_done|].
  apply (connected_components_count_bounds two_triangles ∅ No_constraint).
  compute_done.
Defined.

(** *** Constraints only split components *)

Lemma adjacent_mono m (ecm1 ecm2 : nat → bool) f g :
  (∀ e, ecm1 e = true → ecm2 e = true) →
  adjacent m ecm2 f g → adjacent m ecm1 f g.
Proof.
  intros Hle (hs & hd & Hhs & Hhd & Hb & Hc & Hg).
  exists hs, hd. split_and!; try done.
  destruct (ecm1 (edge hd)) eqn:He; [|done].
  apply Hle in He. congruence.
Qed.

Lemma connected_mono m (ecm1 ecm2 : nat → bool) f g :
  (∀ e, ecm1 e = true → ecm2 e = true) →
  connected m ecm2 f g → connected m ecm1 f g.
Proof.
  intros Hle. induction 1 as [|f f' g Hadj _ IH]; [done|].
  eapply rtc_l; [|done]. by eapply adjacent_mono.
Qed.

(** [X7]: constraining more edges only splits components. If every edge
    constrained in [ecm1] is constrained in [ecm2], then two faces to
    which [connected_components] gives the same id under [ecm2] get the
    same id under [ecm1], and the count under [ecm1] is at most the count
    under [ecm2]. *)
Theorem constraints_refine_components m fcm ecm1 ecm2 :
  wf_mesh m → (∀ e, ecm1 e = true → ecm2 e = true) →
  ∃ ids1 n1 ids2 n2,
    connected_components m fcm ecm1 = Some (ids1, n1)
    ∧ connected_components m fcm ecm2 = Some (ids2, n2)
    ∧ (∀ f g, f ∈ faces m → g ∈ faces m →
         get_fcm ids2 f = get_fcm ids2 g → get_fcm ids1 f = get_fcm ids1 g)
    ∧ n1 ≤ n2.
Proof.
  intros Hwf Hle.
  destruct (connected_components_count m fcm ecm1 Hwf)
    as (ids1 & n1 & Hrun1 & _ & Hrange1 & Hused1 & Hsame1).
  destruct (connected_components_count m fcm ecm2 Hwf)
    as (ids2 & n2 & Hrun2 & _ & Hrange2 & Hused2 & Hsame2).
  exists ids1, n1, ids2, n2.
  assert (∀ f g, f ∈ faces m → g ∈ faces m →
            get_fcm ids2 f = get_fcm ids2 g → get_fcm ids1 f = get_fcm ids1 g)
    as Hrefine.
  { intros f g Hf Hg Heq. apply Hsame1; [done..|].
    apply (connected_mono m ecm1 ecm2); [done|]. by apply Hsame2. }
  split_and!; [done..|].
  destruct (choose_below (λ i f, f ∈ faces m ∧ get_fcm ids2 f = i) n2 Hused2)
    as (reps & Hlen & Hreps).
  apply (surjection_le n1 n2 (get_fcm ids1 <$> reps));
    [by rewrite length_fmap|].
  intros j Hj. destruct (Hused1 j Hj) as (f & Hf & Hfj).
  destruct (Hreps (get_fcm ids2 f)) as (r & Hr & Hrf & Hri); [by apply Hrange2|].
  apply list_elem_of_fmap. exists r. split.
  - rewrite <-Hfj. symmetry. by apply Hrefine.
  - by eapply list_elem_of_lookup_2.
Qed.

Lemma constraints_refine_components_witness :
  wf_mesh quad
  ∧ (∀ e, No_constraint e = true → diagonal_constrained e = true)
  ∧ ∃ ids1 n1 ids2 n2,
      connected_components quad ∅ No_constraint = Some (ids1, n1)
      ∧ connected_components quad ∅ diagonal_constrained = Some (ids2, n2)
      ∧ (∀ f g, f ∈ faces quad → g ∈ faces quad →
           get_fcm ids2 f = get_fcm ids2 g → get_fcm ids1 f = get_fcm ids1 g)
      ∧ n1 ≤ n2.
Proof.
  split; [compute_done|]. split; [done|].
  apply (constraints_refine_components quad ∅ No_constraint
           diagonal_constrained); [compute_done|done].
Defined.

(** ** The loop over the edges, edge by edge *)

(** *** The four outcomes of one iteration of the loop over the edges *)

Lemma process_edge_shape fcm kv m e :
  alive m (halfedge_e e) →
  (* the edge stays *)
  (get_kv kv (source m (halfedge_e e)) = true
   ∧ get_kv kv (target m (halfedge_e e)) = true
   ∧ (process_edge fcm kv m e = m
      ∨ ∃ x f, x.1 = e ∧ face m x = Some f ∧ truthy (get_fcm fcm f) = false
               ∧ process_edge fcm kv m e = set_face m x None))
  (* no end is kept *)
  ∨ (get_kv kv (source m (halfedge_e e)) = false
     ∧ get_kv kv (target m (halfedge_e e)) = false
     ∧ process_edge fcm kv m e = remove_edge m e)
  (* one end is kept *)
  ∨ (∃ x, x.1 = e
          ∧ get_kv kv (source m x) = true ∧ get_kv kv (target m x) = false
          ∧ econn (process_edge fcm kv m e)
            = econn (remove_edge
                       (set_next m (prev m x) (next m (opposite x))) e))
  (* both ends are kept, no side has a kept face, one side has a face *)
  ∨ (get_kv kv (source m (halfedge_e e)) = true
     ∧ get_kv kv (target m (halfedge_e e)) = true
     ∧ (∀ g f, g.1 = e → face m g = Some f → truthy (get_fcm fcm f) = false)
     ∧ econn (process_edge fcm kv m e)
       = econn (remove_edge
                  (set_next (set_next m (prev m (halfedge_e e))
                                        (next m (opposite (halfedge_e e))))
                     (prev (set_next m (prev m (halfedge_e e))
                                       (next m (opposite (halfedge_e e))))
                           (opposite (halfedge_e e)))
                     (next (set_next m (prev m (halfedge_e e))
                                       (next m (opposite (halfedge_e e))))
                           (halfedge_e e))) e)).
Proof.
  intros Ha. unfold process_edge.
  set (a := halfedge_e e) in *. set (o := opposite a).
  destruct (get_kv kv (source m a)) eqn:HKs;
    destruct (get_kv kv (target m a)) eqn:HKt; cbn [negb andb].
  - unfold is_border, get_fcm_face.
    destruct (face m a) as [fa|] eqn:Hfa; destruct (face m o) as [fo|] eqn:Hfo;
      simpl.
    + destruct (truthy (get_fcm fcm fa)) eqn:Hka;
        destruct (truthy (get_fcm fcm fo)) eqn:Hko; simpl.
      * left. auto.
      * left. split_and!; [done..|]. right. by exists o, fo.
      * left. split_and!; [done..|]. right. by exists a, fa.
      * do 3 right. split_and!; [done..| |by repeat case_decide].
        intros g f [->| ->]%same_edge; fold a o; congruence.
    + destruct (truthy (get_fcm fcm fa)) eqn:Hka; simpl; [left; auto|].
      do 3 right. split_and!; [done..| |by repeat case_decide].
      intros g f [->| ->]%same_edge; fold a o; congruence.
    + destruct (truthy (get_fcm fcm fo)) eqn:Hko; simpl; [left; auto|].
      do 3 right. split_and!; [done..| |by repeat case_decide].
      intros g f [->| ->]%same_edge; fold a o; congruence.
    + left. auto.
  - right; right; left. exists a. split_and!; [done..|].
    apply econn_remove_edge, econn_relink_source.
  - right; right; left. exists o. split_and!; [done..|].
    apply econn_remove_edge, econn_relink_source.
  - right; left. auto.
Qed.

Section KeptLinks.
Context (fcm : gmap nat nat) (kv : gmap nat bool) (m0 : PolygonMesh).
Context (Hmarked : kept_faces_marked fcm kv m0).

Local Abbreviation K v := (get_kv kv v = true).
Local Abbreviation Inv := (edge_loop_inv fcm kv m0).

(** An iteration changes the successor or the predecessor of a remaining
    halfedge only if that was on the processed edge and is erased with it. *)
Lemma process_edge_links m e h :
  Inv m → alive m (halfedge_e e) → alive (process_edge fcm kv m e) h →
  (next (process_edge fcm kv m e) h = next m h
   ∨ ¬ alive (process_edge fcm kv m e) (next m h))
  ∧ (prev (process_edge fcm kv m e) h = prev m h
     ∨ ¬ alive (process_edge fcm kv m e) (prev m h)).
Proof using Hmarked.
  intros HI Ha Hh.
  set (a := halfedge_e e) in *. set (o := opposite a).
  assert (alive m o) as Ho by done.
  assert (∀ m1 m2 g, econn m1 = econn m2 → next m1 g = next m2 g) as Hnext.
  { intros m1 m2 g Heq. unfold next. by rewrite (conn_econn m1 m2). }
  assert (∀ m1 m2 g, econn m1 = econn m2 → prev m1 g = prev m2 g) as Hprev.
  { intros m1 m2 g Heq. unfold prev. by rewrite (conn_econn m1 m2). }
  assert (∀ m1 m2 g, econn m2 = econn (remove_edge m1 e) → g.1 = e →
            ¬ alive m2 g) as Hdead.
  { intros m1 m2 g Heq Hg. rewrite (alive_econn m2 (remove_edge m1 e)) by done.
    rewrite alive_remove_edge. tauto. }
  assert (∀ m1, econn (process_edge fcm kv m e) = econn (remove_edge m1 e) →
            h.1 ≠ e) as Hoff.
  { intros m1 Heq Hhe. by apply (Hdead m1 _ h Heq Hhe). }
  destruct (process_edge_shape fcm kv m e Ha)
    as [(_ & _ & [Hr | (x & f & _ & _ & _ & Hr)])
       |[(_ & _ & Hr)
       |[(x & Hx & HKs & HKt & Heq)
        |(HKs & HKt & Hno & Heq)]]].
  - rewrite Hr. auto.
  - rewrite Hr, next_set_face, prev_set_face. auto.
  - assert (h.1 ≠ e) as He by (apply (Hoff m); by rewrite Hr).
    rewrite Hr, next_remove_edge, prev_remove_edge by done. auto.
  - assert (h.1 ≠ e) as He by by eapply Hoff.
    assert (alive m x) as Hax by (apply same_edge in Hx as [->| ->]; done).
    destruct (eli_prev _ _ _ _ HI x Hax HKs) as (Hp1 & Hp2 & Hp3).
    destruct (eli_next _ _ _ _ HI (opposite x)) as (Hx1 & Hx2 & Hx3);
      [done|done|].
    rewrite (Hnext _ _ h Heq), (Hprev _ _ h Heq).
    destruct (relink_one_fields m (prev m x) (next m (opposite x)) e h Hp1 Hx1)
      as [_ (-> & -> & _)]; [done|].
    split.
    + case_decide as Hc; [|by left]. right. subst h. rewrite Hp2.
      by eapply Hdead.
    + case_decide as Hc; [|by left]. right. subst h. rewrite Hx2.
      eapply Hdead; [done|]. by rewrite <-Hx.
  - assert (h.1 ≠ e) as He by by eapply Hoff.
    fold a o in Heq, HKs, HKt.
    assert (opposite o = a) as Hoo by apply opposite_involutive.
    assert (source m o = target m a) as Hso by (unfold source; by rewrite Hoo).
    destruct (eli_prev _ _ _ _ HI a Ha HKs) as (Hp1 & Hp2 & Hp3).
    destruct (eli_next _ _ _ _ HI o Ho HKs) as (Hx1 & Hx2 & Hx3).
    destruct (eli_prev _ _ _ _ HI o Ho) as (Hq1 & Hq2 & Hq3); [by rewrite Hso|].
    destruct (eli_next _ _ _ _ HI a Ha HKt) as (Hy1 & Hy2 & Hy3).
    pose proof (eli_no_loop _ _ _ _ HI a Ha) as Hnl.
    assert (prev m a ≠ a) as Hpa by (intros Hp; rewrite Hp in Hp3; congruence).
    assert (next m o ≠ o) as Hxo.
    { intros Hx. rewrite Hx in Hx3. unfold source in Hx3 at 1.
      rewrite Hoo in Hx3. apply Hnl. done. }
    rewrite prev_set_next, next_set_next in Heq by done.
    rewrite (decide_False (P:=o = next m o)) in Heq by done.
    rewrite (decide_False (P:=a = prev m a)) in Heq by done.
    rewrite (Hnext _ _ h Heq), (Hprev _ _ h Heq).
    destruct (relink_two_fields m (prev m a) (next m o) (prev m o) (next m a)
                e h Hp1 Hx1 Hq1 Hy1) as [_ (-> & -> & _)]; [done|].
    split.
    + destruct (decide (h = prev m o)) as [->|];
        [|destruct (decide (h = prev m a)) as [->|]; [|by left]].
      * right. rewrite Hq2. by eapply Hdead.
      * right. rewrite Hp2. by eapply Hdead.
    + destruct (decide (h = next m a)) as [->|];
        [|destruct (decide (h = next m o)) as [->|]; [|by left]].
      * right. rewrite Hy2. by eapply Hdead.
      * right. rewrite Hx2. by eapply Hdead.
Qed.

(** Through the loop, the halfedges of the kept faces keep their successor
    and their predecessor. *)
Lemma edge_loop_kept_links es : wf_mesh m0 → ∀ m,
  NoDup es → (∀ e, e ∈ es → alive m (halfedge_e e)) → Inv m →
  (∀ h f, alive m0 h → face m0 h = Some f → get_fcm fcm f = 1 →
     next m h = next m0 h ∧ prev m h = prev m0 h) →
  ∀ h f, alive m0 h → face m0 h = Some f → get_fcm fcm f = 1 →
    next (foldl (process_edge fcm kv) m es) h = next m0 h
    ∧ prev (foldl (process_edge fcm kv) m es) h = prev m0 h.
Proof using Hmarked.
  intros Hwf.
  induction es as [|e es IH]; intros m Hnd Hal HI Hlinks; simpl; [done|].
  apply NoDup_cons in Hnd as [He Hnd].
  assert (alive m (halfedge_e e)) as Ha by (apply Hal; by left).
  destruct (process_edge_inv fcm kv m0 Hmarked m e HI Ha)
    as (HI' & Hsub & Hkeep & _).
  apply IH; [done| |done|].
  { intros e' He'. apply Hkeep; [apply Hal; by right|]. simpl. by intros ->. }
  intros h f Hh Hf Hk.
  destruct (Hlinks h f Hh Hf Hk) as [Hn Hp].
  destruct (eli_kept _ _ _ _ HI' h f Hh Hf Hk) as [Hhm' _].
  destruct (wf_mesh_halfedge m0 h Hwf Hh)
    as (Hna & Hpa & _ & _ & _ & _ & Hnf & Hpf & _).
  rewrite Hf in Hnf, Hpf.
  destruct (eli_kept _ _ _ _ HI' _ f Hna Hnf Hk) as [Hn' _].
  destruct (eli_kept _ _ _ _ HI' _ f Hpa Hpf Hk) as [Hp' _].
  destruct (process_edge_links m e h HI Ha Hhm') as [Hl1 Hl2].
  rewrite <-Hn, <-Hp. split.
  - destruct Hl1 as [?|Hd]; [done|]. rewrite Hn in Hd. by destruct Hd.
  - destruct Hl2 as [?|Hd]; [done|]. rewrite Hp in Hd. by destruct Hd.
Qed.
End KeptLinks.

Lemma edge_stays_opposite fcm kv m h :
  edge_stays fcm kv m (opposite h) = edge_stays fcm kv m h.
Proof.
  unfold edge_stays, source. rewrite opposite_involutive.
  destruct (get_kv kv (target m h)), (get_kv kv (target m (opposite h))),
    (is_border m h), (is_border m (opposite h)),
    (get_fcm_face fcm (face m h)), (get_fcm_face fcm (face m (opposite h)));
    done.
Qed.

(** One iteration of the loop over the edges leaves the processed edge in
    the mesh exactly if [edge_stays] holds of it. *)
Lemma process_edge_alive fcm kv m e h :
  alive m (halfedge_e e) → h.1 = e →
  alive (process_edge fcm kv m e) h ↔ edge_stays fcm kv m h = true.
Proof.
  intros Ha He.
  assert (alive m h) as Hh by (unfold alive in *; by rewrite He).
  assert (edge_stays fcm kv m h = edge_stays fcm kv m (halfedge_e e)) as ->.
  { apply same_edge in He as [->| ->]; [done|apply edge_stays_opposite]. }
  unfold process_edge, edge_stays, is_border.
  set (a := halfedge_e e). set (o := opposite a).
  destruct (get_kv kv (source m a)), (get_kv kv (target m a));
    cbn [negb andb]; rewrite ?alive_remove_edge;
    try (split; [by intros [_ []]|done]).
  assert (∀ x : option nat, bool_decide (x = None) = match x with Some _ => false | None => true end)
    as Hb by (by intros []).
  rewrite !Hb.
  destruct (face m a) as [f|], (face m o) as [g|]; cbn [get_fcm_face from_option];
    try destruct (truthy (get_fcm fcm f)); try destruct (truthy (get_fcm fcm g));
    cbn [negb andb orb]; rewrite ?alive_set_face, ?alive_remove_edge;
    try done; (split; [by intros [_ []]|done]).
Qed.

Section EdgeLoopAlive.
Context (fcm : gmap nat nat) (kv : gmap nat bool) (m0 : PolygonMesh).
Context (Hmarked : kept_faces_marked fcm kv m0).
Local Abbreviation Inv := (edge_loop_inv fcm kv m0).

Lemma edge_loop_alive es : ∀ m,
  NoDup es → (∀ e, e ∈ es → alive m (halfedge_e e)) → Inv m →
  (∀ h, h.1 ∈ es → face m h = face m0 h) →
  ∀ h, alive (foldl (process_edge fcm kv) m es) h
       ↔ alive m h ∧ (h.1 ∈ es → edge_stays fcm kv m0 h = true).
Proof using Hmarked.
  induction es as [|e es IH]; intros m Hnd Hal HI Hface h; simpl.
  { split; [|by intros [? _]]. intros ?. split; [done|]. by intros ?%elem_of_nil. }
  apply NoDup_cons in Hnd as [He Hnd].
  assert (alive m (halfedge_e e)) as Ha by (apply Hal; by left).
  destruct (process_edge_inv fcm kv m0 Hmarked m e HI Ha)
    as (HI' & Hsub & Hkeep & _).
  destruct (process_edge_frame fcm kv m e Ha) as (_ & _ & Hfr & _).
  rewrite IH; [|done| |done|]; cycle 1.
  { intros e' He'. apply Hkeep; [apply Hal; by right|]. simpl. by intros ->. }
  { intros g Hg. rewrite Hfr by (intros Heq; by rewrite Heq in Hg). apply Hface. by right. }
  destruct (decide (h.1 = e)) as [Hhe|Hhe].
  - assert (alive m h) as Hh by (unfold alive in *; by rewrite Hhe).
    assert (edge_stays fcm kv m h = edge_stays fcm kv m0 h) as Hstays.
    { unfold edge_stays, source, is_border.
      rewrite !(eli_target _ _ _ _ HI) by done.
      rewrite !Hface by (simpl; rewrite ?Hhe; by left). done. }
    rewrite (process_edge_alive fcm kv m e h Ha Hhe), Hstays. split.
    + intros [? _]. split; [done|]. done.
    + intros [_ Hst]. split; [apply Hst; rewrite Hhe; by left|].
      intros Hin. rewrite Hhe in Hin. done.
  - split.
    + intros [Hh Hst]. split; [by apply Hsub|].
      intros [?|?]%elem_of_cons; [done|by apply Hst].
    + intros [Hh Hst]. split; [by apply Hkeep|].
      intros ?. apply Hst. by right.
Qed.
End EdgeLoopAlive.

(** ** The excision as a whole *)

Lemma keep_or_remove_detail m comps fcm keep :
  wf_mesh m →
  let fcm' := classify_faces (list_to_set comps) keep (faces m) fcm in
  ∃ m', keep_or_remove_connected_components m comps fcm keep = Some (m', fcm')
        ∧ excised m fcm' m'.
Proof.
  intros Hwf fcm'. unfold keep_or_remove_connected_components. fold fcm'.
  set (kv0 := foldl (λ kv v, <[v:=false]> kv) ∅ (vertices m)).
  destruct (mark_vertices_spec m fcm' (faces m) kv0) as (kv & -> & Hkv).
  { intros f Hf _. destruct (wf_mesh_face m f Hwf Hf) as (hs & -> & _). done. }
  assert (∀ v, get_kv kv v = true ↔ on_kept_face m fcm' v) as HK.
  { intros v. rewrite Hkv. split.
    - intros [Hv|(f & hs & h & Hf & Hk & Hhs & Hh & Ht)];
        [by apply init_keep_vertex in Hv|].
      destruct (wf_mesh_face m f Hwf Hf) as (hs' & Hhs' & Hchar). simplify_eq.
      apply Hchar in Hh as [Hh Hhf]. by exists h, f.
    - intros (h & f & Hh & Ht & Hf & Hk). right.
      assert (f ∈ faces m) as Hfin by by eapply wf_mesh_face_exists.
      destruct (wf_mesh_face m f Hwf Hfin) as (hs & Hhs & Hchar).
      exists f, hs, h. split_and!; try done. by apply Hchar. }
  clear Hkv. simpl.
  assert (kept_faces_marked fcm' kv m) as Hmarked.
  { intros h f Hh Hf Hk.
    destruct (wf_mesh_halfedge m h Hwf Hh)
      as (_ & Hp & _ & _ & _ & _ & _ & Hpf & _).
    split; apply HK.
    - by exists h, f.
    - exists (prev m h), f. split_and!; try done; [|congruence].
      by apply wf_source_prev. }
  assert (∀ f, f ∈ faces m → get_fcm fcm' f = 0 ∨ get_fcm fcm' f = 1) as Htag.
  { intros f Hf. by apply classify_faces_tag; [apply NoDup_fst_map_to_list|]. }
  set (m1 := foldl (process_edge fcm' kv) m (edges m)).
  assert (NoDup (edges m)) as Hnd by apply NoDup_fst_map_to_list.
  assert (∀ e, e ∈ edges m → alive m (halfedge_e e)) as Hes.
  { intros e He. by apply elem_of_edges in He. }
  destruct (edge_loop_post fcm' kv m Hmarked (edges m) m) as [HI Hends];
    [done|done|by apply wf_initial_inv| |].
  { intros h Hh Hne. destruct Hne. by apply elem_of_edges. }
  fold m1 in HI, Hends.
  pose proof (edge_loop_alive fcm' kv m Hmarked (edges m) m Hnd Hes
                (wf_initial_inv _ _ _ Hwf) (λ _ _, eq_refl)) as Halive.
  pose proof (edge_loop_kept_links fcm' kv m Hmarked (edges m) Hwf m Hnd Hes
                (wf_initial_inv _ _ _ Hwf) (λ _ _ _ _ _, conj eq_refl eq_refl))
    as Hlinks.
  fold m1 in Halive, Hlinks.
  set (m2 := erase_faces fcm' (faces m1) m1).
  set (m3 := erase_vertices kv (vertices m2) m2).
  destruct (erase_faces_spec fcm' (faces m1) m1) as (Hv2 & He2 & Hf2).
  destruct (erase_vertices_spec kv (vertices m2) m2) as (He3 & Hf3 & Hv3).
  fold m2 in Hv2, He2, Hf2. fold m3 in He3, Hf3, Hv3.
  assert (fconn m1 = fconn m) as Hf1 by apply fconn_edge_loop.
  assert (faces m1 = faces m) as Hfs1 by (unfold faces; by rewrite Hf1).
  assert (econn m3 = econn m1) as He31 by congruence.
  assert (∀ h, conn m3 h = conn m1 h) as Hconn
    by (intros h; by apply conn_econn).
  assert (∀ h, alive m3 h ↔ alive m1 h) as Hal
    by (intros h; unfold alive; by rewrite He31).
  assert (∀ h, next m3 h = next m1 h) as Hn3
    by (intros h; unfold next; by rewrite Hconn).
  assert (∀ h, prev m3 h = prev m1 h) as Hp3
    by (intros h; unfold prev; by rewrite Hconn).
  assert (∀ h, target m3 h = target m1 h) as Ht3
    by (intros h; unfold target; by rewrite Hconn).
  assert (∀ h, face m3 h = face m1 h) as Hfc3
    by (intros h; unfold face; by rewrite Hconn).
  assert (∀ h, source m3 h = source m1 h) as Hs3
    by (intros h; unfold source; by rewrite Ht3).
  exists m3. split; [done|]. split.
  - intros f. rewrite Hf3, Hf2, Hfs1, Hf1.
    destruct (decide (get_fcm fcm' f = 1)) as [Hk|Hk].
    + rewrite decide_False; [done|]. by intros [_ ?].
    + case_decide as Hc; [done|].
      destruct (fconn m !! f) eqn:Hlk; [|done]. destruct Hc.
      split; [|done]. apply elem_of_faces. by eexists.
  - intros v. rewrite elem_of_vertices, Hv3, Hv2, <-HK.
    destruct (get_kv kv v) eqn:Hkv.
    + rewrite decide_False by (intros [_ ?]; done). split; [done|]. intros _.
      apply elem_of_dom. unfold m1. rewrite dom_vconn_edge_loop.
      apply elem_of_dom, elem_of_vertices.
      apply HK in Hkv as (h & f & Hh & <- & _).
      apply elem_of_vertices.
      by destruct (wf_mesh_halfedge m h Hwf Hh)
        as (_ & _ & _ & _ & _ & _ & _ & _ & ? & _).
    + split; [|done]. case_decide as Hc; [by intros []|].
      intros Hv. destruct Hc. split; [|done]. apply elem_of_vertices. by rewrite Hv2.
  - intros h. rewrite Hal, Halive.
    cut (alive m h → ((h.1 ∈ edges m → edge_stays fcm' kv m h = true)
                       ↔ edge_kept m fcm' h)); [tauto|].
    intros Hh.
    assert (h.1 ∈ edges m) as Hin by by apply elem_of_edges.
    assert (∀ g f, alive m g → face m g = Some f →
              truthy (get_fcm fcm' f) = true ↔ get_fcm fcm' f = 1) as Htr.
    { intros g f Hg Hgf. split; [|apply truthy_1].
      apply truthy_tag, Htag. by eapply wf_mesh_face_exists. }
    unfold edge_stays, edge_kept, is_border. split.
    + intros Hst. specialize (Hst Hin).
      apply andb_true_iff in Hst as [[Hs Ht]%andb_true_iff Hst].
      apply orb_true_iff in Hst as [[Hst|Hst]%orb_true_iff|Hst].
      * apply andb_true_iff in Hst as [?%bool_decide_eq_true ?%bool_decide_eq_true].
        right. split_and!; [done|done|by apply HK|by apply HK].
      * left. destruct (face m h) as [f|] eqn:Hf; [|done]. exists f.
        split; [by left|]. by apply (Htr h).
      * left. destruct (face m (opposite h)) as [f|] eqn:Hf; [|done]. exists f.
        split; [by right|]. by apply (Htr (opposite h)).
    + intros Hk _.
      destruct Hk as [(f & [Hf|Hf] & Hk)|(Hf1' & Hf2' & Hs & Ht)].
      * destruct (Hmarked h f Hh Hf Hk) as [-> ->]. rewrite Hf.
        cbn [get_fcm_face from_option]. rewrite (truthy_1 _ Hk).
        by destruct (bool_decide _ && bool_decide _).
      * destruct (Hmarked (opposite h) f Hh Hf Hk) as [Ht Hs].
        unfold source in Hs. rewrite opposite_involutive in Hs.
        unfold source at 1. rewrite Ht, Hs, Hf.
        cbn [get_fcm_face from_option]. rewrite (truthy_1 _ Hk).
        destruct (bool_decide _ && bool_decide _); cbn [andb orb];
          by rewrite ?orb_true_r.
      * apply HK in Hs, Ht. rewrite Hs, Ht, Hf1', Hf2'. done.
  - intros h Hh%Hal. destruct (Hends h Hh) as [HKt HKs].
    destruct (eli_next _ _ _ _ HI h Hh HKt) as (Hn & Hpn & Hsn).
    destruct (eli_prev _ _ _ _ HI h Hh HKs) as (Hp & Hnp & Htp).
    rewrite ?Hn3, ?Hp3, ?Hs3, ?Ht3, ?Hn3, ?Hp3, ?Hal.
    split_and!; try done.
    + by apply (eli_target _ _ _ _ HI).
    + intros f. rewrite Hfc3. split.
      * intros Hf. pose proof (eli_face _ _ _ _ HI h f Hh Hf) as Hf0.
        split; [done|]. apply truthy_tag.
        { apply Htag. apply (wf_mesh_face_exists m h); [done| |done].
          by apply (eli_alive _ _ _ _ HI). }
        apply (edge_loop_faces fcm' kv (edges m) m Hnd Hes) with h; try done.
        intros h' f' Hh' Hne. destruct Hne. by apply elem_of_edges.
      * intros [Hf Hk].
        apply (eli_kept _ _ _ _ HI h f); [|done..].
        by apply (eli_alive _ _ _ _ HI).
    + by apply (eli_no_loop _ _ _ _ HI).
  - intros h f Hh Hf Hk. rewrite Hn3, Hp3. by apply (Hlinks h f).
Qed.

(** *** The walk around a face *)

Lemma walk_face_length_pos m fuel start : ∀ cur hs,
  walk_face m fuel start cur = Some hs → 0 < length hs ≤ fuel.
Proof.
  induction fuel as [|fuel IH]; intros cur hs Hw; [done|]. simpl in Hw.
  case_decide; simplify_eq/=; [lia|].
  destruct (walk_face m fuel start (next m cur)) as [hs'|] eqn:Hw';
    simplify_eq/=. apply IH in Hw'. lia.
Qed.

(** The result of a walk does not depend on the fuel. *)
Lemma walk_face_fuel m fuel start : ∀ fuel' cur hs,
  walk_face m fuel start cur = Some hs → length hs ≤ fuel' →
  walk_face m fuel' start cur = Some hs.
Proof.
  induction fuel as [|fuel IH]; intros fuel' cur hs Hw Hlen; [done|].
  destruct fuel' as [|fuel'].
  { apply walk_face_length_pos in Hw. lia. }
  simpl in Hw.
  simpl. case_decide; [done|].
  destruct (walk_face m fuel start (next m cur)) as [hs'|] eqn:Hw';
    simplify_eq/=. rewrite (IH fuel' _ hs') by (done || lia). done.
Qed.

(** The walk from a halfedge met on a walk is not longer than that walk. *)
Lemma walk_face_from m fuel start : ∀ cur hs x,
  walk_face m fuel start cur = Some hs → x ∈ hs →
  ∃ hs', walk_face m fuel start x = Some hs' ∧ length hs' ≤ length hs.
Proof.
  induction fuel as [|fuel IH]; intros cur hs x Hw Hx; [done|].
  pose proof Hw as Hw0. simpl in Hw. case_decide as Hc; simplify_eq/=.
  { apply list_elem_of_singleton in Hx as ->. exists [cur].
    split; [|done]. simpl. by rewrite decide_True. }
  destruct (walk_face m fuel start (next m cur)) as [hs1|] eqn:Hw';
    simplify_eq/=.
  apply elem_of_cons in Hx as [->|Hx].
  { exists (cur :: hs1). split; [|done]. simpl.
    rewrite decide_False by done. by rewrite Hw'. }
  destruct (IH _ _ x Hw' Hx) as (hs' & Hwx & Hlen).
  exists hs'. split; [|lia].
  change (walk_face m (S fuel) start x = Some hs').
  apply (walk_face_fuel m fuel); [done|]. apply walk_face_length_pos in Hwx. lia.
Qed.

Lemma walk_face_NoDup m fuel start : ∀ cur hs,
  walk_face m fuel start cur = Some hs → NoDup hs.
Proof.
  induction fuel as [|fuel IH]; intros cur hs Hw; [done|].
  pose proof Hw as Hw0. simpl in Hw. case_decide as Hc; simplify_eq/=.
  { apply NoDup_singleton. }
  destruct (walk_face m fuel start (next m cur)) as [hs1|] eqn:Hw';
    simplify_eq/=.
  apply NoDup_cons. split; [|by eapply IH].
  intros Hin. destruct (walk_face_from m fuel start _ _ cur Hw' Hin)
    as (hs' & Hwc & Hlen).
  apply (walk_face_fuel m fuel start (S fuel)) in Hwc;
    [|apply walk_face_length_pos in Hwc; lia].
  simpl in Hwc. rewrite decide_False, Hw' in Hwc by done. simplify_eq/=. lia.
Qed.

(** A walk only reads the successors of the halfedges it meets. *)
Lemma walk_face_ext m m' fuel start : ∀ cur hs,
  walk_face m fuel start cur = Some hs →
  (∀ h, h ∈ hs → next m' h = next m h) →
  walk_face m' fuel start cur = Some hs.
Proof.
  induction fuel as [|fuel IH]; intros cur hs Hw Hn; [done|].
  simpl in Hw. simpl.
  case_decide as Hc; simplify_eq/=.
  { rewrite Hn by by left. by rewrite decide_True. }
  destruct (walk_face m fuel start (next m cur)) as [hs1|] eqn:Hw';
    simplify_eq/=.
  rewrite Hn by by left. rewrite decide_False by done.
  rewrite (IH _ hs1 Hw'); [done|]. intros h Hh. apply Hn. by right.
Qed.

(** A closed walk that stays among the halfedges of [m'] and whose
    successors are the same in [m'] is also the walk in [m']. *)
Lemma face_walk_transfer m m' h0 hs :
  halfedges_around_face m h0 = Some hs →
  (∀ h, h ∈ hs → alive m' h ∧ next m' h = next m h) →
  halfedges_around_face m' h0 = Some hs.
Proof.
  unfold halfedges_around_face. intros Hw Hhs.
  apply (walk_face_ext m); [|intros h Hh; by apply Hhs].
  apply (walk_face_fuel m (num_halfedges m)); [done|].
  unfold num_halfedges. apply submseteq_length, NoDup_submseteq.
  - by eapply walk_face_NoDup.
  - intros h Hh. apply elem_of_halfedges. by apply Hhs.
Qed.

(** *** Consequences of [excised] *)

Lemma edge_kept_ends m fcm h :
  wf_mesh m → alive m h → edge_kept m fcm h →
  on_kept_face m fcm (target m h) ∧ on_kept_face m fcm (source m h).
Proof.
  intros Hwf Hh [(f & [Hf|Hf] & Hk)|(_ & _ & ? & ?)]; [| |done].
  - split; [by exists h, f|].
    destruct (wf_mesh_halfedge m h Hwf Hh)
      as (_ & Hp & _ & _ & _ & _ & _ & Hpf & _).
    exists (prev m h), f. split_and!; [done| |congruence|done].
    by apply wf_source_prev.
  - split; [|by exists (opposite h), f].
    destruct (wf_mesh_halfedge m (opposite h) Hwf Hh)
      as (_ & Hp & _ & _ & _ & _ & _ & Hpf & _).
    exists (prev m (opposite h)), f. split_and!; [done| |congruence|done].
    rewrite wf_source_prev by done. unfold source.
    by rewrite opposite_involutive.
Qed.

Section Excised.
Context (m : PolygonMesh) (fcm : gmap nat nat) (m' : PolygonMesh).
Context (Hwf : wf_mesh m) (Hex : excised m fcm m').

(** The halfedges of a kept face stay as they are. *)
Lemma excised_kept_halfedge h f :
  alive m h → face m h = Some f → get_fcm fcm f = 1 →
  alive m' h ∧ next m' h = next m h ∧ prev m' h = prev m h
  ∧ target m' h = target m h ∧ face m' h = Some f.
Proof using Hex.
  intros Hh Hf Hk.
  assert (alive m' h) as Hh'.
  { apply (ex_alive _ _ _ Hex). split; [done|]. left. exists f.
    split; [by left|done]. }
  destruct (ex_links _ _ _ Hex h f Hh Hf Hk) as [Hn Hp].
  destruct (ex_halfedge _ _ _ Hex h Hh') as (Ht & Hface & _).
  split_and!; [done..|]. by apply Hface.
Qed.

(** A kept face keeps its reference halfedge and the walk around it. *)
Lemma excised_kept_face f :
  f ∈ faces m → get_fcm fcm f = 1 →
  halfedge_f m' f = halfedge_f m f
  ∧ face_halfedges m' f = face_halfedges m f.
Proof using Hwf Hex.
  intros Hf Hk.
  assert (halfedge_f m' f = halfedge_f m f) as Hhf.
  { unfold halfedge_f. by rewrite (ex_fconn _ _ _ Hex), decide_True. }
  split; [done|].
  destruct (wf_mesh_face m f Hwf Hf) as (hs & Hhs & Hchar). rewrite Hhs.
  unfold face_halfedges in *. rewrite Hhf.
  destruct (halfedge_f m f) as [h0|]; [|done]. simpl in *.
  apply (face_walk_transfer m); [done|].
  intros h [Hhm Hface]%Hchar.
  by destruct (excised_kept_halfedge h f Hhm Hface Hk) as (? & ? & _).
Qed.

Lemma excised_faces f : f ∈ faces m' ↔ f ∈ faces m ∧ get_fcm fcm f = 1.
Proof using Hex.
  rewrite !elem_of_faces, (ex_fconn _ _ _ Hex).
  case_decide; [tauto|]. split; [by intros []|tauto].
Qed.

(** The successor and the predecessor of a remaining halfedge are on the
    same face as it is, or on none as it is. *)
Lemma excised_face_next h :
  alive m' h →
  face m' (next m' h) = face m' h ∧ face m' (prev m' h) = face m' h.
Proof using Hwf Hex.
  intros Hh.
  destruct (ex_halfedge _ _ _ Hex h Hh)
    as (_ & Hface & Hn & Hp & Hpn & Hnp & _).
  assert (alive m h) as Hhm by by apply (ex_alive _ _ _ Hex).
  destruct (wf_mesh_halfedge m h Hwf Hhm)
    as (Hna & Hpa & _ & _ & _ & _ & Hnf & Hpf & _).
  destruct (face m' h) as [f|] eqn:Hf'.
  - destruct (Hface f) as [[Hf Hk] _]; [done|].
    destruct (ex_links _ _ _ Hex h f Hhm Hf Hk) as [-> ->].
    rewrite Hf in Hnf, Hpf.
    split.
    + by destruct (excised_kept_halfedge _ f Hna Hnf Hk) as (_ & _ & _ & _ & ?).
    + by destruct (excised_kept_halfedge _ f Hpa Hpf Hk) as (_ & _ & _ & _ & ?).
  - split.
    + destruct (face m' (next m' h)) as [g|] eqn:Hg; [|done]. exfalso.
      destruct (ex_halfedge _ _ _ Hex _ Hn) as (_ & Hfn & _).
      apply Hfn in Hg as [Hg Hk].
      assert (alive m (next m' h)) as Hnm by by apply (ex_alive _ _ _ Hex).
      destruct (ex_links _ _ _ Hex _ g Hnm Hg Hk) as [_ Hpr].
      rewrite Hpn in Hpr.
      destruct (wf_mesh_halfedge m _ Hwf Hnm)
        as (_ & _ & _ & _ & _ & _ & _ & Hpf' & _).
      rewrite <-Hpr, Hg in Hpf'.
      assert (None = Some g) as Hc by by apply Hface. congruence.
    + destruct (face m' (prev m' h)) as [g|] eqn:Hg; [|done]. exfalso.
      destruct (ex_halfedge _ _ _ Hex _ Hp) as (_ & Hfp & _).
      apply Hfp in Hg as [Hg Hk].
      assert (alive m (prev m' h)) as Hpm by by apply (ex_alive _ _ _ Hex).
      destruct (ex_links _ _ _ Hex _ g Hpm Hg Hk) as [Hnx _].
      rewrite Hnp in Hnx.
      destruct (wf_mesh_halfedge m _ Hwf Hpm)
        as (_ & _ & _ & _ & _ & _ & Hnf' & _).
      rewrite <-Hnx, Hg in Hnf'.
      assert (None = Some g) as Hc by by apply Hface. congruence.
Qed.

Lemma excised_wf_halfedge h : alive m' h → wf_halfedge m' h.
Proof using Hwf Hex.
  intros Hh.
  destruct (ex_halfedge _ _ _ Hex h Hh)
    as (Ht & Hface & Hn & Hp & Hpn & Hnp & Hsn & Htp & Hne).
  destruct (excised_face_next h Hh) as [Hfn Hfp].
  pose proof Hh as [Hhm Hk]%(ex_alive _ _ _ Hex).
  split_and!; try done.
  - apply elem_of_vertices, (ex_vertices _ _ _ Hex). rewrite Ht.
    by apply edge_kept_ends.
  - destruct (face m' h) as [f|] eqn:Hf'; [|done]. simpl.
    apply elem_of_faces, excised_faces.
    destruct (Hface f) as [[Hf Hkf] _]; [done|]. split; [|done].
    by apply (wf_mesh_face_exists m h).
Qed.

Lemma excised_wf_face f : f ∈ faces m' → wf_face m' f.
Proof using Hwf Hex.
  intros [Hf Hk]%excised_faces. unfold wf_face.
  destruct (excised_kept_face f Hf Hk) as [_ ->].
  destruct (wf_mesh_face m f Hwf Hf) as (hs & -> & Hchar). simpl.
  split; apply Forall_forall.
  - intros h [Hh Hhf]%Hchar.
    by destruct (excised_kept_halfedge h f Hh Hhf Hk) as (? & _ & _ & _ & ?).
  - intros h Hh%elem_of_halfedges Hhf. apply Hchar.
    destruct (ex_halfedge _ _ _ Hex h Hh) as (_ & Hface & _).
    apply Hface in Hhf as [? _]. split; [|done].
    by apply (ex_alive _ _ _ Hex).
Qed.

(** Two faces are adjacent after the excision exactly if they were
    adjacent and both are kept. *)
Lemma excised_adjacent ecm f g :
  adjacent m' ecm f g
  ↔ adjacent m ecm f g ∧ get_fcm fcm f = 1 ∧ get_fcm fcm g = 1.
Proof using Hwf Hex.
  unfold adjacent. split.
  - intros (hs & hd & Hhs & Hhd & Hb & Hc & Hg).
    assert (f ∈ faces m') as Hf'.
    { apply elem_of_faces. unfold face_halfedges, halfedge_f in Hhs.
      destruct (fconn m' !! f); [by eexists|done]. }
    pose proof Hf' as [Hf Hk]%excised_faces.
    destruct (excised_kept_face f Hf Hk) as [_ Heq]. rewrite Heq in Hhs.
    destruct (wf_mesh_face m f Hwf Hf) as (hs' & Hhs' & Hchar). simplify_eq.
    apply Hchar in Hhd as [Hh Hhf].
    destruct (excised_kept_halfedge hd f Hh Hhf Hk) as (Hh' & _).
    destruct (ex_halfedge _ _ _ Hex (opposite hd) Hh') as (_ & Hface & _).
    apply Hface in Hg as [Hg Hkg].
    split_and!; [|done..]. exists hs, hd. split_and!; try done.
    + by apply Hchar.
    + rewrite is_border_edge_sides. apply orb_false_iff.
      split; apply is_border_false; by eexists.
  - intros [(hs & hd & Hhs & Hhd & Hb & Hc & Hg) [Hk Hkg]].
    assert (f ∈ faces m) as Hf.
    { apply elem_of_faces. unfold face_halfedges, halfedge_f in Hhs.
      destruct (fconn m !! f); [by eexists|done]. }
    destruct (excised_kept_face f Hf Hk) as [_ Heq].
    destruct (wf_mesh_face m f Hwf Hf) as (hs' & Hhs' & Hchar). simplify_eq.
    pose proof Hhd as [Hh Hhf]%Hchar.
    destruct (excised_kept_halfedge hd f Hh Hhf Hk) as (Hh' & _ & _ & _ & Hf').
    destruct (excised_kept_halfedge (opposite hd) g Hh Hg Hkg)
      as (_ & _ & _ & _ & Hg').
    exists hs, hd. split_and!; try done; [congruence|].
    rewrite is_border_edge_sides. apply orb_false_iff.
    split; apply is_border_false; by eexists.
Qed.
End Excised.

(** [X8]: on a well-formed mesh, the vertices that
    [keep_or_remove_connected_components] leaves are exactly the vertices
    on a kept face: the targets of the halfedges of the mesh whose face
    carries the tag [1] in the face-component map after the call. *)
Theorem excision_vertices m comps fcm keep :
  wf_mesh m →
  ∃ m' fcm',
    keep_or_remove_connected_components m comps fcm keep = Some (m', fcm')
    ∧ ∀ v, v ∈ vertices m' ↔ on_kept_face m fcm' v.
Proof.
  intros Hwf. destruct (keep_or_remove_detail m comps fcm keep Hwf)
    as (m' & Hrun & Hex).
  eexists m', _. split; [done|]. apply (ex_vertices _ _ _ Hex).
Qed.

Lemma excision_vertices_witness :
  wf_mesh two_triangles
  ∧ ∃ m' fcm',
      keep_or_remove_connected_components two_triangles [0] {[1 := 0; 0 := 1]}
        true = Some (m', fcm')
      ∧ ∀ v, v ∈ vertices m' ↔ on_kept_face two_triangles fcm' v.
Proof.
  split; [compute_done|].
  apply (excision_vertices two_triangles [0] {[1 := 0; 0 := 1]} true).
  compute_done.
Defined.

(** [X9]: the halfedges that the excision leaves are exactly those of the
    edges of the mesh that have a kept face on a side, or that have no face
    on either side and both ends on kept faces. *)
Theorem excision_edges m comps fcm keep :
  wf_mesh m →
  ∃ m' fcm',
    keep_or_remove_connected_components m comps fcm keep = Some (m', fcm')
    ∧ ∀ h, alive m' h ↔ alive m h ∧ edge_kept m fcm' h.
Proof.
  intros Hwf. destruct (keep_or_remove_detail m comps fcm keep Hwf)
    as (m' & Hrun & Hex).
  eexists m', _. split; [done|]. apply (ex_alive _ _ _ Hex).
Qed.

Lemma excision_edges_witness :
  wf_mesh quad
  ∧ ∃ m' fcm',
      keep_or_remove_connected_components quad [1] {[1 := 0; 0 := 1]}
        false = Some (m', fcm')
      ∧ ∀ h, alive m' h ↔ alive quad h ∧ edge_kept quad fcm' h.
Proof.
  split; [compute_done|].
  apply (excision_edges quad [1] {[1 := 0; 0 := 1]} false).
  compute_done.
Defined.

(** [X10]: the excision creates no halfedge and moves none: a halfedge
    that it leaves was in the mesh, has the target it had, has both ends on
    kept faces, and its face is the face it had if that face is kept, and
    the null face otherwise. *)
Theorem excision_halfedge_data m comps fcm keep :
  wf_mesh m →
  ∃ m' fcm',
    keep_or_remove_connected_components m comps fcm keep = Some (m', fcm')
    ∧ ∀ h, alive m' h →
        alive m h ∧ target m' h = target m h
        ∧ on_kept_face m fcm' (target m h) ∧ on_kept_face m fcm' (source m h)
        ∧ ∀ f, face m' h = Some f ↔ face m h = Some f ∧ get_fcm fcm' f = 1.
Proof.
  intros Hwf. destruct (keep_or_remove_detail m comps fcm keep Hwf)
    as (m' & Hrun & Hex).
  eexists m', _. split; [done|]. intros h Hh'.
  destruct (ex_halfedge _ _ _ Hex h Hh') as (Ht & Hf & _).
  pose proof Hh' as [Hhm Hk]%(ex_alive _ _ _ Hex).
  destruct (edge_kept_ends _ _ _ Hwf Hhm Hk) as [? ?]. done.
Qed.

Lemma excision_halfedge_data_witness :
  wf_mesh quad
  ∧ ∃ m' fcm',
      keep_or_remove_connected_components quad [1] {[1 := 0; 0 := 1]}
        false = Some (m', fcm')
      ∧ ∀ h, alive m' h →
          alive quad h ∧ target m' h = target quad h
          ∧ on_kept_face quad fcm' (target quad h)
          ∧ on_kept_face quad fcm' (source quad h)
          ∧ ∀ f, face m' h = Some f ↔ face quad h = Some f ∧ get_fcm fcm' f = 1.
Proof.
  split; [compute_done|].
  apply (excision_halfedge_data quad [1] {[1 := 0; 0 := 1]} false).
  compute_done.
Defined.

(** [X11]: the excision preserves the well-formedness of the halfedges
    and of the faces. In the mesh that it leaves, [next] and [prev] are
    inverse to each other and stay in the mesh and on the same face (or on
    the border), consecutive halfedges meet in a vertex of the mesh, no
    edge is a loop, and the walk around each face closes and meets exactly
    the halfedges of that face. *)
Theorem excision_preserves_wf m comps fcm keep :
  wf_mesh m →
  ∃ m' fcm',
    keep_or_remove_connected_components m comps fcm keep = Some (m', fcm')
    ∧ Forall (wf_halfedge m') (halfedges m')
    ∧ Forall (wf_face m') (faces m').
Proof.
  intros Hwf. destruct (keep_or_remove_detail m comps fcm keep Hwf)
    as (m' & Hrun & Hex).
  eexists m', _. split; [done|]. split; apply Forall_forall.
  - intros h Hh%elem_of_halfedges. by eapply excised_wf_halfedge.
  - intros f Hf. by eapply excised_wf_face.
Qed.

Lemma excision_preserves_wf_witness :
  wf_mesh quad
  ∧ ∃ m' fcm',
      keep_or_remove_connected_components quad [1] {[1 := 0; 0 := 1]}
        false = Some (m', fcm')
      ∧ Forall (wf_halfedge m') (halfedges m')
      ∧ Forall (wf_face m') (faces m').
Proof.
  split; [compute_done|].
  apply (excision_preserves_wf quad [1] {[1 := 0; 0 := 1]} false).
  compute_done.
Defined.

(** [X12]: the excision does not touch a kept face: the face keeps its
    reference halfedge and the sequence of halfedges around it, and each of
    its halfedges stays in the mesh with the successor, the predecessor,
    the target and the face it had. *)
Theorem excision_kept_faces_untouched m comps fcm keep :
  wf_mesh m →
  ∃ m' fcm',
    keep_or_remove_connected_components m comps fcm keep = Some (m', fcm')
    ∧ ∀ f, f ∈ faces m → get_fcm fcm' f = 1 →
        halfedge_f m' f = halfedge_f m f
        ∧ face_halfedges m' f = face_halfedges m f
        ∧ ∀ h, alive m h → face m h = Some f →
            alive m' h ∧ next m' h = next m h ∧ prev m' h = prev m h
            ∧ target m' h = target m h ∧ face m' h = Some f.
Proof.
  intros Hwf. destruct (keep_or_remove_detail m comps fcm keep Hwf)
    as (m' & Hrun & Hex).
  eexists m', _. split; [done|]. intros f Hf Hk.
  destruct (excised_kept_face _ _ _ Hwf Hex f Hf Hk) as [? ?].
  split_and!; [done..|]. intros h Hh Hhf.
  by apply (excised_kept_halfedge _ _ _ Hex).
Qed.

Lemma excision_kept_faces_untouched_witness :
  wf_mesh quad
  ∧ ∃ m' fcm',
      keep_or_remove_connected_components quad [1] {[1 := 0; 0 := 1]}
        false = Some (m', fcm')
      ∧ ∀ f, f ∈ faces quad → get_fcm fcm' f = 1 →
          halfedge_f m' f = halfedge_f quad f
          ∧ face_halfedges m' f = face_halfedges quad f
          ∧ ∀ h, alive quad h → face quad h = Some f →
              alive m' h ∧ next m' h = next quad h ∧ prev m' h = prev quad h
              ∧ target m' h = target quad h ∧ face m' h = Some f.
Proof.
  split; [compute_done|].
  apply (excision_kept_faces_untouched quad [1] {[1 := 0; 0 := 1]} false).
  compute_done.
Defined.

(** [X13]: two faces are adjacent (across an edge that is neither a
    border edge nor constrained) after the excision exactly if they were
    adjacent before it and both are kept. *)
Theorem excision_adjacency m comps fcm keep ecm :
  wf_mesh m →
  ∃ m' fcm',
    keep_or_remove_connected_components m comps fcm keep = Some (m', fcm')
    ∧ ∀ f g, adjacent m' ecm f g
             ↔ adjacent m ecm f g ∧ get_fcm fcm' f = 1 ∧ get_fcm fcm' g = 1.
Proof.
  intros Hwf. destruct (keep_or_remove_detail m comps fcm keep Hwf)
    as (m' & Hrun & Hex).
  eexists m', _. split; [done|]. intros f g. by apply excised_adjacent.
Qed.

Lemma excision_adjacency_witness :
  wf_mesh quad
  ∧ ∃ m' fcm',
      keep_or_remove_connected_components quad [1] {[1 := 0; 0 := 1]}
        false = Some (m', fcm')
      ∧ ∀ f g, adjacent m' No_constraint f g
               ↔ adjacent quad No_constraint f g
                 ∧ get_fcm fcm' f = 1 ∧ get_fcm fcm' g = 1.
Proof.
  split; [compute_done|].
  apply (excision_adjacency quad [1] {[1 := 0; 0 := 1]} false No_constraint).
  compute_done.
Defined.

(** [X14]: [keep_connected_components], given ids, keeps exactly the
    faces whose id in [fcm] is in [components_to_keep]. It overwrites the
    ids in [fcm]: after the call the entry of a face of the mesh is [1] if
    its id was in the range and [0] otherwise, and the other entries read
    as before. *)
Theorem keep_connected_components_by_id m ids fcm :
  wf_mesh m →
  ∃ m' fcm',
    keep_connected_components m ids fcm = Some (m', fcm')
    ∧ (∀ f, f ∈ faces m' ↔ f ∈ faces m ∧ get_fcm fcm f ∈ ids)
    ∧ (∀ f, get_fcm fcm' f
            = if decide (f ∈ faces m)
              then (if decide (get_fcm fcm f ∈ ids) then 1 else 0)
              else get_fcm fcm f).
Proof.
  intros Hwf. destruct (keep_or_remove_detail m ids fcm true Hwf)
    as (m' & Hrun & [Hfc _ _ _ _]).
  assert (∀ f, get_fcm (classify_faces (list_to_set ids) true (faces m) fcm) f
            = if decide (f ∈ faces m)
              then (if decide (get_fcm fcm f ∈ ids) then 1 else 0)
              else get_fcm fcm f) as Htags.
  { intros f. rewrite classify_faces_spec by apply NoDup_fst_map_to_list.
    case_decide; [|done].
    destruct (decide (get_fcm fcm f ∈ ids)) as [Hi|Hi].
    - rewrite decide_True; [done|]. by apply elem_of_list_to_set.
    - rewrite decide_False; [done|]. by rewrite elem_of_list_to_set. }
  eexists m', _. split; [done|]. split; [|done].
  intros f. rewrite !elem_of_faces, Hfc, Htags.
  destruct (decide (f ∈ faces m)) as [Hf|Hf].
  - apply elem_of_faces in Hf.
    destruct (decide (get_fcm fcm f ∈ ids)); [by rewrite decide_True|].
    rewrite decide_False by done. split; [by intros []|]. by intros [_ ?].
  - rewrite elem_of_faces in Hf. case_decide; [tauto|].
    split; [by intros []|tauto].
Qed.

Lemma keep_connected_components_by_id_witness :
  wf_mesh two_triangles
  ∧ ∃ m' fcm',
      keep_connected_components two_triangles [0] {[1 := 0; 0 := 1]}
        = Some (m', fcm')
      ∧ (∀ f, f ∈ faces m'
              ↔ f ∈ faces two_triangles
                ∧ get_fcm {[1 := 0; 0 := 1]} f ∈ [0])
      ∧ (∀ f, get_fcm fcm' f
              = if decide (f ∈ faces two_triangles)
                then (if decide (get_fcm {[1 := 0; 0 := 1]} f ∈ [0])
                      then 1 else 0)
                else get_fcm {[1 := 0; 0 := 1]} f).
Proof.
  split; [compute_done|].
  apply (keep_connected_components_by_id two_triangles [0] {[1 := 0; 0 := 1]}).
  compute_done.
Defined.

(** [X15]: [remove_connected_components], given a range of ids that is
    not empty, keeps exactly the faces whose id in [fcm] is not in
    [components_to_remove]. After the call the entry of a face of the mesh
    in [fcm] is [0] if its id was in the range and [1] otherwise, and the
    other entries read as before. *)
Theorem remove_connected_components_by_id m ids fcm :
  wf_mesh m → ids ≠ [] →
  ∃ m' fcm',
    remove_connected_components m ids fcm = Some (m', fcm')
    ∧ (∀ f, f ∈ faces m' ↔ f ∈ faces m ∧ get_fcm fcm f ∉ ids)
    ∧ (∀ f, get_fcm fcm' f
            = if decide (f ∈ faces m)
              then (if decide (get_fcm fcm f ∈ ids) then 0 else 1)
              else get_fcm fcm f).
Proof.
  intros Hwf Hne. unfold remove_connected_components.
  rewrite decide_False by done.
  destruct (keep_or_remove_detail m ids fcm false Hwf)
    as (m' & Hrun & [Hfc _ _ _ _]).
  assert (∀ f, get_fcm (classify_faces (list_to_set ids) false (faces m) fcm) f
            = if decide (f ∈ faces m)
              then (if decide (get_fcm fcm f ∈ ids) then 0 else 1)
              else get_fcm fcm f) as Htags.
  { intros f. rewrite classify_faces_spec by apply NoDup_fst_map_to_list.
    case_decide; [|done].
    destruct (decide (get_fcm fcm f ∈ ids)) as [Hi|Hi].
    - rewrite decide_True; [done|]. by apply elem_of_list_to_set.
    - rewrite decide_False; [done|]. by rewrite elem_of_list_to_set. }
  eexists m', _. split; [done|]. split; [|done].
  intros f. rewrite !elem_of_faces, Hfc, Htags.
  destruct (decide (f ∈ faces m)) as [Hf|Hf].
  - apply elem_of_faces in Hf.
    destruct (decide (get_fcm fcm f ∈ ids)); [|by rewrite decide_True].
    rewrite decide_False by done. split; [by intros []|]. by intros [_ ?].
  - rewrite elem_of_faces in Hf. case_decide; [tauto|].
    split; [by intros []|tauto].
Qed.

Lemma remove_connected_components_by_id_witness :
  wf_mesh two_triangles ∧ [0] ≠ []
  ∧ ∃ m' fcm',
      remove_connected_components two_triangles [0] {[1 := 0; 0 := 1]}
        = Some (m', fcm')
      ∧ (∀ f, f ∈ faces m'
              ↔ f ∈ faces two_triangles
                ∧ get_fcm {[1 := 0; 0 := 1]} f ∉ [0])
      ∧ (∀ f, get_fcm fcm' f
              = if decide (f ∈ faces two_triangles)
                then (if decide (get_fcm {[1 := 0; 0 := 1]} f ∈ [0])
                      then 0 else 1)
                else get_fcm {[1 := 0; 0 := 1]} f).
Proof.
  split; [compute_done|]. split; [done|].
  apply (remove_connected_components_by_id two_triangles [0] {[1 := 0; 0 := 1]}).
  - compute_done.
  - done.
Defined.

(** ** The overloads that take faces, and the index maps *)

Lemma face_range_ids m ecm face_cc range f :
  wf_mesh m → (∀ r, r ∈ range → r ∈ faces m) → f ∈ faces m →
  (∀ a b, a ∈ faces m → b ∈ faces m →
     get_fcm face_cc a = get_fcm face_cc b ↔ connected m ecm a b) →
  get_fcm face_cc f ∈ (λ r, get_fcm face_cc r) <$> range
  ↔ selected_by m ecm range f.
Proof.
  intros Hwf Hrange Hf Hsame. rewrite list_elem_of_fmap. unfold selected_by.
  split; intros (r & Hr1 & Hr2); exists r.
  - split; [done|]. apply Hsame; auto.
  - split; [|done]. symmetry. apply Hsame; auto.
Qed.

(** [X16]: [keep_connected_components], given a range of faces of the
    mesh, keeps exactly the faces that a chain of edges that are neither
    border edges nor constrained joins to a face of the range. The
    labelling it calls is modelled as in [connected_components]. *)
Theorem keep_face_range_keeps_selected m range ecmap :
  wf_mesh m → Forall (λ r, r ∈ faces m) range →
  ∃ m', keep_connected_components_face_range m range ecmap = Some m'
        ∧ ∀ f, f ∈ faces m' ↔ f ∈ faces m ∧ selected_by m ecmap range f.
Proof.
  intros Hwf Hrange. rewrite Forall_forall in Hrange.
  unfold keep_connected_components_face_range.
  destruct (connected_components_labels m ∅ ecmap Hwf)
    as (face_cc & count & -> & _ & _ & Hsame). simpl.
  destruct (keep_connected_components_faces m
              ((λ r, get_fcm face_cc r) <$> range) face_cc Hwf)
    as (m' & fcm' & -> & Hfaces & _). simpl.
  exists m'. split; [done|]. intros f. rewrite Hfaces.
  split; intros [Hf Hsel]; (split; [done|]);
    by apply (face_range_ids m ecmap face_cc range f).
Qed.

Lemma keep_face_range_keeps_selected_witness :
  wf_mesh two_triangles ∧ Forall (λ r, r ∈ faces two_triangles) [1]
  ∧ ∃ m', keep_connected_components_face_range two_triangles [1] No_constraint
          = Some m'
        ∧ ∀ f, f ∈ faces m'
               ↔ f ∈ faces two_triangles
                 ∧ selected_by two_triangles No_constraint [1] f.
Proof.
  split; [compute_done|]. split; [compute_done|].
  apply (keep_face_range_keeps_selected two_triangles [1] No_constraint);
    compute_done.
Defined.

(** [X17]: [remove_connected_components], given a range of faces of the
    mesh, keeps exactly the faces that no chain of edges that are neither
    border edges nor constrained joins to a face of the range; given the
    empty range it leaves the mesh as it is. *)
Theorem remove_face_range_removes_selected m range ecmap :
  wf_mesh m → Forall (λ r, r ∈ faces m) range →
  ∃ m', remove_connected_components_face_range m range ecmap = Some m'
        ∧ (∀ f, f ∈ faces m' ↔ f ∈ faces m ∧ ¬ selected_by m ecmap range f)
        ∧ (range = [] → m' = m).
Proof.
  intros Hwf Hrange. rewrite Forall_forall in Hrange.
  unfold remove_connected_components_face_range.
  destruct (decide (range = [])) as [->|Hne].
  { exists m. split_and!; [done| |done]. intros f. split; [|by intros []].
    intros Hf. split; [done|]. by intros (r & ?%elem_of_nil & _). }
  destruct (connected_components_labels m ∅ ecmap Hwf)
    as (face_cc & count & -> & _ & _ & Hsame). simpl.
  unfold remove_connected_components.
  rewrite decide_False by (by destruct range).
  destruct (keep_or_remove_detail m ((λ r, get_fcm face_cc r) <$> range)
              face_cc false Hwf) as (m' & -> & [Hfc _ _ _ _]). simpl.
  exists m'. split_and!; [done| |done]. intros f.
  rewrite !elem_of_faces, Hfc,
    classify_faces_spec by apply NoDup_fst_map_to_list.
  destruct (decide (f ∈ faces m)) as [Hf|Hf].
  - rewrite <-(face_range_ids m ecmap face_cc range f) by done.
    apply elem_of_faces in Hf.
    destruct (decide (get_fcm face_cc f
                      ∈ (list_to_set ((λ r, get_fcm face_cc r) <$> range)
                         : gset nat))) as [Hi|Hi].
    + rewrite decide_False by done. apply elem_of_list_to_set in Hi.
      split; [by intros []|]. by intros [_ ?].
    + rewrite decide_True by done. rewrite elem_of_list_to_set in Hi. done.
  - rewrite elem_of_faces in Hf. case_decide; [tauto|].
    split; [by intros []|tauto].
Qed.

Lemma remove_face_range_removes_selected_witness :
  wf_mesh two_triangles ∧ Forall (λ r, r ∈ faces two_triangles) [1]
  ∧ ∃ m', remove_connected_components_face_range two_triangles [1] No_constraint
          = Some m'
        ∧ (∀ f, f ∈ faces m'
                ↔ f ∈ faces two_triangles
                  ∧ ¬ selected_by two_triangles No_constraint [1] f)
        ∧ ([1] = [] → m' = two_triangles).
Proof.
  split; [compute_done|]. split; [compute_done|].
  apply (remove_face_range_removes_selected two_triangles [1] No_constraint);
    compute_done.
Defined.

(** *** The index maps of [split_connected_components_impl] *)

Lemma init_index_map_loop `{Countable K} (range : list K) : ∀ (map : gmap K nat) n,
  NoDup range →
  let st := foldl (λ st x, (<[x := st.2]> st.1, S st.2)) (map, n) range in
  st.2 = n + length range
  ∧ (∀ i k, range !! i = Some k → st.1 !! k = Some (n + i))
  ∧ (∀ k, k ∉ range → st.1 !! k = map !! k).
Proof.
  induction range as [|x range IH]; intros map n Hnd; simpl.
  { split_and!; [lia|done|done]. }
  apply NoDup_cons in Hnd as [Hx Hnd].
  destruct (IH (<[x:=n]> map) (S n) Hnd) as (IH1 & IH2 & IH3).
  split_and!.
  - rewrite IH1. lia.
  - intros [|i] k Hk; simpl in Hk.
    + simplify_eq. rewrite IH3 by done. rewrite lookup_insert_eq. f_equal. lia.
    + rewrite (IH2 i k Hk). f_equal. lia.
  - intros k Hk. rewrite not_elem_of_cons in Hk. destruct Hk as [Hkx Hk].
    rewrite IH3 by done. by rewrite lookup_insert_ne.
Qed.

Lemma NoDup_halfedges m : NoDup (halfedges m).
Proof.
  unfold halfedges. apply NoDup_bind.
  - intros e1 e2 h _ _ Hh1 Hh2. set_unfold. naive_solver.
  - intros e _. apply NoDup_cons. split; [set_solver|apply NoDup_singleton].
  - apply NoDup_fst_map_to_list.
Qed.

(** [X19]: when all three maps need initialisation, the head of
    [split_connected_components_impl] gives to the [i]-th face, halfedge
    and vertex of the mesh, in iteration order, the index [i]; the indices
    are thus dense and distinct, and the entries of other keys are left
    alone. *)
Theorem init_index_maps_dense tm fim him vim :
  let '(fm, hm, vm) := init_index_maps tm (fim, true) (him, true) (vim, true) in
  (∀ i f, faces tm !! i = Some f → fm !! f = Some i)
  ∧ (∀ f, f ∉ faces tm → fm !! f = fim !! f)
  ∧ (∀ i h, halfedges tm !! i = Some h → hm !! h = Some i)
  ∧ (∀ h, h ∉ halfedges tm → hm !! h = him !! h)
  ∧ (∀ i v, vertices tm !! i = Some v → vm !! v = Some i)
  ∧ (∀ v, v ∉ vertices tm → vm !! v = vim !! v).
Proof.
  unfold init_index_maps, init_index_map. simpl.
  destruct (init_index_map_loop (faces tm) fim 0) as (_ & Hf1 & Hf2);
    [apply NoDup_fst_map_to_list|].
  destruct (init_index_map_loop (halfedges tm) him 0) as (_ & Hh1 & Hh2);
    [apply NoDup_halfedges|].
  destruct (init_index_map_loop (vertices tm) vim 0) as (_ & Hv1 & Hv2);
    [apply NoDup_fst_map_to_list|].
  split_and!; done.
Qed.

(** When no face is tagged kept, the excision leaves nothing. *)
Lemma excised_nothing_kept m fcm m' :
  wf_mesh m → excised m fcm m' →
  (∀ f, f ∈ faces m → get_fcm fcm f ≠ 1) →
  vertices m' = [] ∧ edges m' = [] ∧ faces m' = [].
Proof.
  intros Hwf Hex Hnone.
  assert (∀ v, ¬ on_kept_face m fcm v) as Hv.
  { intros v (h & f & Hh & _ & Hf & Hk).
    apply (Hnone f); [|done]. by eapply wf_mesh_face_exists. }
  split_and!; apply elem_of_nil_inv.
  - intros v Hin%(ex_vertices _ _ _ Hex). by apply (Hv v).
  - intros e He%elem_of_edges.
    assert (alive m' (halfedge_e e)) as [Hh Hk]%(ex_alive _ _ _ Hex) by done.
    destruct (edge_kept_ends _ _ _ Hwf Hh Hk) as [Ht _]. by apply (Hv _ Ht).
  - intros f [Hf Hk]%(excised_faces _ _ _ Hex). by apply (Hnone f).
Qed.

(** [X18]: with a threshold above the number of faces,
    [keep_large_connected_components] selects no component; the excision
    then leaves no vertex, no edge and no face, and the value returned is
    the number of components the mesh had. *)
Theorem keep_large_above_all_sizes_empties m threshold ecmap :
  wf_mesh m → length (faces m) < threshold →
  ∃ face_cc num m',
    connected_components m ∅ ecmap = Some (face_cc, num)
    ∧ keep_large_connected_components m threshold ecmap = Some (m', num)
    ∧ vertices m' = [] ∧ edges m' = [] ∧ faces m' = [].
Proof.
  intros Hwf Hth.
  destruct (connected_components_labels m ∅ ecmap Hwf)
    as (face_cc & num & Hrun & _).
  exists face_cc, num. unfold keep_large_connected_components.
  rewrite Hrun. simpl. rewrite count_faces_spec.
  rewrite (filter_component_size (λ n, threshold ≤ n)).
  assert (filter (λ i, threshold ≤ component_size face_cc m i) (seq 0 num) = [])
    as ->.
  { apply elem_of_nil_inv. intros i [Hi _]%list_elem_of_filter.
    unfold component_size in Hi.
    pose proof (length_filter (λ f, get_fcm face_cc f = i) (faces m)). lia. }
  unfold keep_connected_components.
  destruct (keep_or_remove_detail m [] face_cc true Hwf) as (m' & -> & Hex).
  simpl. exists m'. rewrite Nat.sub_0_r. split_and!; [done..| | |];
    apply (excised_nothing_kept m _ m' Hwf Hex);
    intros f Hf; rewrite classify_faces_spec by apply NoDup_fst_map_to_list;
    rewrite decide_True by done; by rewrite decide_False by set_solver.
Qed.

Lemma keep_large_above_all_sizes_empties_witness :
  wf_mesh two_triangles ∧ length (faces two_triangles) < 3
  ∧ ∃ face_cc num m',
      connected_components two_triangles ∅ No_constraint = Some (face_cc, num)
      ∧ keep_large_connected_components two_triangles 3 No_constraint
        = Some (m', num)
      ∧ vertices m' = [] ∧ edges m' = [] ∧ faces m' = [].
Proof.
  split; [compute_done|]. split; [compute_done|].
  apply (keep_large_above_all_sizes_empties two_triangles 3 No_constraint);
    compute_done.
Defined.

(** * Nothing dangles after the excision *)

(** ** The reference halfedges of the vertices *)

Lemma ring_from_rtc m fuel : ∀ h g, g ∈ ring_from m fuel h → rtc (around m) h g.
Proof.
  induction fuel as [|fuel IH]; intros h g Hg; simpl in Hg.
  { by apply elem_of_nil in Hg. }
  apply elem_of_cons in Hg as [->|Hg]; [done|].
  eapply rtc_l; [|by apply IH]. done.
Qed.

Lemma rings_close_manifold m : rings_close m → manifold_vertices m.
Proof.
  intros Hc h g Hh Hg Ht. unfold rings_close in Hc.
  rewrite Forall_forall in Hc. specialize (Hc h).
  rewrite Forall_forall in Hc.
  apply (ring_from_rtc m (num_halfedges m)), Hc; by try apply elem_of_halfedges.
Qed.

Lemma halfedge_v_set_halfedge m v h u :
  halfedge_v (set_halfedge m v h) u
  = if decide (u = v) then (λ _, h) <$> vconn m !! v else halfedge_v m u.
Proof.
  unfold halfedge_v, set_halfedge. simpl.
  destruct (decide (u = v)) as [->|Hne].
  - rewrite lookup_alter_eq. by destruct (vconn m !! v).
  - by rewrite lookup_alter_ne.
Qed.

Lemma halfedge_v_set_next m a b v :
  halfedge_v (set_next m a b) v = halfedge_v m v.
Proof. done. Qed.

Lemma halfedge_v_remove_edge m e v :
  halfedge_v (remove_edge m e) v = halfedge_v m v.
Proof. done. Qed.

Lemma halfedge_v_relink_source m s h oh v :
  halfedge_v (relink_source m s h oh) v
  = if decide (v = s ∧ halfedge_v m s = Some oh) then Some (prev m h)
    else halfedge_v m v.
Proof.
  unfold relink_source. cbv zeta. rewrite halfedge_v_set_next.
  destruct (decide (halfedge_v m s = Some oh)) as [Hs|Hs].
  - rewrite halfedge_v_set_halfedge.
    destruct (decide (v = s)) as [->|Hv].
    + rewrite decide_True by done. unfold halfedge_v in Hs.
      by destruct (vconn m !! s).
    + rewrite decide_False; [done|]. by intros [? _].
  - rewrite decide_False; [done|]. by intros [_ ?].
Qed.

Lemma halfedge_v_relink_both m a v :
  source m a ≠ target m a →
  let s := source m a in
  let t := target m a in
  let o := opposite a in
  let m1 := if decide (halfedge_v m s = Some o)
            then set_halfedge m s (prev m a) else m in
  let m2 := if decide (halfedge_v m1 t = Some a)
            then set_halfedge m1 t (prev m1 o) else m1 in
  halfedge_v m2 v
  = if decide (v = s ∧ halfedge_v m s = Some o) then Some (prev m a)
    else if decide (v = t ∧ halfedge_v m t = Some a) then Some (prev m o)
    else halfedge_v m v.
Proof.
  intros Hst s t o m1 m2.
  assert (∀ u, halfedge_v m1 u
               = if decide (u = s ∧ halfedge_v m s = Some o)
                 then Some (prev m a) else halfedge_v m u) as H1.
  { intros u. unfold m1.
    destruct (decide (halfedge_v m s = Some o)) as [Hs|Hs].
    - rewrite halfedge_v_set_halfedge.
      destruct (decide (u = s)) as [->|Hu].
      + rewrite decide_True by done. unfold halfedge_v in Hs.
        by destruct (vconn m !! s).
      + rewrite decide_False; [done|]. by intros [? _].
    - rewrite decide_False; [done|]. by intros [_ ?]. }
  assert (prev m1 o = prev m o) as Hp.
  { unfold m1. by destruct (decide (halfedge_v m s = Some o)). }
  assert (halfedge_v m1 t = halfedge_v m t) as Ht.
  { rewrite H1, decide_False; [done|]. intros [Heq _]. by apply Hst. }
  unfold m2. rewrite Ht, Hp.
  destruct (decide (halfedge_v m t = Some a)) as [Hta|Hta].
  - rewrite halfedge_v_set_halfedge.
    destruct (decide (v = t)) as [->|Hv].
    + rewrite decide_False by (intros [Heq _]; by apply Hst).
      rewrite decide_True by done.
      assert (is_Some (vconn m1 !! t)) as [x ->]; [|done].
      pose proof Ht as Ht'. rewrite Hta in Ht'. unfold halfedge_v in Ht'.
      destruct (vconn m1 !! t); [by eexists|done].
    + rewrite H1.
      destruct (decide (v = s ∧ halfedge_v m s = Some o)); [done|].
      rewrite decide_False; [done|]. by intros [? _].
  - rewrite H1.
    destruct (decide (v = s ∧ halfedge_v m s = Some o)); [done|].
    rewrite decide_False; [done|]. by intros [_ ?].
Qed.

(** The reference halfedge of a vertex after one iteration of the loop
    over the edges. *)
Lemma process_edge_halfedge_v fcm kv m e v :
  alive m (halfedge_e e) →
  source m (halfedge_e e) ≠ target m (halfedge_e e) →
  let a := halfedge_e e in
  let pe := process_edge fcm kv m e in
  halfedge_v pe v
  = if decide (¬ alive pe a ∧ get_kv kv (source m a) = true
               ∧ v = source m a ∧ halfedge_v m (source m a) = Some (opposite a))
    then Some (prev m a)
    else if decide (¬ alive pe a ∧ get_kv kv (target m a) = true
                    ∧ v = target m a ∧ halfedge_v m (target m a) = Some a)
    then Some (prev m (opposite a))
    else halfedge_v m v.
Proof.
  intros Ha Hst a pe.
  unfold pe, process_edge. fold a.
  set (o := opposite a).
  assert (∀ x : option nat, bool_decide (x = None)
            = match x with Some _ => false | None => true end)
    as Hb by (by intros []).
  destruct (get_kv kv (source m a)) eqn:HKs;
    destruct (get_kv kv (target m a)) eqn:HKt; cbn [negb andb].
  - unfold is_border. rewrite !Hb in *.
    assert (∀ X, ¬ alive (remove_edge X e) a) as Hdead.
    { intros X. rewrite alive_remove_edge. by intros [_ []]. }
    destruct (face m a) as [f|], (face m o) as [g|];
      cbn [get_fcm_face from_option] in *;
      try destruct (truthy (get_fcm fcm f));
      try destruct (truthy (get_fcm fcm g));
      cbn [negb andb orb] in *;
      try (rewrite !decide_False
             by (rewrite ?alive_set_face; intros [Hn _]; by apply Hn);
           reflexivity);
      rewrite halfedge_v_remove_edge, !halfedge_v_set_next;
      unfold o;
      rewrite (halfedge_v_relink_both m a v Hst); fold o;
      (destruct (decide (v = source m a ∧ halfedge_v m (source m a) = Some o))
         as [[-> Hs]|Hs];
       [rewrite decide_True; [done|split_and!; [apply Hdead|done..]]|]);
      (rewrite (decide_False (P:=_ ∧ _ ∧ v = source m a ∧ _))
         by (intros (_ & _ & ? & ?); by apply Hs));
      (destruct (decide (v = target m a ∧ halfedge_v m (target m a) = Some a))
         as [[-> Ht]|Ht];
       [rewrite decide_True; [done|split_and!; [apply Hdead|done..]]|]);
      (rewrite (decide_False (P:=_ ∧ _ ∧ v = target m a ∧ _))
         by (intros (_ & _ & ? & ?); by apply Ht)); done.
  - rewrite halfedge_v_remove_edge, halfedge_v_relink_source.
    rewrite (decide_False (P:=_ ∧ false = true ∧ _)) by (by intros (_ & ? & _)).
    destruct (decide (v = source m a ∧ halfedge_v m (source m a) = Some o))
      as [[-> Hs]|Hs].
    + rewrite decide_True; [done|]. split_and!; try done.
      rewrite alive_remove_edge. by intros [_ []].
    + rewrite decide_False; [done|]. intros (_ & _ & ? & ?). by apply Hs.
  - rewrite halfedge_v_remove_edge, halfedge_v_relink_source.
    rewrite (decide_False (P:=_ ∧ false = true ∧ _)) by (by intros (_ & ? & _)).
    destruct (decide (v = target m a ∧ halfedge_v m (target m a) = Some a))
      as [[-> Hs]|Hs].
    + rewrite decide_True; [done|]. split_and!; try done.
      rewrite alive_remove_edge. by intros [_ []].
    + rewrite decide_False; [done|]. intros (_ & _ & ? & ?). by apply Hs.
  - rewrite halfedge_v_remove_edge.
    rewrite !decide_False; [done|by intros (_ & ? & _)..].
Qed.

Lemma rtc_fixed_point {A} (R : relation A) (x z : A) :
  (∀ y, R x y → y = x) → rtc R x z → z = x.
Proof.
  intros Hfix Hrtc. induction Hrtc as [|x y z Hxy _ IH]; [done|].
  apply Hfix in Hxy as ->. by apply IH.
Qed.

Section VertexLoop.
Context (fcm : gmap nat nat) (kv : gmap nat bool) (m0 : PolygonMesh).
Context (Hmarked : kept_faces_marked fcm kv m0).
Context (Hon : ∀ v, get_kv kv v = true → on_kept_face m0 fcm v).

Local Abbreviation K v := (get_kv kv v = true).
Local Abbreviation Inv := (edge_loop_inv fcm kv m0).

(** The successor of a remaining halfedge into a kept vertex after one
    iteration: the old successor, or, if that went with the processed
    edge, the halfedge after it in the rotation. *)
Lemma process_edge_next m e h :
  Inv m → alive m (halfedge_e e) →
  alive (process_edge fcm kv m e) h → K (target m h) →
  next (process_edge fcm kv m e) h
  = if decide (alive (process_edge fcm kv m e) (next m h)) then next m h
    else next m (opposite (next m h)).
Proof using Hmarked.
  intros HI Ha Hh HK.
  set (a := halfedge_e e) in *. set (o := opposite a).
  assert (alive m o) as Ho by done.
  destruct (process_edge_inv fcm kv m0 Hmarked m e HI Ha)
    as (HI' & Hsub & Hkeep & _).
  assert (alive m h) as Hhm by by apply Hsub.
  destruct (eli_next _ _ _ _ HI h Hhm HK) as (Hn1 & Hn2 & Hn3).
  assert (∀ m1 m2 g, econn m1 = econn m2 → next m1 g = next m2 g) as Hnext.
  { intros m1 m2 g Heq. unfold next. by rewrite (conn_econn m1 m2). }
  assert (∀ m1 g, econn (process_edge fcm kv m e) = econn (remove_edge m1 e) →
            alive (process_edge fcm kv m e) g → g.1 ≠ e) as Hoff.
  { intros m1 g Heq Hg Hge.
    rewrite (alive_econn _ (remove_edge m1 e)) in Hg by done.
    apply alive_remove_edge in Hg as [_ ?]. done. }
  assert (∀ g, g.1 = e → g = a ∨ g = o) as Hon_e
    by (intros g; apply same_edge).
  destruct (process_edge_shape fcm kv m e Ha)
    as [(_ & _ & [Hr | (x & f & _ & _ & _ & Hr)])
       |[(HKs & HKt & Hr)
       |[(x & Hx & HKs & HKt & Heq)
        |(HKs & HKt & Hno & Heq)]]].
  - rewrite Hr. by rewrite decide_True.
  - rewrite Hr, next_set_face. rewrite decide_True; [done|].
    by rewrite alive_set_face.
  - assert (h.1 ≠ e) as He by (apply (Hoff m); [by rewrite Hr|done]).
    fold a in HKs, HKt.
    assert ((next m h).1 ≠ e) as Hne.
    { intros [Hx|Hx]%Hon_e; rewrite Hx in Hn3.
      - congruence.
      - unfold source in Hn3. unfold o in Hn3.
        rewrite opposite_involutive in Hn3. fold a in Hn3. congruence. }
    rewrite decide_True by (by apply Hkeep).
    rewrite Hr. by rewrite next_remove_edge.
  - assert (h.1 ≠ e) as He by by eapply Hoff.
    assert (alive m x) as Hax by (apply same_edge in Hx as [->| ->]; done).
    destruct (eli_prev _ _ _ _ HI x Hax HKs) as (Hp1 & Hp2 & Hp3).
    destruct (eli_next _ _ _ _ HI (opposite x)) as (Hx1 & Hx2 & Hx3);
      [done|done|].
    rewrite (Hnext _ _ h Heq).
    destruct (relink_one_fields m (prev m x) (next m (opposite x)) e h Hp1 Hx1)
      as [_ (-> & _)]; [done|].
    destruct (decide (h = prev m x)) as [->|Hhp].
    + rewrite Hp2. rewrite decide_False; [done|].
      intros Hd. by apply (Hoff _ x Heq Hd).
    + rewrite decide_True; [done|]. apply Hkeep; [done|].
      intros Hne. rewrite <-Hx in Hne.
      apply same_edge_sides in Hne as [Hnx|Hnx].
      * rewrite Hnx in Hn2. by apply Hhp.
      * rewrite Hnx in Hn3. unfold source in Hn3.
        rewrite opposite_involutive in Hn3. congruence.
  - assert (h.1 ≠ e) as He by by eapply Hoff.
    fold a o in Heq, HKs, HKt.
    assert (opposite o = a) as Hoo by apply opposite_involutive.
    assert (source m o = target m a) as Hso by (unfold source; by rewrite Hoo).
    destruct (eli_prev _ _ _ _ HI a Ha HKs) as (Hp1 & Hp2 & Hp3).
    destruct (eli_next _ _ _ _ HI o Ho HKs) as (Hx1 & Hx2 & Hx3).
    destruct (eli_prev _ _ _ _ HI o Ho) as (Hq1 & Hq2 & Hq3); [by rewrite Hso|].
    destruct (eli_next _ _ _ _ HI a Ha HKt) as (Hy1 & Hy2 & Hy3).
    pose proof (eli_no_loop _ _ _ _ HI a Ha) as Hnl.
    assert (prev m a ≠ a) as Hpa by (intros Hp; rewrite Hp in Hp3; congruence).
    assert (next m o ≠ o) as Hxo.
    { intros Hx. rewrite Hx in Hx3. unfold source in Hx3 at 1.
      rewrite Hoo in Hx3. apply Hnl. done. }
    rewrite prev_set_next, next_set_next in Heq by done.
    rewrite (decide_False (P:=o = next m o)) in Heq by done.
    rewrite (decide_False (P:=a = prev m a)) in Heq by done.
    rewrite (Hnext _ _ h Heq).
    destruct (relink_two_fields m (prev m a) (next m o) (prev m o) (next m a)
                e h Hp1 Hx1 Hq1 Hy1) as [_ (-> & _)]; [done|].
    destruct (decide (h = prev m o)) as [->|Hhq].
    { rewrite Hq2. rewrite decide_False; [by rewrite Hoo|].
      intros Hd. by apply (Hoff _ o Heq Hd). }
    destruct (decide (h = prev m a)) as [->|Hhp].
    { rewrite Hp2. rewrite decide_False; [done|].
      intros Hd. by apply (Hoff _ a Heq Hd). }
    rewrite decide_True; [done|]. apply Hkeep; [done|].
    intros [Hnx|Hnx]%Hon_e; rewrite Hnx in Hn2; congruence.
Qed.

(** A kept vertex has a halfedge of a kept face into it, throughout the
    loop. *)
Lemma kept_vertex_halfedge m v :
  Inv m → K v →
  ∃ g f, alive m g ∧ target m g = v ∧ face m g = Some f ∧ get_fcm fcm f = 1.
Proof using Hon.
  intros HI (g & f & Hg & Ht & Hf & Hk)%Hon.
  destruct (eli_kept _ _ _ _ HI g f Hg Hf Hk) as [Hg' Hf'].
  exists g, f. split_and!; [done| |done..].
  by rewrite (eli_target _ _ _ _ HI g Hg').
Qed.

(** In a ring with a halfedge of a kept face, a halfedge without a kept
    face is not followed by its own opposite. *)
Lemma no_tip m x :
  Inv m → vertex_inv kv m → alive m x → K (target m x) →
  (∀ f, face m x = Some f → get_fcm fcm f ≠ 1) →
  next m x ≠ opposite x.
Proof using Hon.
  intros HI HV Hx HK Hface Htip.
  destruct (kept_vertex_halfedge m (target m x) HI HK)
    as (g & f & Hg & Ht & Hf & Hk).
  assert (g ≠ x) as Hgx by (intros ->; by eapply Hface).
  apply Hgx. apply (rtc_fixed_point (around m)).
  - intros y ->. unfold next_around_target. rewrite Htip.
    apply opposite_involutive.
  - by apply (vi_ring _ _ HV).
Qed.

(** One iteration keeps the reference halfedges of the kept vertices
    valid. *)
Lemma process_edge_vi_ref m e v h :
  Inv m → vertex_inv kv m → alive m (halfedge_e e) →
  K v → halfedge_v (process_edge fcm kv m e) v = Some h →
  alive (process_edge fcm kv m e) h ∧ target (process_edge fcm kv m e) h = v.
Proof using Hmarked Hon.
  intros HI HV Ha HKv Hv.
  set (a := halfedge_e e) in *. set (o := opposite a).
  assert (alive m o) as Ho by done.
  assert (opposite o = a) as Hoo by apply opposite_involutive.
  assert (source m o = target m a) as Hso by (unfold source; by rewrite Hoo).
  pose proof (eli_no_loop _ _ _ _ HI a Ha) as Hnl.
  destruct (process_edge_inv fcm kv m0 Hmarked m e HI Ha)
    as (HI' & Hsub & Hkeep & _).
  set (pe := process_edge fcm kv m e) in *.
  assert (∀ g, alive pe g → target pe g = target m g) as Htgt.
  { intros g Hg. rewrite (eli_target _ _ _ _ HI' g Hg).
    symmetry. apply (eli_target _ _ _ _ HI). by apply Hsub. }
  assert (∀ g, alive pe g → alive pe g ∧ target pe g = target m g) as Hboth
    by (intros g Hg; split; [done|by apply Htgt]).
  assert (¬ alive pe a → ∀ x f, alive m x → x.1 = e → face m x = Some f →
            get_fcm fcm f ≠ 1) as Hnokept.
  { intros Hdead x f Hx Hxe Hf Hk. apply Hdead.
    destruct (eli_kept _ _ _ _ HI' x f) as [Hx' _];
      [by apply (eli_alive _ _ _ _ HI)|by apply (eli_face _ _ _ _ HI)|done|].
    change (is_Some (econn pe !! e)). by rewrite <-Hxe. }
  assert (∀ g, g.1 = e → g = a ∨ g = o) as Hon_e
    by (intros g; apply same_edge).
  pose proof (process_edge_halfedge_v fcm kv m e v Ha) as Hform.
  cbv zeta in Hform. fold a o pe in Hform.
  rewrite Hform in Hv by (by intros ?).
  clear Hform.
  destruct (decide (¬ alive pe a ∧ K (source m a) ∧ v = source m a
                    ∧ halfedge_v m (source m a) = Some o))
    as [(Hdead & HKs & -> & Hs)|Hn1].
  { assert (h = prev m a) as -> by congruence.
    destruct (eli_prev _ _ _ _ HI a Ha HKs) as (Hp1 & Hp2 & Hp3).
    rewrite <-Hp3. apply Hboth, Hkeep; [done|].
    intros [Hp|Hp]%Hon_e.
    - rewrite Hp in Hp3. congruence.
    - apply (no_tip m o HI HV Ho); [done| |].
      + intros f Hf. by apply (Hnokept Hdead o f).
      + rewrite <-Hp at 1. by rewrite Hp2. }
  destruct (decide (¬ alive pe a ∧ K (target m a) ∧ v = target m a
                    ∧ halfedge_v m (target m a) = Some a))
    as [(Hdead & HKt & -> & Ht)|Hn2].
  { assert (h = prev m o) as -> by congruence.
    destruct (eli_prev _ _ _ _ HI o Ho) as (Hq1 & Hq2 & Hq3);
      [by rewrite Hso|].
    rewrite <-Hso, <-Hq3. apply Hboth, Hkeep; [done|].
    intros [Hq|Hq]%Hon_e.
    - apply (no_tip m a HI HV Ha); [done| |].
      + intros f Hf. by apply (Hnokept Hdead a f).
      + rewrite <-Hq at 1. by rewrite Hq2.
    - rewrite Hq in Hq3. rewrite Hso in Hq3. unfold o in Hq3 at 1.
      fold (source m a) in Hq3. congruence. }
  destruct (vi_ref _ _ HV v h HKv Hv) as [Hh Hth].
  rewrite <-Hth. apply Hboth.
  destruct (decide (h.1 = e)) as [Hhe|Hhe]; [|by apply Hkeep].
  destruct (decide (alive pe a)) as [Hal|Hdead].
  { unfold alive in *. by rewrite Hhe. }
  exfalso. apply Hon_e in Hhe as [->| ->].
  - apply Hn2. split_and!; [done|by rewrite Hth|done|by rewrite Hth].
  - apply Hn1. split_and!; [done| |done|].
    + by rewrite <-Hth in HKv.
    + by rewrite <-Hth in Hv.
Qed.

(** One iteration keeps the ring of each kept vertex in one piece: a
    halfedge that goes is bypassed in the rotation. *)
Lemma process_edge_vi_ring m e h g :
  Inv m → vertex_inv kv m → alive m (halfedge_e e) →
  alive (process_edge fcm kv m e) h → alive (process_edge fcm kv m e) g →
  target (process_edge fcm kv m e) h = target (process_edge fcm kv m e) g →
  K (target (process_edge fcm kv m e) h) →
  rtc (around (process_edge fcm kv m e)) h g.
Proof using Hmarked.
  intros HI HV Ha Hh Hg Htg HK.
  destruct (process_edge_inv fcm kv m0 Hmarked m e HI Ha)
    as (HI' & Hsub & Hkeep & _).
  pose proof (λ x, process_edge_next m e x HI Ha) as Hnext.
  set (pe := process_edge fcm kv m e) in *.
  assert (∀ x, alive pe x → target pe x = target m x) as Htgt.
  { intros x Hx. rewrite (eli_target _ _ _ _ HI' x Hx).
    symmetry. apply (eli_target _ _ _ _ HI). by apply Hsub. }
  rewrite !Htgt in * by done.
  assert (rtc (around m) h g) as Hpath
    by (apply (vi_ring _ _ HV); auto).
  assert (∀ x y, alive m x → alive m y → ¬ alive pe x → ¬ alive pe y →
            target m x = target m y → x = y) as Hdead.
  { intros x y Hx Hy Hdx Hdy Hxy.
    assert (x.1 = e) as Hxe.
    { destruct (decide (x.1 = e)); [done|]. destruct Hdx. by apply Hkeep. }
    assert (y.1 = e) as Hye.
    { destruct (decide (y.1 = e)); [done|]. destruct Hdy. by apply Hkeep. }
    assert (x.1 = y.1) as [->| ->]%same_edge_sides by congruence; [done|].
    exfalso. apply (eli_no_loop _ _ _ _ HI y Hy). done. }
  revert Hg. clear Htg.
  cut (alive m g ∧ target m g = target m h
       ∧ (alive pe g → rtc (around pe) h g)
       ∧ (¬ alive pe g →
          ∃ y, alive pe y ∧ target m y = target m h
               ∧ rtc (around pe) h y ∧ next_around_target m y = g)).
  { intros (_ & _ & Hgoal & _) Hg. by apply Hgoal. }
  revert g Hpath.
  apply (rtc_ind_r (λ g, alive m g ∧ target m g = target m h
       ∧ (alive pe g → rtc (around pe) h g)
       ∧ (¬ alive pe g →
          ∃ y, alive pe y ∧ target m y = target m h
               ∧ rtc (around pe) h y ∧ next_around_target m y = g))).
  { split_and!; [by apply Hsub|done|done|]. by intros []. }
  intros x x' Hpath Hstep IH.
  destruct IH as (Hx & Hxt & Hxa & Hxd).
  unfold around, next_around_target in Hstep.
  assert (K (target m x)) as HKx by by rewrite Hxt.
  destruct (eli_next _ _ _ _ HI x Hx HKx) as (Hn1 & Hn2 & Hn3).
  assert (alive m x') as Hx' by (subst x'; done).
  assert (target m x' = target m h) as Hxt' by (subst x'; by rewrite <-Hxt).
  split_and!; [done..| |].
  - intros Hal'. destruct (decide (alive pe x)) as [Hal|Hdx].
    + eapply rtc_r; [by apply Hxa|]. unfold around, next_around_target.
      rewrite Hnext by done. rewrite decide_True; [done|].
      subst x'. done.
    + destruct (Hxd Hdx) as (y & Hy & Hyt & Hhy & Hyx).
      eapply rtc_r; [done|]. unfold around, next_around_target.
      rewrite Hnext by (done || by rewrite Hyt).
      unfold next_around_target in Hyx.
      rewrite decide_False.
      * by rewrite Hyx.
      * intros Hd. apply Hdx. rewrite <-Hyx. done.
  - intros Hdx'. destruct (decide (alive pe x)) as [Hal|Hdx].
    + exists x. split_and!; [done..|by apply Hxa|done].
    + assert (x = x') as <- by (apply Hdead; try done; congruence).
      by apply Hxd.
Qed.

Lemma process_edge_vertex_inv m e :
  Inv m → vertex_inv kv m → alive m (halfedge_e e) →
  vertex_inv kv (process_edge fcm kv m e).
Proof using Hmarked Hon.
  intros HI HV Ha. split.
  - intros v h. by apply process_edge_vi_ref.
  - intros h g. by apply process_edge_vi_ring.
Qed.

Lemma edge_loop_vertex_inv es : ∀ m,
  NoDup es → (∀ e, e ∈ es → alive m (halfedge_e e)) → Inv m →
  vertex_inv kv m →
  vertex_inv kv (foldl (process_edge fcm kv) m es).
Proof using Hmarked Hon.
  induction es as [|e es IH]; intros m Hnd Hal HI HV; simpl; [done|].
  apply NoDup_cons in Hnd as [He Hnd].
  assert (alive m (halfedge_e e)) as Ha by (apply Hal; by left).
  destruct (process_edge_inv fcm kv m0 Hmarked m e HI Ha)
    as (HI' & Hsub & Hkeep & _).
  apply IH; [done| |done|by apply process_edge_vertex_inv].
  intros e' He'. apply Hkeep; [apply Hal; by right|]. simpl. by intros ->.
Qed.
End VertexLoop.

Lemma wf_mesh_vertex m v h :
  wf_mesh m → halfedge_v m v = Some h → alive m h ∧ target m h = v.
Proof.
  intros (_ & _ & Hv) Hh. rewrite Forall_forall in Hv.
  assert (v ∈ vertices m) as Hin.
  { apply elem_of_vertices. unfold halfedge_v in Hh.
    destruct (vconn m !! v); [by eexists|done]. }
  specialize (Hv v Hin). unfold wf_vertex in Hv. by rewrite Hh in Hv.
Qed.

(** On a mesh with manifold vertices the excision leaves every reference
    halfedge of a vertex valid, and every vertex manifold. *)
Lemma keep_or_remove_vertex_refs m comps fcm keep :
  wf_mesh m → manifold_vertices m →
  let fcm' := classify_faces (list_to_set comps) keep (faces m) fcm in
  ∃ m', keep_or_remove_connected_components m comps fcm keep = Some (m', fcm')
        ∧ vertex_refs_valid m' ∧ manifold_vertices m'.
Proof.
  intros Hwf Hman fcm'. unfold keep_or_remove_connected_components. fold fcm'.
  set (kv0 := foldl (λ kv v, <[v:=false]> kv) ∅ (vertices m)).
  destruct (mark_vertices_spec m fcm' (faces m) kv0) as (kv & -> & Hkv).
  { intros f Hf _. destruct (wf_mesh_face m f Hwf Hf) as (hs & -> & _). done. }
  assert (∀ v, get_kv kv v = true ↔ on_kept_face m fcm' v) as HK.
  { intros v. rewrite Hkv. split.
    - intros [Hv|(f & hs & h & Hf & Hk & Hhs & Hh & Ht)];
        [by apply init_keep_vertex in Hv|].
      destruct (wf_mesh_face m f Hwf Hf) as (hs' & Hhs' & Hchar). simplify_eq.
      apply Hchar in Hh as [Hh Hhf]. by exists h, f.
    - intros (h & f & Hh & Ht & Hf & Hk). right.
      assert (f ∈ faces m) as Hfin by by eapply wf_mesh_face_exists.
      destruct (wf_mesh_face m f Hwf Hfin) as (hs & Hhs & Hchar).
      exists f, hs, h. split_and!; try done. by apply Hchar. }
  clear Hkv. simpl.
  assert (kept_faces_marked fcm' kv m) as Hmarked.
  { intros h f Hh Hf Hk.
    destruct (wf_mesh_halfedge m h Hwf Hh)
      as (_ & Hp & _ & _ & _ & _ & _ & Hpf & _).
    split; apply HK.
    - by exists h, f.
    - exists (prev m h), f. split_and!; try done; [|congruence].
      by apply wf_source_prev. }
  set (m1 := foldl (process_edge fcm' kv) m (edges m)).
  assert (NoDup (edges m)) as Hnd by apply NoDup_fst_map_to_list.
  assert (∀ e, e ∈ edges m → alive m (halfedge_e e)) as Hes.
  { intros e He. by apply elem_of_edges in He. }
  destruct (edge_loop_post fcm' kv m Hmarked (edges m) m) as [HI Hends];
    [done|done|by apply wf_initial_inv| |].
  { intros h Hh Hne. destruct Hne. by apply elem_of_edges. }
  assert (vertex_inv kv m1) as HV.
  { apply (edge_loop_vertex_inv fcm' kv m Hmarked); try done.
    - intros v. apply HK.
    - by apply wf_initial_inv.
    - split.
      + intros v h _. by apply wf_mesh_vertex.
      + intros h g Hh Hg Ht _. by apply Hman. }
  fold m1 in HI, Hends.
  set (m2 := erase_faces fcm' (faces m1) m1).
  set (m3 := erase_vertices kv (vertices m2) m2).
  destruct (erase_faces_spec fcm' (faces m1) m1) as (Hv2 & He2 & Hf2).
  destruct (erase_vertices_spec kv (vertices m2) m2) as (He3 & Hf3 & Hv3).
  fold m2 in Hv2, He2, Hf2. fold m3 in He3, Hf3, Hv3.
  assert (econn m3 = econn m1) as He31 by congruence.
  assert (∀ h, conn m3 h = conn m1 h) as Hconn
    by (intros h; by apply conn_econn).
  assert (∀ h, alive m3 h ↔ alive m1 h) as Hal
    by (intros h; unfold alive; by rewrite He31).
  assert (∀ h, next m3 h = next m1 h) as Hn3
    by (intros h; unfold next; by rewrite Hconn).
  assert (∀ h, target m3 h = target m1 h) as Ht3
    by (intros h; unfold target; by rewrite Hconn).
  exists m3. split_and!; [done| |].
  - intros v h Hvh. unfold halfedge_v in Hvh. rewrite Hv3 in Hvh.
    case_decide as Hc; [done|]. rewrite Hv2 in Hvh.
    assert (get_kv kv v = true) as HKv.
    { destruct (get_kv kv v) eqn:HKv; [done|]. destruct Hc. split; [|done].
      apply elem_of_vertices. rewrite Hv2.
      destruct (vconn m1 !! v); [by eexists|done]. }
    rewrite Hal, Ht3. by apply (vi_ref _ _ HV).
  - intros h g Hh%Hal Hg%Hal Ht. rewrite !Ht3 in Ht.
    destruct (Hends h Hh) as [HKt _].
    eapply rtc_subrel; [|by apply (vi_ring _ _ HV)].
    intros x y ->. unfold around, next_around_target. by rewrite Hn3.
Qed.

(** [C2], amended: on a well-formed mesh whose vertices are all manifold
    (the halfedges into each vertex form one ring), after
    [keep_connected_components], and after [remove_connected_components]
    called with a range that is not empty, no remaining entity refers to an
    erased one. Every remaining vertex is the target of a remaining
    halfedge whose face remains; the opposite, the successor, the
    predecessor, the target and the face of a remaining halfedge remain;
    the reference halfedge of a remaining face remains and bounds it; and
    the reference halfedge of a remaining vertex remains and points to it.
    Every remaining vertex is manifold again, so the removal creates no
    non-manifold vertex, and the mesh is well-formed again. *)
Theorem excision_no_dangling m comps fcm :
  wf_mesh m → manifold_vertices m →
  (∃ m' fcm', keep_connected_components m comps fcm = Some (m', fcm')
              ∧ no_dangling m' ∧ vertex_refs_valid m'
              ∧ manifold_vertices m' ∧ wf_mesh m')
  ∧ (comps ≠ [] →
     ∃ m' fcm', remove_connected_components m comps fcm = Some (m', fcm')
                ∧ no_dangling m' ∧ vertex_refs_valid m'
                ∧ manifold_vertices m' ∧ wf_mesh m').
Proof.
  intros Hwf Hman.
  assert (∀ keep, ∃ m' fcm',
            keep_or_remove_connected_components m comps fcm keep
            = Some (m', fcm')
            ∧ no_dangling m' ∧ vertex_refs_valid m'
            ∧ manifold_vertices m' ∧ wf_mesh m') as Hrun.
  { intros keep.
    destruct (keep_or_remove_spec m comps fcm keep Hwf) as (m' & Hrun & _ & Hnd).
    destruct (keep_or_remove_vertex_refs m comps fcm keep Hwf Hman)
      as (m2 & Hrun2 & Hrefs & Hman').
    destruct (keep_or_remove_detail m comps fcm keep Hwf)
      as (m3 & Hrun3 & Hex).
    assert (m2 = m') as -> by congruence.
    assert (m3 = m') as -> by congruence.
    eexists m', _. split_and!; [done..|]. split_and!; apply Forall_forall.
    - intros h Hh%elem_of_halfedges. by eapply excised_wf_halfedge.
    - intros f Hf. by eapply excised_wf_face.
    - intros v _. unfold wf_vertex.
      destruct (halfedge_v m' v) as [h|] eqn:Hv; [|done]. by apply Hrefs. }
  split.
  - apply Hrun.
  - intros Hne. unfold remove_connected_components.
    rewrite decide_False by done. apply Hrun.
Qed.

Lemma excision_no_dangling_witness :
  wf_mesh quad ∧ manifold_vertices quad ∧
  (∃ m' fcm', keep_connected_components quad [0] {[1 := 0; 0 := 1]}
              = Some (m', fcm')
              ∧ no_dangling m' ∧ vertex_refs_valid m'
              ∧ manifold_vertices m' ∧ wf_mesh m')
  ∧ ([0] ≠ [] →
     ∃ m' fcm', remove_connected_components quad [0] {[1 := 0; 0 := 1]}
                = Some (m', fcm')
                ∧ no_dangling m' ∧ vertex_refs_valid m'
                ∧ manifold_vertices m' ∧ wf_mesh m').
Proof.
  split; [compute_done|]. split; [apply rings_close_manifold; compute_done|].
  apply (excision_no_dangling quad [0] {[1 := 0; 0 := 1]});
    [compute_done|apply rings_close_manifold; compute_done].
Defined.

(** [C2] as stated fails: with an empty range, [remove_connected_components]
    returns at once. The vertex [4], which no edge uses, stays in the mesh,
    and no halfedge has it as target. The mesh is well-formed and its
    vertices are manifold. *)
Lemma remove_nothing_keeps_isolated_vertex :
  wf_mesh quad_with_isolated_vertex
  ∧ manifold_vertices quad_with_isolated_vertex
  ∧ ∃ m' fcm',
      remove_connected_components quad_with_isolated_vertex [] ∅ = Some (m', fcm')
      ∧ 4 ∈ vertices m'
      ∧ ∀ h, alive m' h → target m' h ≠ 4.
Proof.
  split; [compute_done|]. split; [apply rings_close_manifold; compute_done|].
  exists quad_with_isolated_vertex, ∅. split_and!; [done|compute_done|].
  intros h Hh. apply elem_of_halfedges in Hh. revert h Hh.
  apply (Forall_forall (λ h, target quad_with_isolated_vertex h ≠ 4)).
  compute_done.
Qed.

(** The hypothesis on the rings cannot be dropped: in [bowtie], which is
    well-formed, the reference halfedge of the vertex [0] is in the ring of
    the triangle that is removed; the loop over the edges replaces it by
    halfedges of that ring only, and the last of them is erased. *)
Lemma two_rings_leave_dangling_reference :
  wf_mesh bowtie
  ∧ ∃ m' fcm',
      keep_connected_components bowtie [1] {[1 := 0; 0 := 1]} = Some (m', fcm')
      ∧ 0 ∈ vertices m' ∧ halfedge_v m' 0 = Some (3, true)
      ∧ ¬ alive m' (3, true).
Proof.
  split; [compute_done|].
  assert (match keep_connected_components bowtie [1] {[1 := 0; 0 := 1]} with
          | Some (m', _) =>
              0 ∈ vertices m' ∧ halfedge_v m' 0 = Some (3, true)
              ∧ 3 ∉ edges m'
          | None => False
          end) as Hrun by compute_done.
  destruct (keep_connected_components bowtie [1] {[1 := 0; 0 := 1]})
    as [[m' fcm']|]; [|done].
  destruct Hrun as (Hv & Hh & He).
  exists m', fcm'. split_and!; [done..|].
  intros Ha. apply He. by apply elem_of_edges.
Qed.
